(** * Slap game: the turn/round state machines of the repository

    The components of the repository are embedded each in a module named
    after the source component:

    - [GameScreen]   the game screen ([initializeGame], [nextTurn],
                     [handleTilePress], [handleEndTurn], [handleSlapDismiss])
    - [Handoff]      the roster the game screen reads from its route
                     parameters
    - [SetupScreen]  the roster-entry screen ([addPlayer], [removePlayer],
                     [startGame])
    - [App]          the single-screen game of [App.tsx] ([createGrid],
                     [resetRound], [advanceTurn], [addPlayer], [handlePick])

    An event handler is a function from the state of the component at the
    render whose closure it belongs to, to the state after React has
    applied the queued updates and run the effects.  [Math.random] and
    [Date.now] are inputs of the handlers that call them. *)

From Stdlib Require Import ZArith String List Bool Lia.
From stdpp Require Import base numbers list strings.
Import ListNotations.

Local Open Scope string_scope.
Local Open Scope Z_scope.

(** The four states the specification names. *)
Inductive Phase : Set := GameIdle | AwaitingPick | RoundWon | Slapped.

(** Result of code that consumes random draws: a finite list of draws may
    be too short for a rejection-sampling loop to finish, and indexing
    outside an array and then reading a field of [undefined] raises. *)
Inductive Outcome (A : Type) : Type :=
  | Done (a : A)
  | NeedsMoreDraws
  | TypeError.
Arguments Done {A} a.
Arguments NeedsMoreDraws {A}.
Arguments TypeError {A}.

Definition isDone {A : Type} (o : Outcome A) : bool :=
  match o with
  | Done _ => true
  | _ => false
  end.

(** JavaScript truthiness of a [string | null | undefined]. *)
Definition truthy (o : option string) : bool :=
  match o with
  | Some s => negb (String.eqb s "")
  | None => false
  end.

(** Leading and trailing ASCII white space removed; stands for
    [String.prototype.trim] when the handlers are run on concrete
    inputs. *)
Definition isSpace (c : Ascii.ascii) : bool :=
  let n := Ascii.nat_of_ascii c in
  ((n =? 32) || ((9 <=? n) && (n <=? 13)))%nat.

Fixpoint trimLeft (s : string) : string :=
  match s with
  | String c rest => if isSpace c then trimLeft rest else s
  | EmptyString => EmptyString
  end.

Fixpoint trimRight (s : string) : string :=
  match s with
  | String c rest =>
      match trimRight rest with
      | EmptyString => if isSpace c then EmptyString else String c EmptyString
      | kept => String c kept
      end
  | EmptyString => EmptyString
  end.

Definition asciiTrim (s : string) : string := trimRight (trimLeft s).

(* ================================================================== *)
(** * The game screen *)
(* ================================================================== *)
Module GameScreen.

Definition GRID_SIZE : nat := 5.
Definition TOTAL_TILES : nat := GRID_SIZE * GRID_SIZE.
#[global] Arguments TOTAL_TILES : simpl never.

Record Tile : Set := mkTile {
  tile_id : nat;
  isMine : bool;
  isRevealed : bool
}.

(** Component state: the [useState] cells, the two refs, the roster
    parsed from the route parameters, and the number of [setTimeout]
    callbacks ([nextTurn]) that are scheduled and have not run. *)
Record State : Type := mkState {
  players : list string;
  grid : list Tile;
  currentPlayerIndex : nat;
  picksLeft : Z;
  slappedPlayer : option string;
  isGameOver : bool;
  mineCount : Z;
  picksLeftRef : Z;
  turnLockedRef : bool;
  pendingTimers : nat
}.

Definition setGrid (g : list Tile) (s : State) : State :=
  mkState (players s) g (currentPlayerIndex s) (picksLeft s) (slappedPlayer s)
          (isGameOver s) (mineCount s) (picksLeftRef s) (turnLockedRef s) (pendingTimers s).
Definition setCurrentPlayerIndex (i : nat) (s : State) : State :=
  mkState (players s) (grid s) i (picksLeft s) (slappedPlayer s)
          (isGameOver s) (mineCount s) (picksLeftRef s) (turnLockedRef s) (pendingTimers s).
Definition setPicksLeft (n : Z) (s : State) : State :=
  mkState (players s) (grid s) (currentPlayerIndex s) n (slappedPlayer s)
          (isGameOver s) (mineCount s) (picksLeftRef s) (turnLockedRef s) (pendingTimers s).
Definition setSlappedPlayer (p : option string) (s : State) : State :=
  mkState (players s) (grid s) (currentPlayerIndex s) (picksLeft s) p
          (isGameOver s) (mineCount s) (picksLeftRef s) (turnLockedRef s) (pendingTimers s).
Definition setIsGameOver (b : bool) (s : State) : State :=
  mkState (players s) (grid s) (currentPlayerIndex s) (picksLeft s) (slappedPlayer s)
          b (mineCount s) (picksLeftRef s) (turnLockedRef s) (pendingTimers s).
Definition setMineCount (n : Z) (s : State) : State :=
  mkState (players s) (grid s) (currentPlayerIndex s) (picksLeft s) (slappedPlayer s)
          (isGameOver s) n (picksLeftRef s) (turnLockedRef s) (pendingTimers s).
Definition setPicksLeftRef (n : Z) (s : State) : State :=
  mkState (players s) (grid s) (currentPlayerIndex s) (picksLeft s) (slappedPlayer s)
          (isGameOver s) (mineCount s) n (turnLockedRef s) (pendingTimers s).
Definition setTurnLockedRef (b : bool) (s : State) : State :=
  mkState (players s) (grid s) (currentPlayerIndex s) (picksLeft s) (slappedPlayer s)
          (isGameOver s) (mineCount s) (picksLeftRef s) b (pendingTimers s).
Definition setPendingTimers (n : nat) (s : State) : State :=
  mkState (players s) (grid s) (currentPlayerIndex s) (picksLeft s) (slappedPlayer s)
          (isGameOver s) (mineCount s) (picksLeftRef s) (turnLockedRef s) n.

(** [Array.from({ length: TOTAL_TILES }, (_, i) => ({ id: i, isMine: false,
    isRevealed: false }))] *)
Definition blankGrid : list Tile :=
  (fun i => mkTile i false false) <$> seq 0 TOTAL_TILES.

Definition markMine (t : Tile) : Tile := mkTile (tile_id t) true (isRevealed t).
Definition markRevealed (t : Tile) : Tile := mkTile (tile_id t) (isMine t) true.

(** The [while (minesPlaced < mineCount)] loop of [initializeGame].  Each
    element of [draws] is one value of
    [Math.floor(Math.random() * TOTAL_TILES)]. *)
Fixpoint placeMines (mineCount minesPlaced : Z) (newGrid : list Tile)
                    (draws : list nat) : Outcome (list Tile) :=
  if minesPlaced <? mineCount then
    match draws with
    | [] => NeedsMoreDraws
    | randomIndex :: rest =>
        match newGrid !! randomIndex with
        | None => TypeError
        | Some t =>
            if isMine t then placeMines mineCount minesPlaced newGrid rest
            else placeMines mineCount (minesPlaced + 1)
                            (<[randomIndex := markMine t]> newGrid) rest
        end
    end
  else Done newGrid.

(** The state updates of [initializeGame] once the grid is built. *)
Definition startRound (newGrid : list Tile) (s : State) : State :=
  setTurnLockedRef false
    (setSlappedPlayer None
      (setIsGameOver false
        (setPicksLeft 3
          (setGrid newGrid s)))).

Definition initializeGame (draws : list nat) (s : State) : Outcome State :=
  match placeMines (mineCount s) 0 blankGrid draws with
  | Done newGrid => Done (startRound newGrid s)
  | NeedsMoreDraws => NeedsMoreDraws
  | TypeError => TypeError
  end.

(** [useEffect(() => { picksLeftRef.current = picksLeft; }, [picksLeft])]:
    runs after a render in which [picksLeft] differs from the previous
    render. *)
Definition syncPicksLeftRef (before after : State) : State :=
  if picksLeft before =? picksLeft after then after
  else setPicksLeftRef (picksLeft after) after.

(** [(prev) => (players.length ? (prev + 1) % players.length : 0)] *)
Definition advanceIndex (ps : list string) (prev : nat) : nat :=
  match length ps with
  | O => O
  | n => ((prev + 1) mod n)%nat
  end.

Definition nextTurn (s : State) : State :=
  setCurrentPlayerIndex (advanceIndex (players s) (currentPlayerIndex s))
    (setTurnLockedRef false
      (setPicksLeft 3 s)).

(** [grid[index]?.isRevealed] *)
Definition revealedAt (g : list Tile) (index : nat) : bool :=
  match g !! index with
  | Some t => isRevealed t
  | None => false
  end.

Definition handleTilePress (index : nat) (s : State) : State :=
  if isGameOver s
     || revealedAt (grid s) index
     || truthy (slappedPlayer s)
     || (picksLeftRef s <=? 0)
     || turnLockedRef s
  then s
  else
    match grid s !! index with
    | None => s
    | Some tile =>
        let s1 := setGrid (<[index := markRevealed tile]> (grid s)) s in
        if isMine tile then
          setIsGameOver true
            (setSlappedPlayer (players s !! currentPlayerIndex s)
              (setTurnLockedRef true s1))
        else
          let newPicksLeft := picksLeftRef s - 1 in
          let s2 := setPicksLeftRef newPicksLeft s1 in
          if newPicksLeft =? 0 then
            setPendingTimers (S (pendingTimers s))
              (setTurnLockedRef true
                (setPicksLeft 0 s2))
          else setPicksLeft newPicksLeft s2
    end.

Definition handleEndTurn (s : State) : State :=
  if picksLeft s =? 3 then s
  else nextTurn (setTurnLockedRef true s).

Definition handleSlapDismiss (draws : list nat) (s : State) : Outcome State :=
  match initializeGame draws (setSlappedPlayer None s) with
  | Done s' =>
      Done (setCurrentPlayerIndex
              (advanceIndex (players s) (currentPlayerIndex s)) s')
  | NeedsMoreDraws => NeedsMoreDraws
  | TypeError => TypeError
  end.

(** ** User events

    A control that is rendered [disabled] does not call its handler; the
    functions below put each handler behind the [disabled] expression of
    its control, and [step] adds the effects of the render that follows. *)

(** [disabled={isGameOver || tile.isRevealed || picksLeft === 0}] *)
Definition tileDisabled (s : State) (t : Tile) : bool :=
  isGameOver s || isRevealed t || (picksLeft s =? 0).

Definition pressTile (index : nat) (s : State) : State :=
  match grid s !! index with
  | Some t => if tileDisabled s t then s else handleTilePress index s
  | None => s
  end.

(** [disabled={picksLeft === 3 || isGameOver}] *)
Definition endTurnDisabled (s : State) : bool :=
  (picksLeft s =? 3) || isGameOver s.

Definition pressEndTurn (s : State) : State :=
  if endTurnDisabled s then s else handleEndTurn s.

(** The modal that holds the "Next Round" button: [visible={!!slappedPlayer}] *)
Definition pressNextRound (draws : list nat) (s : State) : Outcome State :=
  if truthy (slappedPlayer s) then handleSlapDismiss draws s else Done s.

(** The callback given to [setTimeout] runs [nextTurn]. *)
Definition timerFires (s : State) : State :=
  match pendingTimers s with
  | O => s
  | S n => nextTurn (setPendingTimers n s)
  end.

(** [setMineCount(f)]: when the count changes, [initializeGame] is a new
    callback ([useCallback(..., [mineCount])]) and the effect
    [useEffect(() => { initializeGame(); }, [initializeGame])] runs it;
    when the count is the same React keeps the render and nothing runs. *)
Definition changeMineCount (f : Z -> Z) (draws : list nat) (s : State)
  : Outcome State :=
  let next := f (mineCount s) in
  if next =? mineCount s then Done s
  else initializeGame draws (setMineCount next s).

(** [(prev) => Math.max(1, prev - 1)] and [(prev) => Math.min(24, prev + 1)] *)
Definition pressMinus : list nat -> State -> Outcome State :=
  changeMineCount (fun prev => Z.max 1 (prev - 1)).
Definition pressPlus : list nat -> State -> Outcome State :=
  changeMineCount (fun prev => Z.min 24 (prev + 1)).

Inductive Event : Type :=
  | TilePress (index : nat)
  | TimerFires
  | EndTurn
  | NextRound (draws : list nat)
  | Restart (draws : list nat)
  | Minus (draws : list nat)
  | Plus (draws : list nat).

Definition handle (e : Event) (s : State) : Outcome State :=
  match e with
  | TilePress index => Done (pressTile index s)
  | TimerFires => Done (timerFires s)
  | EndTurn => Done (pressEndTurn s)
  | NextRound draws => pressNextRound draws s
  | Restart draws => initializeGame draws s
  | Minus draws => pressMinus draws s
  | Plus draws => pressPlus draws s
  end.

Definition step (e : Event) (s : State) : Outcome State :=
  match handle e s with
  | Done s' => Done (syncPicksLeftRef s s')
  | NeedsMoreDraws => NeedsMoreDraws
  | TypeError => TypeError
  end.

(** The [useState] and [useRef] initial values. *)
Definition initialState (ps : list string) : State :=
  mkState ps [] 0 3 None false 1 3 false 0.

(** First render: the effects run [initializeGame] and copy [picksLeft]
    into the ref. *)
Definition mount (ps : list string) (draws : list nat) : Outcome State :=
  match initializeGame draws (initialState ps) with
  | Done s' => Done (setPicksLeftRef (picksLeft s') s')
  | NeedsMoreDraws => NeedsMoreDraws
  | TypeError => TypeError
  end.

Inductive reachable (ps : list string) : State -> Prop :=
  | reach_mount draws s :
      mount ps draws = Done s -> reachable ps s
  | reach_step e s s' :
      reachable ps s -> step e s = Done s' -> reachable ps s'.

(** The events that start a round or a turn anew; the others are the
    picks of the running round. *)
Definition isReset (e : Event) : bool :=
  match e with
  | TilePress _ => false
  | _ => true
  end.

(** The events that can run [initializeGame] and so begin a round on a
    new grid; the others keep the grid of the running round. *)
Definition startsRound (e : Event) : bool :=
  match e with
  | NextRound _ | Restart _ | Minus _ | Plus _ => true
  | TilePress _ | TimerFires | EndTurn => false
  end.

(** The state after the first render, when its draws are enough. *)
Definition afterMount (ps : list string) (draws : list nat) : State :=
  match mount ps draws with
  | Done s => s
  | _ => initialState ps
  end.

(** Classification of a state by the guards of the source: a pick is
    accepted exactly in [AwaitingPick] (see [handleTilePress]). *)
Definition phase (s : State) : Phase :=
  match grid s with
  | [] => GameIdle
  | _ =>
      if isGameOver s || truthy (slappedPlayer s) then Slapped
      else if turnLockedRef s || (picksLeftRef s <=? 0) then RoundWon
      else AwaitingPick
  end.

(** Number of mines of a grid. *)
Definition minesIn (g : list Tile) : nat := length (List.filter isMine g).

(** [grid[p]?.isMine] *)
Definition mineAt (g : list Tile) (p : nat) : bool :=
  match g !! p with
  | Some t => isMine t
  | None => false
  end.

(** A list of draws is enough for [K] mines when every draw is a tile
    index and at least [K] different indices occur in it. *)
Definition enoughDraws (K : Z) (draws : list nat) : Prop :=
  Forall (fun r => (r < TOTAL_TILES)%nat) draws
  /\ K <= Z.of_nat (length (remove_dups draws)).

(** A freshly initialised grid: the 25 tiles in order, all hidden. *)
Definition freshGrid (g : list Tile) : Prop :=
  tile_id <$> g = seq 0 TOTAL_TILES
  /\ isRevealed <$> g = replicate TOTAL_TILES false.

(** Facts that hold of every state the screen can be in after its first
    render (see [reachable_Inv]). *)
Record Inv (s : State) : Prop := mkInv {
  inv_picks : 0 <= picksLeft s <= 3;
  inv_ref : picksLeftRef s = picksLeft s;
  inv_count : 1 <= mineCount s <= 24;
  inv_ids : tile_id <$> grid s = seq 0 TOTAL_TILES;
  inv_mines : Z.of_nat (minesIn (grid s)) = mineCount s;
  inv_index : (currentPlayerIndex s < length (players s))%nat
              \/ currentPlayerIndex s = 0%nat
}.

(** What a handler may do to the ref before the render's effect runs. *)
Definition refOk (s s' : State) : Prop :=
  picksLeftRef s' = picksLeft s' \/ picksLeftRef s' = picksLeftRef s.

(** Runs a list of events, stopping at the first one that does not
    return. *)
Fixpoint run (es : list Event) (s : State) : Outcome State :=
  match es with
  | [] => Done s
  | e :: rest =>
      match step e s with
      | Done s' => run rest s'
      | NeedsMoreDraws => NeedsMoreDraws
      | TypeError => TypeError
      end
  end.

(** The state after the first render and a list of events, when the
    draws are enough. *)
Definition stateAfter (ps : list string) (draws : list nat) (es : list Event)
  : State :=
  match run es (afterMount ps draws) with
  | Done s => s
  | _ => initialState ps
  end.

(** Number of tiles that are mines and revealed. *)
Definition revealedMines (g : list Tile) : nat :=
  length (List.filter (fun t => isRevealed t && isMine t) g).

(** The name in the header, [players[currentPlayerIndex] ?? ""]. *)
Definition currentPlayerLabel (s : State) : string :=
  default "" (players s !! currentPlayerIndex s).

(** The first [n] different values of [draws] that are not in [seen], in
    the order they are drawn. *)
Fixpoint firstDistinct (n : nat) (seen draws : list nat) : list nat :=
  match draws with
  | [] => []
  | r :: rest =>
      match n with
      | O => []
      | S n' =>
          if bool_decide (r ∈ seen) then firstDistinct n seen rest
          else r :: firstDistinct n' (r :: seen) rest
      end
  end.

(** How the flags, the lock, the counter and the timers go together in
    every state of the screen (see [reachable_LockInv]). *)
Record LockInv (s : State) : Prop := mkLockInv {
  lock_modal : slappedPlayer s <> None -> isGameOver s = true;
  lock_hidden_mines : isGameOver s = false -> revealedMines (grid s) = 0%nat;
  lock_one_mine : (revealedMines (grid s) <= 1)%nat;
  lock_exhausted : picksLeft s = 0 ->
                   turnLockedRef s = true /\ isGameOver s = false
                   /\ (1 <= pendingTimers s)%nat;
  lock_locked : turnLockedRef s = true -> picksLeft s = 0 \/ isGameOver s = true
}.

End GameScreen.

(* ================================================================== *)
(** * The roster hand-off read by the game screen *)
(* ================================================================== *)
Module Handoff.

(** Values [JSON.parse] can return. *)
#[local] Unset Elimination Schemes.
Inductive JSValue : Type :=
  | JNull
  | JBool (b : bool)
  | JNumber (literal : string)
  | JString (s : string)
  | JArray (items : list JSValue)
  | JObject (fields : list (string * JSValue)).
#[local] Set Elimination Schemes.

Section Parse.

(** [JSON.parse] of the platform: [None] when it throws [SyntaxError]. *)
Variable JSON_parse : string -> option JSValue.

(** The immediately-invoked function that computes [players]:
    [try { return params.players ? JSON.parse(params.players) : []; }
     catch { return []; }].
    [param] is [params.players]; [None] is [undefined].  The result is
    [None] only if an exception leaves the function. *)
Definition parsePlayers (param : option string) : option JSValue :=
  match param with
  | None => Some (JArray [])
  | Some text =>
      if String.eqb text "" then Some (JArray [])
      else match JSON_parse text with
           | Some v => Some v
           | None => Some (JArray [])
           end
  end.

End Parse.

(** A parser that accepts the text of the empty array only; used to run
    [parsePlayers] on concrete inputs. *)
Definition parseEmptyArrayOnly (text : string) : option JSValue :=
  if String.eqb text "[]" then Some (JArray []) else None.

End Handoff.

(* ================================================================== *)
(** * The roster-entry screen *)
(* ================================================================== *)
Module SetupScreen.

Inductive Effect : Type :=
  | Alert (title message : string)
  | HapticImpactLight
  | HapticNotificationSuccess
  | RouterPush (pathname : string) (playersParam : string).

Record State : Type := mkState {
  playerName : string;
  players : list string
}.

(** [players.includes(x)] *)
Definition includes (l : list string) (x : string) : bool :=
  existsb (String.eqb x) l.

(** The roster never holds a name twice and never holds the empty name. *)
Definition rosterOk (l : list string) : Prop := NoDup l /\ "" ∉ l.

Section Handlers.

(** [String.prototype.trim] and [JSON.stringify] of the platform. *)
Variable trim : string -> string.
Variable JSON_stringify : list string -> string.

Definition addPlayer (s : State) : State * list Effect :=
  if String.eqb (trim (playerName s)) "" then (s, [])
  else if includes (players s) (trim (playerName s)) then
    (s, [Alert "Duplicate Name" "Player already exists!"])
  else
    (mkState "" (players s ++ [trim (playerName s)]), [HapticImpactLight]).

(** [newPlayers.splice(index, 1)] on a copy of the roster. *)
Definition removePlayer (index : nat) (s : State) : State * list Effect :=
  (mkState (playerName s) (delete index (players s)), [HapticImpactLight]).

Definition startGame (s : State) : State * list Effect :=
  if (length (players s) <? 2)%nat then
    (s, [Alert "Not enough players" "Please add at least 2 players!"])
  else
    (s, [HapticNotificationSuccess;
         RouterPush "/game" (JSON_stringify (players s))]).

Inductive Event : Type :=
  | ChangeText (text : string)
  | AddPlayer
  | RemovePlayer (index : nat)
  | StartGame.

Definition step (e : Event) (s : State) : State * list Effect :=
  match e with
  | ChangeText text => (mkState text (players s), [])
  | AddPlayer => addPlayer s
  | RemovePlayer index => removePlayer index s
  | StartGame => startGame s
  end.

Definition initialState : State := mkState "" [].

Inductive reachable : State -> Prop :=
  | reach_init : reachable initialState
  | reach_step e s : reachable s -> reachable (fst (step e s)).

End Handlers.

End SetupScreen.

(* ================================================================== *)
(** * The single-screen game of App.tsx *)
(* ================================================================== *)
Module App.

Definition GRID_SIZE : nat := 5.
Definition MAX_PICKS : Z := 3.

Record Tile : Set := mkTile {
  tile_id : nat;
  revealed : bool;
  isMine : bool
}.

Record Player : Set := mkPlayer {
  player_id : Z;
  name : string;
  slaps : Z
}.

Definition createGrid (mineIndex : nat) : list Tile :=
  (fun i => mkTile i false (i =? mineIndex)%nat) <$> seq 0 (GRID_SIZE * GRID_SIZE).

Record State : Type := mkState {
  players : list Player;
  playerName : string;
  currentPlayerIndex : nat;
  mineIndex : nat;
  grid : list Tile;
  picksLeft : Z;
  roundMessage : string
}.

Definition setPlayers (ps : list Player) (s : State) : State :=
  mkState ps (playerName s) (currentPlayerIndex s) (mineIndex s) (grid s)
          (picksLeft s) (roundMessage s).
Definition setPlayerName (n : string) (s : State) : State :=
  mkState (players s) n (currentPlayerIndex s) (mineIndex s) (grid s)
          (picksLeft s) (roundMessage s).
Definition setCurrentPlayerIndex (i : nat) (s : State) : State :=
  mkState (players s) (playerName s) i (mineIndex s) (grid s)
          (picksLeft s) (roundMessage s).
Definition setMineIndex (m : nat) (s : State) : State :=
  mkState (players s) (playerName s) (currentPlayerIndex s) m (grid s)
          (picksLeft s) (roundMessage s).
Definition setGrid (g : list Tile) (s : State) : State :=
  mkState (players s) (playerName s) (currentPlayerIndex s) (mineIndex s) g
          (picksLeft s) (roundMessage s).
Definition setPicksLeft (n : Z) (s : State) : State :=
  mkState (players s) (playerName s) (currentPlayerIndex s) (mineIndex s) (grid s)
          n (roundMessage s).
Definition setRoundMessage (m : string) (s : State) : State :=
  mkState (players s) (playerName s) (currentPlayerIndex s) (mineIndex s) (grid s)
          (picksLeft s) m.

(** [players.length ? players[currentPlayerIndex] : undefined] *)
Definition currentPlayer (s : State) : option Player :=
  match players s with
  | [] => None
  | _ => players s !! currentPlayerIndex s
  end.

(** [nextMine] is the value of
    [Math.floor(Math.random() * GRID_SIZE * GRID_SIZE)]. *)
Definition resetRound (nextMine nextPlayerIndex : nat) (message : option string)
                      (s : State) : State :=
  setCurrentPlayerIndex nextPlayerIndex
    (setRoundMessage (default "Pick up to 3 tiles." message)
      (setPicksLeft MAX_PICKS
        (setGrid (createGrid nextMine)
          (setMineIndex nextMine s)))).

(** [advanceTurn] reads [players] and [currentPlayerIndex] of the render
    whose closure it belongs to ([render]) and queues its updates after
    the ones already made ([s]). *)
Definition advanceTurn (render : State) (nextMine : nat) (message : option string)
                       (s : State) : State :=
  match length (players render) with
  | O => s
  | n => resetRound nextMine ((currentPlayerIndex render + 1) mod n)%nat message s
  end.

Section Handlers.

Variable trim : string -> string.

(** [now] is the value of [Date.now()]. *)
Definition addPlayer (now : Z) (s : State) : State :=
  let trimmed := trim (playerName s) in
  if String.eqb trimmed "" then s
  else
    let s1 := setPlayerName ""
                (setPlayers (players s ++ [mkPlayer now trimmed 0]) s) in
    match players s with
    | [] => setCurrentPlayerIndex 0%nat s1
    | _ => s1
    end.

End Handlers.

Definition markRevealed (t : Tile) : Tile := mkTile (tile_id t) true (isMine t).
Definition slap (p : Player) : Player :=
  mkPlayer (player_id p) (name p) (slaps p + 1).

(** The two updater functions given to [setGrid] and [setPlayers]. *)
Definition revealTile (tileId : nat) (g : list Tile) : list Tile :=
  (fun t => if (tile_id t =? tileId)%nat then markRevealed t else t) <$> g.
Definition slapAt (index : nat) (ps : list Player) : list Player :=
  imap (fun idx p => if (idx =? index)%nat then slap p else p) ps.

Definition handlePick (nextMine tileId : nat) (s : State) : State :=
  match currentPlayer s with
  | None => s
  | Some cp =>
      if picksLeft s =? 0 then s
      else
        match List.find (fun t => (tile_id t =? tileId)%nat) (grid s) with
        | None => s
        | Some pickedTile =>
            if revealed pickedTile then s
            else
              let s1 := setGrid (revealTile tileId (grid s)) s in
              if isMine pickedTile then
                advanceTurn s nextMine (Some (name cp +:+ " hit the mine! Slap!"))
                  (setPlayers (slapAt (currentPlayerIndex s) (players s1)) s1)
              else
                let nextPicksLeft := picksLeft s - 1 in
                let s2 := setPicksLeft nextPicksLeft s1 in
                if nextPicksLeft =? 0 then
                  advanceTurn s nextMine (Some (name cp +:+ " is safe. Next player.")) s2
                else s2
        end
  end.

(** [mine0] is the draw made by the initializer of [mineIndex]. *)
Definition initialState (mine0 : nat) : State :=
  mkState [] "" 0 mine0 (createGrid mine0) MAX_PICKS "Pick up to 3 tiles.".

Inductive Event : Type :=
  | ChangeText (text : string)
  | AddPlayer (now : Z)
  | Pick (nextMine tileId : nat).

Definition step (trim : string -> string) (e : Event) (s : State) : State :=
  match e with
  | ChangeText text => setPlayerName text s
  | AddPlayer now => addPlayer trim now s
  | Pick nextMine tileId => handlePick nextMine tileId s
  end.

(** Every draw is below the number of tiles, as
    [Math.floor(Math.random() * 25)] is. *)
Definition drawsInRange (e : Event) : Prop :=
  match e with
  | Pick nextMine _ => (nextMine < GRID_SIZE * GRID_SIZE)%nat
  | _ => True
  end.

Inductive reachable (trim : string -> string) : State -> Prop :=
  | reach_init mine0 :
      (mine0 < GRID_SIZE * GRID_SIZE)%nat -> reachable trim (initialState mine0)
  | reach_step e s :
      reachable trim s -> drawsInRange e -> reachable trim (step trim e s).

(** Classification of a state by the guards of [handlePick] and of the
    tiles' [disabled] expression, [tile.revealed || picksLeft === 0 ||
    !currentPlayer]: the component keeps no flag for a slap. *)
Definition phase (s : State) : Phase :=
  match currentPlayer s with
  | None => GameIdle
  | Some _ => if picksLeft s =? 0 then RoundWon else AwaitingPick
  end.

Definition minesIn (g : list Tile) : nat := length (List.filter isMine g).

Definition run (trim : string -> string) (es : list Event) (s : State) : State :=
  fold_left (fun s e => step trim e s) es s.

(** The state after a list of events on the first render. *)
Definition stateAfter (mine0 : nat) (es : list Event) : State :=
  run asciiTrim es (initialState mine0).

(** Two players typed in and added. *)
Definition addAB : list Event :=
  [ChangeText "A"; AddPlayer 1; ChangeText "B"; AddPlayer 2].

(** Facts that hold of every state of the component (see
    [App_reachable_Inv]). *)
Record Inv (s : State) : Prop := mkInv {
  inv_picks : 1 <= picksLeft s <= MAX_PICKS;
  inv_ids : tile_id <$> grid s = seq 0 (GRID_SIZE * GRID_SIZE);
  inv_mine : minesIn (grid s) = 1%nat;
  inv_index : (currentPlayerIndex s < length (players s))%nat
              \/ currentPlayerIndex s = 0%nat
}.

(** What a tile shows: [tile.revealed ? (tile.isMine ? boom : check) : ""]. *)
Inductive TileText : Set := Blank | Boom | Check.

Definition tileText (t : Tile) : TileText :=
  if revealed t then (if isMine t then Boom else Check) else Blank.

Definition revealedCount (g : list Tile) : nat := length (List.filter revealed g).

(** How the grid, the mine index and the counter go together in every
    state of the component (see [App_reachable_RoundInv]). *)
Record RoundInv (s : State) : Prop := mkRoundInv {
  round_mine_index : (mineIndex s < GRID_SIZE * GRID_SIZE)%nat;
  round_mines : isMine <$> grid s = isMine <$> createGrid (mineIndex s);
  round_revealed : Z.of_nat (revealedCount (grid s)) = MAX_PICKS - picksLeft s;
  round_no_boom : forall t, t ∈ grid s -> tileText t <> Boom
}.

End App.

(* ================================================================== *)
(** * Properties of the game screen *)
(* ================================================================== *)
Section GameScreenFacts.
Import GameScreen.

Lemma minesIn_cons (t : Tile) (g : list Tile) :
  minesIn (t :: g) = ((if isMine t then 1 else 0) + minesIn g)%nat.
Proof. unfold minesIn. simpl. destruct (isMine t); reflexivity. Qed.

Lemma minesIn_markMine (g : list Tile) : forall (r : nat) (t : Tile),
  g !! r = Some t -> isMine t = false ->
  minesIn (<[r := markMine t]> g) = S (minesIn g).
Proof.
  induction g as [|a g IH]; intros [|r] t Hl Hm; simpl in *; try discriminate.
  - injection Hl as ->. rewrite !minesIn_cons. simpl. rewrite Hm. reflexivity.
  - rewrite !minesIn_cons. rewrite (IH r t Hl Hm). lia.
Qed.

Lemma minesIn_markRevealed (g : list Tile) : forall (i : nat) (t : Tile),
  g !! i = Some t -> minesIn (<[i := markRevealed t]> g) = minesIn g.
Proof.
  induction g as [|a g IH]; intros [|i] t Hl; simpl in *; try discriminate.
  - injection Hl as ->. rewrite !minesIn_cons. reflexivity.
  - rewrite !minesIn_cons. rewrite (IH i t Hl). reflexivity.
Qed.

Lemma minesIn_blankGrid : minesIn blankGrid = 0%nat.
Proof. reflexivity. Qed.

Lemma fmap_insert_same {B} (f : Tile -> B) (g : list Tile) (i : nat) (t t' : Tile) :
  g !! i = Some t -> f t' = f t -> f <$> <[i := t']> g = f <$> g.
Proof.
  intros Hl Hf. rewrite list_fmap_insert, Hf.
  apply list_insert_id. rewrite list_lookup_fmap, Hl. reflexivity.
Qed.

Lemma mineAt_insert_ne (g : list Tile) (i p : nat) (t : Tile) :
  i <> p -> mineAt (<[i := t]> g) p = mineAt g p.
Proof. intros Hne. unfold mineAt. rewrite list_lookup_insert_ne; auto. Qed.

Lemma mineAt_insert_eq (g : list Tile) (i : nat) (t : Tile) :
  (i < length g)%nat -> mineAt (<[i := t]> g) i = isMine t.
Proof. intros Hlt. unfold mineAt. rewrite list_lookup_insert_eq; auto. Qed.

(** What the loop of [initializeGame] returns when it returns. *)
Lemma placeMines_Done (draws : list nat) : forall K placed (g g' : list Tile),
  placeMines K placed g draws = Done g' ->
  Z.of_nat (minesIn g) = placed -> placed <= K ->
  Z.of_nat (minesIn g') = K
  /\ tile_id <$> g' = tile_id <$> g
  /\ isRevealed <$> g' = isRevealed <$> g
  /\ (forall p, mineAt g' p = true -> mineAt g p = true \/ p ∈ draws).
Proof.
  induction draws as [|r rest IH]; intros K placed g g' Hrun Hcount Hle; simpl in Hrun.
  - destruct (Z.ltb_spec placed K); [discriminate|].
    injection Hrun as <-. repeat split; auto; lia.
  - destruct (Z.ltb_spec placed K) as [Hlt|Hge].
    + destruct (g !! r) as [t|] eqn:Hl; [|discriminate].
      destruct (isMine t) eqn:Hm.
      * destruct (IH _ _ _ _ Hrun Hcount Hle) as (H1 & H2 & H3 & H4).
        repeat split; auto.
        intros p Hp. destruct (H4 p Hp); [left|right]; auto.
        apply elem_of_cons; auto.
      * apply IH in Hrun as (H1 & H2 & H3 & H4).
        -- split; [exact H1|]. split; [|split].
           ++ rewrite H2. apply (fmap_insert_same tile_id _ _ t); auto.
           ++ rewrite H3. apply (fmap_insert_same isRevealed _ _ t); auto.
           ++ intros p Hp. destruct (H4 p Hp) as [Hin|Hin].
              ** destruct (decide (r = p)) as [->|Hne].
                 --- right. apply elem_of_cons; auto.
                 --- left. rewrite mineAt_insert_ne in Hin; auto.
              ** right. apply elem_of_cons; auto.
        -- rewrite (minesIn_markMine _ _ _ Hl Hm). lia.
        -- lia.
    + injection Hrun as <-. repeat split; auto; lia.
Qed.

Lemma filter_ne_absent (r : nat) (w : list nat) :
  r ∉ w -> filter (fun x => x <> r) w = w.
Proof.
  induction w as [|x w IH]; intros Hr; [reflexivity|].
  apply not_elem_of_cons in Hr as [Hne Hr].
  rewrite filter_cons. destruct (decide (x <> r)) as [_|Heq].
  - rewrite IH; auto.
  - exfalso. apply Heq. congruence.
Qed.

Lemma length_filter_ne (r : nat) (w : list nat) :
  NoDup w -> (length w <= S (length (filter (fun x => x <> r) w)))%nat.
Proof.
  induction 1 as [|x w Hx Hnd IH]; simpl; [lia|].
  rewrite filter_cons. destruct (decide (x <> r)) as [Hne|Heq]; simpl; [lia|].
  assert (x = r) as -> by (destruct (decide (x = r)); [auto|contradiction]).
  rewrite filter_ne_absent; auto.
Qed.

(** The loop returns as soon as the draws hold enough distinct positions
    that are not mines yet. *)
Lemma placeMines_returns (draws : list nat) : forall K placed (g : list Tile) (w : list nat),
  Forall (fun r => (r < length g)%nat) draws ->
  NoDup w -> (forall x, x ∈ w -> x ∈ draws) ->
  (forall x, x ∈ w -> mineAt g x = false) ->
  K - placed <= Z.of_nat (length w) ->
  exists g', placeMines K placed g draws = Done g'.
Proof.
  induction draws as [|r rest IH]; intros K placed g w Hrange Hnd Hsub Hfree Hlen; simpl.
  - destruct w as [|x w].
    + simpl in Hlen. destruct (Z.ltb_spec placed K); [lia|eauto].
    + exfalso. specialize (Hsub x). rewrite elem_of_cons, elem_of_nil in Hsub. tauto.
  - destruct (Z.ltb_spec placed K) as [Hlt|Hge]; [|eauto].
    apply Forall_cons in Hrange as [Hr Hrange].
    destruct (lookup_lt_is_Some_2 g r Hr) as [t Hl]. rewrite Hl.
    destruct (isMine t) eqn:Hm.
    + apply (IH K placed g w); auto.
      intros x Hx. specialize (Hsub x Hx). apply elem_of_cons in Hsub as [->|]; auto.
      specialize (Hfree r Hx). unfold mineAt in Hfree. rewrite Hl in Hfree. congruence.
    + apply (IH K (placed + 1) _ (filter (fun x => x <> r) w)).
      * rewrite length_insert. exact Hrange.
      * apply NoDup_filter; auto.
      * intros x Hx. apply list_elem_of_filter in Hx as [Hne Hx].
        specialize (Hsub x Hx). apply elem_of_cons in Hsub as [->|]; auto. contradiction.
      * intros x Hx. apply list_elem_of_filter in Hx as [Hne Hx].
        rewrite mineAt_insert_ne; auto.
      * pose proof (length_filter_ne r w Hnd). lia.
Qed.

End GameScreenFacts.

Section GameScreenInvariant.
Import GameScreen.

Lemma blankGrid_fresh : freshGrid blankGrid.
Proof. split; reflexivity. Qed.

Lemma enoughDraws_returns K draws :
  enoughDraws K draws -> exists g, placeMines K 0 blankGrid draws = Done g.
Proof.
  intros [Hrange Hlen].
  apply (placeMines_returns draws K 0 blankGrid (remove_dups draws)).
  - exact Hrange.
  - apply NoDup_remove_dups.
  - intros x Hx. apply elem_of_remove_dups. exact Hx.
  - intros x _.
    unfold mineAt, blankGrid. rewrite list_lookup_fmap.
    destruct (seq 0 TOTAL_TILES !! x); reflexivity.
  - lia.
Qed.

(** The grid [initializeGame] builds. *)
Lemma placeMines_blank K draws g :
  0 <= K -> placeMines K 0 blankGrid draws = Done g ->
  freshGrid g /\ Z.of_nat (minesIn g) = K
  /\ (forall p, mineAt g p = true -> p ∈ draws).
Proof.
  intros HK Hrun.
  destruct (placeMines_Done draws K 0 blankGrid g Hrun) as (H1 & H2 & H3 & H4);
    [reflexivity | lia |].
  repeat split; auto.
  intros p Hp. destruct (H4 p Hp) as [Hm|]; auto.
  unfold mineAt, blankGrid in Hm. rewrite list_lookup_fmap in Hm.
  destruct (seq 0 TOTAL_TILES !! p); discriminate.
Qed.

Lemma freshGrid_length g : freshGrid g -> length g = TOTAL_TILES.
Proof.
  intros [Hid _]. apply (f_equal length) in Hid.
  rewrite length_fmap, length_seq in Hid. exact Hid.
Qed.

Lemma advanceIndex_valid ps i :
  (advanceIndex ps i < length ps)%nat \/ advanceIndex ps i = 0%nat.
Proof.
  unfold advanceIndex. destruct (length ps) eqn:E; [right; reflexivity|left].
  apply Nat.mod_upper_bound. lia.
Qed.

Lemma advanceIndex_nonempty ps i :
  ps <> [] -> advanceIndex ps i = ((i + 1) mod length ps)%nat.
Proof.
  intros Hne. unfold advanceIndex. destruct ps; [contradiction|reflexivity].
Qed.

Lemma sync_Inv s s' :
  Inv s -> refOk s s' ->
  0 <= picksLeft s' <= 3 -> 1 <= mineCount s' <= 24 ->
  tile_id <$> grid s' = seq 0 TOTAL_TILES ->
  Z.of_nat (minesIn (grid s')) = mineCount s' ->
  ((currentPlayerIndex s' < length (players s'))%nat \/ currentPlayerIndex s' = 0%nat) ->
  Inv (syncPicksLeftRef s s').
Proof.
  intros HI Href Hp Hc Hids Hm Hidx. unfold syncPicksLeftRef.
  destruct (Z.eqb_spec (picksLeft s) (picksLeft s')) as [Heq|Hne].
  - constructor; auto. destruct Href as [|Href]; auto.
    rewrite Href, (inv_ref s HI). exact Heq.
  - constructor; simpl; auto.
Qed.

Lemma initializeGame_Done draws s s' :
  0 <= mineCount s -> initializeGame draws s = Done s' ->
  exists g, s' = startRound g s /\ freshGrid g
            /\ Z.of_nat (minesIn g) = mineCount s
            /\ (forall p, mineAt g p = true -> p ∈ draws).
Proof.
  intros HK. unfold initializeGame.
  destruct (placeMines (mineCount s) 0 blankGrid draws) as [g| |] eqn:Hrun;
    intros H; try discriminate.
  injection H as <-. exists g. split; [reflexivity|].
  apply placeMines_blank; auto.
Qed.

Lemma initializeGame_returns draws s :
  enoughDraws (mineCount s) draws -> exists s', initializeGame draws s = Done s'.
Proof.
  intros H. destruct (enoughDraws_returns _ _ H) as [g Hg].
  unfold initializeGame. rewrite Hg. eauto.
Qed.

End GameScreenInvariant.

Section GameScreenHandlers.
Import GameScreen.

Ltac phase_cases s :=
  unfold phase; destruct (grid s) as [|?t ?g];
  [ split; [discriminate | intros (Hph & _); contradiction]
  | destruct (isGameOver s), (truthy (slappedPlayer s)), (turnLockedRef s),
      (Z.leb_spec (picksLeftRef s) 0); simpl; split; intros Hph;
    try discriminate Hph ].

Lemma phase_AwaitingPick s :
  phase s = AwaitingPick <->
  grid s <> [] /\ isGameOver s = false /\ truthy (slappedPlayer s) = false
  /\ turnLockedRef s = false /\ 0 < picksLeftRef s.
Proof.
  phase_cases s;
    try (destruct Hph as (_ & ? & ? & ? & ?); (discriminate || lia || reflexivity));
    repeat split; (discriminate || reflexivity || lia).
Qed.

Lemma phase_RoundWon s :
  phase s = RoundWon <->
  grid s <> [] /\ isGameOver s = false /\ truthy (slappedPlayer s) = false
  /\ (turnLockedRef s = true \/ picksLeftRef s <= 0).
Proof.
  phase_cases s;
    try (destruct Hph as (_ & ? & ? & [?|?]); (discriminate || lia || reflexivity));
    repeat split; try (discriminate || reflexivity); auto.
Qed.

Lemma phase_Slapped s :
  phase s = Slapped <->
  grid s <> [] /\ (isGameOver s = true \/ truthy (slappedPlayer s) = true).
Proof.
  phase_cases s;
    try (destruct Hph as (_ & [?|?]); (discriminate || reflexivity));
    split; try discriminate; auto.
Qed.

(** The guard of [handleTilePress] turns the press into a no-op. *)
Lemma handleTilePress_blocked index s :
  isGameOver s = true \/ revealedAt (grid s) index = true
  \/ truthy (slappedPlayer s) = true \/ picksLeftRef s <= 0
  \/ turnLockedRef s = true \/ grid s !! index = None ->
  handleTilePress index s = s.
Proof.
  intros H. unfold handleTilePress.
  destruct (isGameOver s); [reflexivity|].
  destruct (revealedAt (grid s) index); [reflexivity|].
  destruct (truthy (slappedPlayer s)); [reflexivity|].
  destruct (Z.leb_spec (picksLeftRef s) 0); [reflexivity|].
  destruct (turnLockedRef s); [reflexivity|]. simpl.
  destruct H as [H|[H|[H|[H|[H|H]]]]]; try discriminate; try lia.
  rewrite H. reflexivity.
Qed.

Lemma handleTilePress_accepted index s tile :
  phase s = AwaitingPick ->
  grid s !! index = Some tile -> isRevealed tile = false ->
  handleTilePress index s =
    let s1 := setGrid (<[index := markRevealed tile]> (grid s)) s in
    if isMine tile then
      setIsGameOver true
        (setSlappedPlayer (players s !! currentPlayerIndex s)
          (setTurnLockedRef true s1))
    else if picksLeftRef s - 1 =? 0 then
      setPendingTimers (S (pendingTimers s))
        (setTurnLockedRef true
          (setPicksLeft 0 (setPicksLeftRef (picksLeftRef s - 1) s1)))
    else setPicksLeft (picksLeftRef s - 1) (setPicksLeftRef (picksLeftRef s - 1) s1).
Proof.
  intros Hph Hl Hrev. apply phase_AwaitingPick in Hph as (_ & Hgo & Hsl & Hlock & Href).
  unfold handleTilePress, revealedAt. rewrite Hl, Hrev, Hgo, Hsl, Hlock.
  destruct (Z.leb_spec (picksLeftRef s) 0); [lia|]. reflexivity.
Qed.

(** With the ref in step with the state, the [disabled] expression of a
    tile lets through exactly what the handler's own guard lets through. *)
Lemma pressTile_handler index s :
  picksLeftRef s = picksLeft s -> pressTile index s = handleTilePress index s.
Proof.
  intros Href. unfold pressTile.
  destruct (grid s !! index) as [t|] eqn:Hl.
  - unfold tileDisabled.
    destruct (isGameOver s) eqn:Hgo; simpl.
    { symmetry. apply handleTilePress_blocked. auto. }
    destruct (isRevealed t) eqn:Hrev; simpl.
    { symmetry. apply handleTilePress_blocked. right; left.
      unfold revealedAt. rewrite Hl. exact Hrev. }
    destruct (Z.eqb_spec (picksLeft s) 0) as [H0|]; [|reflexivity].
    symmetry. apply handleTilePress_blocked. do 3 right. left. lia.
  - symmetry. apply handleTilePress_blocked. do 5 right. exact Hl.
Qed.

Lemma syncPicksLeftRef_same s : syncPicksLeftRef s s = s.
Proof. unfold syncPicksLeftRef. rewrite Z.eqb_refl. reflexivity. Qed.

Lemma handleTilePress_Inv index s :
  Inv s -> Inv (syncPicksLeftRef s (handleTilePress index s)).
Proof.
  intros HI.
  assert (Hno : forall P, P -> handleTilePress index s = s ->
                Inv (syncPicksLeftRef s (handleTilePress index s))).
  { intros P _ ->. rewrite syncPicksLeftRef_same. exact HI. }
  destruct (phase s) eqn:Hph.
  - apply (Hno True I), handleTilePress_blocked.
    unfold phase in Hph. destruct (grid s) eqn:E; [rewrite lookup_nil; auto 10|].
    destruct (_ || _); [discriminate|]. destruct (_ || _); discriminate.
  - destruct (grid s !! index) as [tile|] eqn:Hl.
    2:{ rewrite handleTilePress_blocked, syncPicksLeftRef_same; auto 10. }
    destruct (isRevealed tile) eqn:Hrev.
    { rewrite handleTilePress_blocked, syncPicksLeftRef_same; auto.
      right; left. unfold revealedAt. rewrite Hl. exact Hrev. }
    rewrite (handleTilePress_accepted index s tile Hph Hl Hrev).
    apply phase_AwaitingPick in Hph as (_ & _ & _ & _ & Hpos).
    pose proof HI as HI0.
    destruct HI as [Hp Href Hc Hids Hm Hidx]. rewrite Href in *.
    assert (Hids' : tile_id <$> <[index := markRevealed tile]> (grid s)
                    = seq 0 TOTAL_TILES)
      by (rewrite <- Hids; apply (fmap_insert_same tile_id _ _ tile); auto).
    assert (Hm' : Z.of_nat (minesIn (<[index := markRevealed tile]> (grid s)))
                  = mineCount s)
      by (rewrite minesIn_markRevealed; auto).
    cbv zeta. destruct (isMine tile).
    + apply sync_Inv; unfold refOk; simpl; auto.
    + destruct (Z.eqb_spec (picksLeft s - 1) 0).
      * apply sync_Inv; unfold refOk; simpl; auto; lia.
      * apply sync_Inv; unfold refOk; simpl; auto; lia.
  - apply (Hno True I), handleTilePress_blocked.
    apply phase_RoundWon in Hph as (_ & _ & _ & [H|H]); auto 10.
  - apply (Hno True I), handleTilePress_blocked.
    apply phase_Slapped in Hph as (_ & [H|H]); auto 10.
Qed.

End GameScreenHandlers.

Section GameScreenReachable.
Import GameScreen.

Lemma freshGrid_ids g : freshGrid g -> tile_id <$> g = seq 0 TOTAL_TILES.
Proof. intros [H _]. exact H. Qed.

Lemma nextTurn_Inv s s0 :
  Inv s -> picksLeftRef s0 = picksLeftRef s ->
  mineCount s0 = mineCount s -> grid s0 = grid s -> players s0 = players s ->
  Inv (syncPicksLeftRef s (nextTurn s0)).
Proof.
  intros HI Href Hc Hg Hp.
  apply sync_Inv; unfold refOk; simpl; auto; try lia.
  - rewrite Hc. apply HI.
  - rewrite Hg. apply HI.
  - rewrite Hg, Hc. apply HI.
  - apply advanceIndex_valid.
Qed.

Lemma startRound_Inv s s0 g i :
  Inv s -> picksLeftRef s0 = picksLeftRef s -> 1 <= mineCount s0 <= 24 ->
  freshGrid g -> Z.of_nat (minesIn g) = mineCount s0 ->
  ((i < length (players s0))%nat \/ i = 0%nat) ->
  Inv (syncPicksLeftRef s (setCurrentPlayerIndex i (startRound g s0))).
Proof.
  intros HI Href Hc Hg Hm Hi.
  apply sync_Inv; unfold refOk; simpl; auto; try lia.
  apply freshGrid_ids. exact Hg.
Qed.

Lemma setCurrentPlayerIndex_same s : setCurrentPlayerIndex (currentPlayerIndex s) s = s.
Proof. destruct s; reflexivity. Qed.

Lemma step_Inv e s s' :
  Inv s -> step e s = Done s' -> Inv s' /\ players s' = players s.
Proof.
  intros HI. unfold step.
  destruct (handle e s) as [s1| |] eqn:Hh; intros Hs; try discriminate.
  injection Hs as <-.
  assert (Hpl : forall a b, players (syncPicksLeftRef a b) = players b)
    by (intros a b; unfold syncPicksLeftRef; destruct (_ =? _); reflexivity).
  rewrite Hpl.
  destruct e as [index| | |draws|draws|draws|draws]; simpl in Hh.
  - injection Hh as <-. rewrite pressTile_handler by apply (inv_ref s HI).
    split; [apply handleTilePress_Inv; exact HI|].
    unfold handleTilePress.
    repeat match goal with
           | |- context [if ?b then _ else _] => destruct b
           | |- context [match ?o with Some _ => _ | None => _ end] => destruct o
           end; reflexivity.
  - injection Hh as <-. unfold timerFires.
    destruct (pendingTimers s) as [|n].
    + rewrite syncPicksLeftRef_same. auto.
    + split; [apply nextTurn_Inv; auto | reflexivity].
  - injection Hh as <-. unfold pressEndTurn, handleEndTurn.
    destruct (endTurnDisabled s); [rewrite syncPicksLeftRef_same; auto|].
    destruct (picksLeft s =? 3); [rewrite syncPicksLeftRef_same; auto|].
    split; [apply nextTurn_Inv; auto | reflexivity].
  - unfold pressNextRound in Hh. destruct (truthy (slappedPlayer s)).
    2:{ injection Hh as <-. rewrite syncPicksLeftRef_same. auto. }
    unfold handleSlapDismiss in Hh.
    destruct (initializeGame draws (setSlappedPlayer None s)) as [s0| |] eqn:Hinit;
      try discriminate.
    injection Hh as <-.
    apply initializeGame_Done in Hinit as (g & -> & Hg & Hm & _);
      [|simpl; destruct HI; lia].
    split; [|reflexivity].
    apply startRound_Inv; simpl; auto; try apply HI. apply advanceIndex_valid.
  - apply initializeGame_Done in Hh as (g & -> & Hg & Hm & _);
      [|destruct HI; lia].
    split; [|reflexivity].
    rewrite <- (setCurrentPlayerIndex_same (startRound g s)).
    apply startRound_Inv; simpl; auto; apply HI.
  - unfold pressMinus, changeMineCount in Hh.
    destruct (Z.eqb_spec (Z.max 1 (mineCount s - 1)) (mineCount s)).
    { injection Hh as <-. rewrite syncPicksLeftRef_same. auto. }
    apply initializeGame_Done in Hh as (g & -> & Hg & Hm & _);
      [|simpl; lia].
    split; [|reflexivity]. simpl in Hm.
    rewrite <- (setCurrentPlayerIndex_same (startRound g _)).
    apply startRound_Inv; simpl; auto; try apply HI.
    pose proof (inv_count s HI). lia.
  - unfold pressPlus, changeMineCount in Hh.
    destruct (Z.eqb_spec (Z.min 24 (mineCount s + 1)) (mineCount s)).
    { injection Hh as <-. rewrite syncPicksLeftRef_same. auto. }
    pose proof (inv_count s HI).
    apply initializeGame_Done in Hh as (g & -> & Hg & Hm & _);
      [|simpl; lia].
    split; [|reflexivity]. simpl in Hm.
    rewrite <- (setCurrentPlayerIndex_same (startRound g _)).
    apply startRound_Inv; simpl; auto; try apply HI.
    lia.
Qed.

Lemma mount_Inv ps draws s : mount ps draws = Done s -> Inv s /\ players s = ps.
Proof.
  unfold mount.
  destruct (initializeGame draws (initialState ps)) as [s0| |] eqn:Hinit;
    intros H; try discriminate.
  injection H as <-.
  apply initializeGame_Done in Hinit as (g & -> & Hg & Hm & _); [|simpl; lia].
  split; [|reflexivity].
  constructor; simpl; auto; try lia. apply freshGrid_ids. exact Hg.
Qed.

Lemma reachable_Inv ps s : reachable ps s -> Inv s /\ players s = ps.
Proof.
  induction 1 as [draws s Hm | e s s' Hr [IH1 IH2] Hs].
  - apply (mount_Inv ps draws). exact Hm.
  - destruct (step_Inv e s s' IH1 Hs) as [H1 H2]. split; congruence.
Qed.

End GameScreenReachable.

(* ================================================================== *)
(** * Properties of App.tsx *)
(* ================================================================== *)
Section AppFacts.
Import App.

Lemma currentPlayer_Some s cp :
  currentPlayer s = Some cp ->
  players s !! currentPlayerIndex s = Some cp
  /\ (currentPlayerIndex s < length (players s))%nat.
Proof.
  unfold currentPlayer. destruct (players s) eqn:E; [discriminate|].
  intros H. split; [exact H|]. apply lookup_lt_Some in H. exact H.
Qed.

Lemma currentPlayer_empty s : players s = [] -> currentPlayer s = None.
Proof. unfold currentPlayer. intros ->. reflexivity. Qed.

(** The two guards of [handlePick]. *)
Lemma handlePick_blocked nextMine tileId s :
  currentPlayer s = None \/ picksLeft s = 0
  \/ List.find (fun t => (tile_id t =? tileId)%nat) (grid s) = None
  \/ (exists t, List.find (fun t => (tile_id t =? tileId)%nat) (grid s) = Some t
                /\ revealed t = true) ->
  handlePick nextMine tileId s = s.
Proof.
  intros H. unfold handlePick.
  destruct (currentPlayer s) as [cp|]; [|reflexivity].
  destruct (Z.eqb_spec (picksLeft s) 0); [reflexivity|].
  destruct (List.find _ (grid s)) as [t|]; [|reflexivity].
  destruct (revealed t) eqn:Hrev; [reflexivity|].
  destruct H as [H|[H|[H|(t' & H & Hr)]]]; try discriminate; try contradiction.
  injection H as <-. congruence.
Qed.

Lemma handlePick_mine nextMine tileId s cp t :
  currentPlayer s = Some cp -> picksLeft s <> 0 ->
  List.find (fun t => (tile_id t =? tileId)%nat) (grid s) = Some t ->
  revealed t = false -> isMine t = true ->
  handlePick nextMine tileId s =
    mkState (slapAt (currentPlayerIndex s) (players s)) (playerName s)
            ((currentPlayerIndex s + 1) mod length (players s))%nat
            nextMine (createGrid nextMine) MAX_PICKS
            (name cp +:+ " hit the mine! Slap!").
Proof.
  intros Hcp Hp Hf Hr Hm. unfold handlePick. rewrite Hcp, Hf, Hr, Hm.
  destruct (Z.eqb_spec (picksLeft s) 0); [contradiction|].
  apply currentPlayer_Some in Hcp as [_ Hlt].
  unfold advanceTurn. destruct (length (players s)) eqn:E; [lia|].
  reflexivity.
Qed.

Lemma handlePick_safe nextMine tileId s cp t :
  currentPlayer s = Some cp -> picksLeft s <> 0 ->
  List.find (fun t => (tile_id t =? tileId)%nat) (grid s) = Some t ->
  revealed t = false -> isMine t = false ->
  handlePick nextMine tileId s =
    if picksLeft s =? 1 then
      mkState (players s) (playerName s)
              ((currentPlayerIndex s + 1) mod length (players s))%nat
              nextMine (createGrid nextMine) MAX_PICKS
              (name cp +:+ " is safe. Next player.")
    else
      mkState (players s) (playerName s) (currentPlayerIndex s) (mineIndex s)
              (revealTile tileId (grid s)) (picksLeft s - 1) (roundMessage s).
Proof.
  intros Hcp Hp Hf Hr Hm. unfold handlePick. rewrite Hcp, Hf, Hr, Hm.
  destruct (Z.eqb_spec (picksLeft s) 0); [contradiction|].
  apply currentPlayer_Some in Hcp as [_ Hlt].
  destruct (Z.eqb_spec (picksLeft s) 1) as [H1|H1];
    destruct (Z.eqb_spec (picksLeft s - 1) 0); try lia; [|reflexivity].
  unfold advanceTurn. destruct (length (players s)) eqn:E; [lia|].
  reflexivity.
Qed.

(** [slapAt] adds one slap at the given index and nothing else. *)
Lemma slapAt_lookup index ps i :
  slapAt index ps !! i =
    (fun p => mkPlayer (player_id p) (name p)
                       (slaps p + (if (i =? index)%nat then 1 else 0)))
    <$> ps !! i.
Proof.
  unfold slapAt. rewrite list_lookup_imap.
  destruct (ps !! i) as [p|]; [|reflexivity]. simpl.
  destruct (i =? index)%nat; [reflexivity|].
  destruct p; simpl. rewrite Z.add_0_r. reflexivity.
Qed.

Lemma slapAt_length index ps : length (slapAt index ps) = length ps.
Proof. apply length_imap. Qed.

Lemma find_pointwise {A} (f h : A -> bool) (l : list A) :
  (forall x, f x = h x) -> List.find f l = List.find h l.
Proof.
  intros E. induction l as [|x l IH]; simpl; [reflexivity|].
  rewrite E, IH. reflexivity.
Qed.

(** On a grid whose tiles carry their positions as ids, the tile found by
    id is the tile at that position, and revealing by id changes that
    position alone. *)
Lemma find_by_id (g : list Tile) : forall a k,
  tile_id <$> g = seq a (length g) ->
  List.find (fun t => (tile_id t =? a + k)%nat) g = g !! k.
Proof.
  induction g as [|t g IH]; intros a k Hid; [reflexivity|].
  simpl in Hid. injection Hid as Ht Hid. simpl.
  destruct k as [|k].
  - rewrite Nat.add_0_r, Ht, Nat.eqb_refl. reflexivity.
  - destruct (Nat.eqb_spec (tile_id t) (a + S k)); [lia|].
    change ((t :: g) !! S k) with (g !! k).
    rewrite <- (IH (S a) k Hid). apply find_pointwise. intros x.
    replace (S a + k)%nat with (a + S k)%nat by lia. reflexivity.
Qed.

Lemma revealTile_lookup (g : list Tile) (tileId : nat) : forall a j,
  tile_id <$> g = seq a (length g) ->
  revealTile tileId g !! j =
    (fun t => if (a + j =? tileId)%nat then markRevealed t else t) <$> g !! j.
Proof.
  intros a j Hid. unfold revealTile. rewrite list_lookup_fmap.
  destruct (g !! j) as [t|] eqn:Hl; [|reflexivity]. simpl.
  assert (tile_id t = (a + j)%nat) as ->; [|reflexivity].
  apply (f_equal (fun l => l !! j)) in Hid.
  rewrite list_lookup_fmap, Hl in Hid. simpl in Hid.
  apply lookup_lt_Some in Hl.
  rewrite lookup_seq_lt in Hid by exact Hl. congruence.
Qed.

Lemma createGrid_ids m : tile_id <$> createGrid m = seq 0 (GRID_SIZE * GRID_SIZE).
Proof. reflexivity. Qed.

Lemma createGrid_lookup m p :
  (p < GRID_SIZE * GRID_SIZE)%nat ->
  createGrid m !! p = Some (mkTile p false (p =? m)%nat).
Proof.
  intros Hp. unfold createGrid. rewrite list_lookup_fmap, lookup_seq_lt by exact Hp.
  reflexivity.
Qed.

Lemma minesIn_fmap_seq (m n : nat) : forall a,
  minesIn ((fun i => mkTile i false (i =? m)%nat) <$> seq a n)
  = if ((a <=? m) && (m <? a + n))%nat then 1%nat else 0%nat.
Proof.
  induction n as [|n IH]; intros a.
  - destruct (Nat.leb_spec a m), (Nat.ltb_spec m (a + 0)); simpl; auto; lia.
  - change (seq a (S n)) with (a :: seq (S a) n). rewrite fmap_cons.
    unfold minesIn in *. cbn [List.filter isMine].
    specialize (IH (S a)).
    destruct (Nat.eqb_spec a m) as [->|Hne]; cbn [length]; rewrite IH.
    + destruct (Nat.leb_spec (S m) m), (Nat.leb_spec m m),
        (Nat.ltb_spec m (m + S n)); simpl; auto; lia.
    + destruct (Nat.leb_spec (S a) m), (Nat.leb_spec a m),
        (Nat.ltb_spec m (S a + n)), (Nat.ltb_spec m (a + S n)); simpl; auto; lia.
Qed.

(** [createGrid] places exactly one mine, at [mineIndex]. *)
Lemma createGrid_one_mine m :
  (m < GRID_SIZE * GRID_SIZE)%nat -> minesIn (createGrid m) = 1%nat.
Proof.
  intros Hm. unfold createGrid. rewrite minesIn_fmap_seq.
  destruct (Nat.leb_spec 0 m), (Nat.ltb_spec m (0 + GRID_SIZE * GRID_SIZE));
    simpl; auto; lia.
Qed.

End AppFacts.

Section AppReachable.
Import App.

Lemma revealTile_ids tileId (g : list Tile) :
  tile_id <$> revealTile tileId g = tile_id <$> g.
Proof.
  unfold revealTile. rewrite <- list_fmap_compose. apply list_fmap_ext.
  intros i t _. simpl. destruct (_ =? _)%nat; reflexivity.
Qed.

Lemma revealTile_mines tileId (g : list Tile) :
  isMine <$> revealTile tileId g = isMine <$> g.
Proof.
  unfold revealTile. rewrite <- list_fmap_compose. apply list_fmap_ext.
  intros i t _. simpl. destruct (_ =? _)%nat; reflexivity.
Qed.

Lemma minesIn_fmap (g : list Tile) :
  minesIn g = length (List.filter (fun b : bool => b) (isMine <$> g)).
Proof.
  unfold minesIn. induction g as [|t g IH]; [reflexivity|].
  rewrite fmap_cons. simpl. destruct (isMine t); simpl; rewrite IH; reflexivity.
Qed.

Lemma revealTile_minesIn tileId (g : list Tile) :
  minesIn (revealTile tileId g) = minesIn g.
Proof. rewrite !minesIn_fmap, revealTile_mines. reflexivity. Qed.

Lemma handlePick_cases nextMine tileId s :
  handlePick nextMine tileId s = s
  \/ (exists message ps,
        handlePick nextMine tileId s =
          resetRound nextMine
            ((currentPlayerIndex s + 1) mod length (players s))%nat (Some message)
            (setPlayers ps s)
        /\ players s <> [] /\ length ps = length (players s))
  \/ (handlePick nextMine tileId s =
        setPicksLeft (picksLeft s - 1) (setGrid (revealTile tileId (grid s)) s)
      /\ picksLeft s <> 0 /\ picksLeft s <> 1).
Proof.
  destruct (currentPlayer s) as [cp|] eqn:Hcp.
  2:{ left. apply handlePick_blocked. auto. }
  destruct (Z.eq_dec (picksLeft s) 0) as [H0|H0].
  { left. apply handlePick_blocked. auto. }
  destruct (List.find (fun t => (tile_id t =? tileId)%nat) (grid s)) as [t|] eqn:Hf.
  2:{ left. apply handlePick_blocked. auto. }
  destruct (revealed t) eqn:Hr.
  { left. apply handlePick_blocked. do 3 right. eauto. }
  pose proof (currentPlayer_Some s cp Hcp) as [_ Hlt].
  assert (Hne : players s <> []) by (intros E; rewrite E in Hlt; simpl in Hlt; lia).
  destruct (isMine t) eqn:Hm.
  - right; left. rewrite (handlePick_mine _ _ _ _ _ Hcp H0 Hf Hr Hm).
    eexists. exists (slapAt (currentPlayerIndex s) (players s)).
    split; [reflexivity|]. split; [exact Hne|]. apply slapAt_length.
  - rewrite (handlePick_safe _ _ _ _ _ Hcp H0 Hf Hr Hm).
    destruct (Z.eqb_spec (picksLeft s) 1) as [H1|H1].
    + right; left. eexists. exists (players s).
      split; [|split; [exact Hne|reflexivity]]. destruct s; reflexivity.
    + right; right. split; [reflexivity|]. auto.
Qed.

Lemma App_step_Inv trim e s :
  Inv s -> drawsInRange e -> Inv (step trim e s).
Proof.
  intros HI Hd. destruct e as [text|now|nextMine tileId]; simpl.
  - destruct HI. constructor; auto.
  - unfold addPlayer. destruct (String.eqb _ _); [exact HI|].
    destruct HI as [? ? ? Hidx].
    destruct (players s) eqn:E; constructor; simpl; auto.
    rewrite length_app. simpl in *. lia.
  - simpl in Hd.
    destruct (handlePick_cases nextMine tileId s) as [->|[(m & ps & -> & Hne & Hlen)|(-> & H0 & H1)]];
      [exact HI| |].
    + constructor; simpl; auto.
      * unfold MAX_PICKS. lia.
      * apply createGrid_one_mine. exact Hd.
      * left. rewrite Hlen. apply Nat.mod_upper_bound.
        destruct (players s); [contradiction|simpl; lia].
    + destruct HI as [? ? ? ?]. constructor; simpl; auto.
      * unfold MAX_PICKS in *. lia.
      * rewrite revealTile_ids. auto.
      * rewrite revealTile_minesIn. auto.
Qed.

Lemma App_reachable_Inv trim s : reachable trim s -> Inv s.
Proof.
  induction 1 as [mine0 Hm | e s Hr IH Hd].
  - constructor; simpl; auto.
    + unfold MAX_PICKS. lia.
    + apply createGrid_one_mine. exact Hm.
  - apply App_step_Inv; auto.
Qed.

End AppReachable.

(* ================================================================== *)
(** * Properties of the roster-entry screen *)
(* ================================================================== *)
Section SetupFacts.
Import SetupScreen.

Variable trim : string -> string.
Variable JSON_stringify : list string -> string.

Lemma includes_spec (l : list string) (x : string) :
  includes l x = true <-> x ∈ l.
Proof.
  unfold includes. rewrite existsb_exists. split.
  - intros (y & Hy & He). apply String.eqb_eq in He. subst y.
    apply list_elem_of_In. exact Hy.
  - intros Hx. exists x. split; [apply list_elem_of_In; exact Hx|].
    apply String.eqb_refl.
Qed.

Lemma step_rosterOk e s :
  rosterOk (players s) -> rosterOk (players (fst (step trim JSON_stringify e s))).
Proof.
  intros [Hnd Hne]. destruct e as [text| |index|]; simpl.
  - split; auto.
  - unfold addPlayer.
    destruct (String.eqb_spec (trim (playerName s)) "") as [|Hnonempty];
      [split; auto|].
    destruct (includes (players s) (trim (playerName s))) eqn:Hinc;
      [split; auto|]. simpl.
    assert (Hnot : trim (playerName s) ∉ players s).
    { intros Hin. apply includes_spec in Hin. congruence. }
    split.
    + apply NoDup_app. repeat split; auto.
      * intros x Hx Hx'. apply list_elem_of_singleton in Hx'. subst x. contradiction.
      * apply NoDup_singleton.
    + intros Hin. apply elem_of_app in Hin as [Hin|Hin]; [contradiction|].
      apply list_elem_of_singleton in Hin. congruence.
  - pose proof (sublist_delete (players s) index) as Hsub. split.
    + eapply sublist_NoDup; eauto.
    + intros Hin. apply Hne. eapply list_elem_of_delete_inv; eauto.
  - unfold startGame. destruct (_ <? _)%nat; split; auto.
Qed.

Lemma reachable_rosterOk s :
  reachable trim JSON_stringify s -> rosterOk (players s).
Proof.
  induction 1 as [|e s Hr IH].
  - split; [apply NoDup_nil_2 | apply not_elem_of_nil].
  - apply step_rosterOk. exact IH.
Qed.

End SetupFacts.

(* ================================================================== *)
(** * Mine placement *)
(* ================================================================== *)

Lemma handleTilePress_grid index s :
  GameScreen.mineCount (GameScreen.handleTilePress index s) = GameScreen.mineCount s
  /\ (GameScreen.grid (GameScreen.handleTilePress index s) = GameScreen.grid s
      \/ exists tile, GameScreen.grid s !! index = Some tile
           /\ GameScreen.grid (GameScreen.handleTilePress index s)
              = <[index := GameScreen.markRevealed tile]> (GameScreen.grid s)).
Proof.
  unfold GameScreen.handleTilePress.
  destruct (_ || _); [auto|].
  destruct (GameScreen.grid s !! index) as [tile|] eqn:Hl; [|auto].
  destruct (GameScreen.isMine tile); [simpl; eauto|].
  destruct (_ =? _); simpl; eauto.
Qed.

Lemma step_keeps_mines e s s' :
  GameScreen.startsRound e = false -> GameScreen.step e s = Done s' ->
  GameScreen.isMine <$> GameScreen.grid s' = GameScreen.isMine <$> GameScreen.grid s
  /\ GameScreen.mineCount s' = GameScreen.mineCount s.
Proof.
  intros He. unfold GameScreen.step.
  assert (Hsync : forall a b,
    GameScreen.grid (GameScreen.syncPicksLeftRef a b) = GameScreen.grid b
    /\ GameScreen.mineCount (GameScreen.syncPicksLeftRef a b) = GameScreen.mineCount b)
    by (intros a b; unfold GameScreen.syncPicksLeftRef; destruct (_ =? _); auto).
  destruct e as [index| | |d|d|d|d]; try discriminate He; simpl;
    intros H; injection H as <-.
  - destruct (Hsync s (GameScreen.pressTile index s)) as [-> ->].
    unfold GameScreen.pressTile.
    destruct (GameScreen.grid s !! index) as [t|]; [|auto].
    destruct (GameScreen.tileDisabled s t); [auto|].
    destruct (handleTilePress_grid index s) as [Hc [Hg|(tile & Hl & Hg)]];
      rewrite Hg; split; auto.
    apply (fmap_insert_same GameScreen.isMine _ _ tile); auto.
  - destruct (Hsync s (GameScreen.timerFires s)) as [-> ->].
    unfold GameScreen.timerFires. destruct (GameScreen.pendingTimers s); auto.
  - destruct (Hsync s (GameScreen.pressEndTurn s)) as [-> ->].
    unfold GameScreen.pressEndTurn, GameScreen.handleEndTurn.
    destruct (GameScreen.endTurnDisabled s); [auto|].
    destruct (_ =? _); auto.
Qed.

(** C4.  For every mine count [K] from 1 to 24 and every sequence of
    random draws that holds at least [K] different tile indices,
    [initializeGame]'s loop returns a grid of 25 hidden tiles, numbered by
    position, of which exactly [K] are mines, each at a drawn position.
    In every state of the game screen the grid has 25 tiles and exactly
    [mineCount] mines, and no event other than a re-initialisation changes
    which tiles are mines or the count.  In App.tsx the count is fixed at
    one: [createGrid] marks the tile at [mineIndex] and no other, and
    [handlePick] either keeps the mines or starts a round on a new
    [createGrid] grid. *)
Theorem C4_mine_placement (K : Z) (draws : list nat) (ps : list string)
    (s : GameScreen.State) (m : nat) :
  1 <= K <= 24 ->
  GameScreen.enoughDraws K draws ->
  GameScreen.reachable ps s ->
  (m < App.GRID_SIZE * App.GRID_SIZE)%nat ->
  (exists g,
      GameScreen.placeMines K 0 GameScreen.blankGrid draws = Done g
      /\ length g = 25%nat
      /\ GameScreen.freshGrid g
      /\ Z.of_nat (GameScreen.minesIn g) = K
      /\ (forall p, GameScreen.mineAt g p = true -> p ∈ draws))
  /\ (length (GameScreen.grid s) = 25%nat
      /\ Z.of_nat (GameScreen.minesIn (GameScreen.grid s)) = GameScreen.mineCount s
      /\ 1 <= GameScreen.mineCount s <= 24
      /\ forall e s',
           GameScreen.startsRound e = false -> GameScreen.step e s = Done s' ->
           GameScreen.isMine <$> GameScreen.grid s'
             = GameScreen.isMine <$> GameScreen.grid s
           /\ GameScreen.mineCount s' = GameScreen.mineCount s)
  /\ (length (App.createGrid m) = 25%nat
      /\ App.minesIn (App.createGrid m) = 1%nat
      /\ (forall p, (p < 25)%nat ->
            App.createGrid m !! p = Some (App.mkTile p false (p =? m)%nat))
      /\ forall a nextMine tileId,
           App.isMine <$> App.grid (App.handlePick nextMine tileId a)
             = App.isMine <$> App.grid a
           \/ App.grid (App.handlePick nextMine tileId a) = App.createGrid nextMine).
Proof.
  intros HK Hdraws Hreach Hm. split; [|split].
  - destruct (enoughDraws_returns K draws Hdraws) as [g Hg].
    exists g. split; [exact Hg|].
    destruct (placeMines_blank K draws g) as (Hf & Hc & Hp); [lia|exact Hg|].
    split; [apply freshGrid_length; exact Hf|]. auto.
  - destruct (reachable_Inv ps s Hreach) as [HI _].
    repeat split; try apply HI.
    + pose proof (GameScreen.inv_ids s HI) as Hid.
      apply (f_equal length) in Hid. rewrite length_fmap, length_seq in Hid.
      exact Hid.
    + apply (step_keeps_mines e s s'); assumption.
    + apply (step_keeps_mines e s s'); assumption.
  - repeat split.
    + apply createGrid_one_mine. exact Hm.
    + intros p Hp. apply createGrid_lookup. exact Hp.
    + intros a nextMine tileId.
      destruct (handlePick_cases nextMine tileId a)
        as [->|[(msg & ps' & -> & _ & _)|(-> & _ & _)]]; simpl; auto.
      left. apply revealTile_mines.
Qed.

Lemma C4_mine_placement_witness :
  exists g, GameScreen.placeMines 2 0 GameScreen.blankGrid [3; 3; 9]%nat = Done g
            /\ Z.of_nat (GameScreen.minesIn g) = 2.
Proof.
  destruct (C4_mine_placement 2 [3; 3; 9]%nat ["A"; "B"]
              (GameScreen.afterMount ["A"; "B"] [7%nat]) 4%nat)
    as ((g & Hg & _ & _ & Hc & _) & _).
  - lia.
  - split; [repeat constructor; unfold GameScreen.TOTAL_TILES; simpl; lia|].
    vm_compute. discriminate.
  - apply (GameScreen.reach_mount _ [7%nat]). reflexivity.
  - simpl. lia.
  - exists g. split; assumption.
Defined.

(* ================================================================== *)
(** * Re-initialisation, end of turn and end of round on the game screen *)
(* ================================================================== *)

Lemma sync_fields a b :
  GameScreen.players (GameScreen.syncPicksLeftRef a b) = GameScreen.players b
  /\ GameScreen.grid (GameScreen.syncPicksLeftRef a b) = GameScreen.grid b
  /\ GameScreen.currentPlayerIndex (GameScreen.syncPicksLeftRef a b)
     = GameScreen.currentPlayerIndex b
  /\ GameScreen.picksLeft (GameScreen.syncPicksLeftRef a b) = GameScreen.picksLeft b
  /\ GameScreen.slappedPlayer (GameScreen.syncPicksLeftRef a b)
     = GameScreen.slappedPlayer b
  /\ GameScreen.isGameOver (GameScreen.syncPicksLeftRef a b) = GameScreen.isGameOver b
  /\ GameScreen.mineCount (GameScreen.syncPicksLeftRef a b) = GameScreen.mineCount b
  /\ GameScreen.turnLockedRef (GameScreen.syncPicksLeftRef a b)
     = GameScreen.turnLockedRef b
  /\ GameScreen.pendingTimers (GameScreen.syncPicksLeftRef a b)
     = GameScreen.pendingTimers b.
Proof.
  unfold GameScreen.syncPicksLeftRef. destruct (_ =? _); repeat split.
Qed.

Ltac sync_simpl :=
  repeat match goal with
  | |- context [GameScreen.players (GameScreen.syncPicksLeftRef ?a ?b)] =>
      rewrite (proj1 (sync_fields a b))
  | |- context [GameScreen.grid (GameScreen.syncPicksLeftRef ?a ?b)] =>
      rewrite (proj1 (proj2 (sync_fields a b)))
  | |- context [GameScreen.currentPlayerIndex (GameScreen.syncPicksLeftRef ?a ?b)] =>
      rewrite (proj1 (proj2 (proj2 (sync_fields a b))))
  | |- context [GameScreen.picksLeft (GameScreen.syncPicksLeftRef ?a ?b)] =>
      rewrite (proj1 (proj2 (proj2 (proj2 (sync_fields a b)))))
  | |- context [GameScreen.slappedPlayer (GameScreen.syncPicksLeftRef ?a ?b)] =>
      rewrite (proj1 (proj2 (proj2 (proj2 (proj2 (sync_fields a b))))))
  | |- context [GameScreen.isGameOver (GameScreen.syncPicksLeftRef ?a ?b)] =>
      rewrite (proj1 (proj2 (proj2 (proj2 (proj2 (proj2 (sync_fields a b)))))))
  | |- context [GameScreen.mineCount (GameScreen.syncPicksLeftRef ?a ?b)] =>
      rewrite (proj1 (proj2 (proj2 (proj2 (proj2 (proj2 (proj2 (sync_fields a b))))))))
  | |- context [GameScreen.turnLockedRef (GameScreen.syncPicksLeftRef ?a ?b)] =>
      rewrite (proj1 (proj2 (proj2 (proj2 (proj2 (proj2 (proj2 (proj2
                (sync_fields a b)))))))))
  | |- context [GameScreen.pendingTimers (GameScreen.syncPicksLeftRef ?a ?b)] =>
      rewrite (proj2 (proj2 (proj2 (proj2 (proj2 (proj2 (proj2 (proj2
                (sync_fields a b)))))))))
  end.

(** A state in which the grid is laid out and nothing blocks a pick. *)
Lemma phase_AwaitingPick_intro s :
  GameScreen.Inv s -> GameScreen.isGameOver s = false ->
  GameScreen.slappedPlayer s = None \/ truthy (GameScreen.slappedPlayer s) = false ->
  GameScreen.turnLockedRef s = false -> 0 < GameScreen.picksLeft s ->
  GameScreen.phase s = AwaitingPick.
Proof.
  intros HI Hgo Hsl Hlock Hpos. apply phase_AwaitingPick.
  repeat split; auto.
  - intros E. pose proof (GameScreen.inv_ids s HI) as Hid. rewrite E in Hid.
    discriminate Hid.
  - destruct Hsl as [->|]; auto.
  - rewrite (GameScreen.inv_ref s HI). exact Hpos.
Qed.

(** [initializeGame] run by a handler, followed by the render's effect. *)
Lemma initializeGame_step (s s0 : GameScreen.State) draws i :
  GameScreen.Inv s ->
  GameScreen.picksLeftRef s0 = GameScreen.picksLeftRef s ->
  1 <= GameScreen.mineCount s0 <= 24 ->
  (i < length (GameScreen.players s0))%nat \/ i = 0%nat ->
  GameScreen.enoughDraws (GameScreen.mineCount s0) draws ->
  exists g,
    GameScreen.initializeGame draws s0 = Done (GameScreen.startRound g s0)
    /\ GameScreen.freshGrid g
    /\ Z.of_nat (GameScreen.minesIn g) = GameScreen.mineCount s0
    /\ (forall p, GameScreen.mineAt g p = true -> p ∈ draws)
    /\ GameScreen.Inv (GameScreen.syncPicksLeftRef s
         (GameScreen.setCurrentPlayerIndex i (GameScreen.startRound g s0))).
Proof.
  intros HI Href Hc Hi Hd.
  destruct (initializeGame_returns draws s0 Hd) as [s1 Hs1].
  destruct (initializeGame_Done draws s0 s1) as (g & -> & Hf & Hm & Hp);
    [lia|exact Hs1|].
  exists g. split; [exact Hs1|]. split; [exact Hf|]. split; [exact Hm|].
  split; [exact Hp|]. apply startRound_Inv; auto.
Qed.

(** C10.  The two controls keep the hidden-mine count between 1 and 24.
    A press that changes the count re-initialises the round in place:
    given draws that hold enough different tile indices, the grid is a
    new one of 25 hidden tiles with exactly the new count of mines,
    [picksLeft] is 3, the game-over flag and the slapped player are
    cleared and the turn is unlocked, while the current-player index, the
    roster and the scheduled timers stay as they were.  A press that
    leaves the count as it is (minus at 1, plus at 24) changes nothing. *)
Theorem C10_mine_count_change (ps : list string) (s : GameScreen.State)
    (up : bool) (draws : list nat) :
  GameScreen.reachable ps s ->
  let e := if up then GameScreen.Plus draws else GameScreen.Minus draws in
  let next := if up then Z.min 24 (GameScreen.mineCount s + 1)
              else Z.max 1 (GameScreen.mineCount s - 1) in
  1 <= GameScreen.mineCount s <= 24
  /\ 1 <= next <= 24
  /\ (next = GameScreen.mineCount s -> GameScreen.step e s = Done s)
  /\ (next <> GameScreen.mineCount s -> GameScreen.enoughDraws next draws ->
      exists s',
        GameScreen.step e s = Done s'
        /\ GameScreen.mineCount s' = next
        /\ GameScreen.freshGrid (GameScreen.grid s')
        /\ Z.of_nat (GameScreen.minesIn (GameScreen.grid s')) = next
        /\ (forall p, GameScreen.mineAt (GameScreen.grid s') p = true -> p ∈ draws)
        /\ GameScreen.picksLeft s' = 3
        /\ GameScreen.picksLeftRef s' = 3
        /\ GameScreen.isGameOver s' = false
        /\ GameScreen.slappedPlayer s' = None
        /\ GameScreen.turnLockedRef s' = false
        /\ GameScreen.currentPlayerIndex s' = GameScreen.currentPlayerIndex s
        /\ GameScreen.players s' = GameScreen.players s
        /\ GameScreen.pendingTimers s' = GameScreen.pendingTimers s).
Proof.
  intros Hreach e next.
  destruct (reachable_Inv ps s Hreach) as [HI _].
  pose proof (GameScreen.inv_count s HI) as Hc.
  assert (Hnext : 1 <= next <= 24) by (subst next; destruct up; lia).
  assert (Hstep : GameScreen.step e s =
            match GameScreen.changeMineCount
                    (fun prev => if up then Z.min 24 (prev + 1) else Z.max 1 (prev - 1))
                    draws s with
            | Done s' => Done (GameScreen.syncPicksLeftRef s s')
            | NeedsMoreDraws => NeedsMoreDraws
            | TypeError => TypeError
            end)
    by (subst e; destruct up; reflexivity).
  assert (Hf : (if up then Z.min 24 (GameScreen.mineCount s + 1)
                else Z.max 1 (GameScreen.mineCount s - 1)) = next)
    by (subst next; destruct up; reflexivity).
  rewrite Hstep. unfold GameScreen.changeMineCount. cbv beta. rewrite Hf.
  split; [exact Hc|]. split; [exact Hnext|]. split.
  - intros ->. rewrite Z.eqb_refl, syncPicksLeftRef_same. reflexivity.
  - intros Hne Hd. destruct (Z.eqb_spec next (GameScreen.mineCount s)); [contradiction|].
    destruct (initializeGame_step s (GameScreen.setMineCount next s) draws
                (GameScreen.currentPlayerIndex s) HI)
      as (g & -> & Hfresh & Hm & Hp & HI'); auto; try apply HI.
    change (GameScreen.setCurrentPlayerIndex _ ?x) with x in HI'.
    eexists. split; [reflexivity|].
    pose proof (GameScreen.inv_ref _ HI') as Href. revert Href.
    sync_simpl. simpl. intros Href. repeat split; auto; apply Hfresh.
Qed.

Lemma C10_mine_count_change_witness :
  exists s', GameScreen.step (GameScreen.Plus [7; 2; 7; 11]%nat)
               (GameScreen.afterMount ["A"; "B"] [7%nat]) = Done s'
             /\ GameScreen.mineCount s' = 2
             /\ GameScreen.currentPlayerIndex s' = 0%nat.
Proof.
  destruct (C10_mine_count_change ["A"; "B"]
              (GameScreen.afterMount ["A"; "B"] [7%nat]) true [7; 2; 7; 11]%nat)
    as (_ & _ & _ & H).
  - apply (GameScreen.reach_mount _ [7%nat]). reflexivity.
  - destruct H as (s' & Hs & Hc & _ & _ & _ & _ & _ & _ & _ & _ & Hi & _).
    + vm_compute. discriminate.
    + split; [repeat constructor; unfold GameScreen.TOTAL_TILES; simpl; lia|].
      vm_compute. discriminate.
    + exists s'. repeat split; assumption.
Defined.

(** What the "End Turn" button does.  It calls [handleEndTurn] unless
    [picksLeft === 3 || isGameOver]; with [picksLeft] at most the budget
    of 3, the press goes through exactly when a pick has been used
    ([picksLeft < 3]) and the game-over flag is down; neither the button
    nor the handler looks at the turn lock.  When the press goes through
    the state becomes the one [nextTurn] (the callback of the round-won
    timer) produces: [picksLeft] is 3 again, the turn is unlocked and the
    index advanced, while the grid, the roster, the slapped player and the
    game-over flag are untouched.  Otherwise the state is unchanged. *)
Lemma pressEndTurn_gate (s : GameScreen.State) :
  GameScreen.picksLeft s <= 3 ->
  (GameScreen.endTurnDisabled s = false
     <-> GameScreen.picksLeft s < 3 /\ GameScreen.isGameOver s = false)
  /\ (GameScreen.picksLeft s < 3 -> GameScreen.isGameOver s = false ->
      exists s',
        GameScreen.step GameScreen.EndTurn s = Done s'
        /\ GameScreen.pressEndTurn s
           = GameScreen.nextTurn (GameScreen.setTurnLockedRef true s)
        /\ s' = GameScreen.setPicksLeftRef 3
                  (GameScreen.nextTurn (GameScreen.setTurnLockedRef true s))
        /\ GameScreen.picksLeft s' = 3
        /\ GameScreen.currentPlayerIndex s'
           = GameScreen.advanceIndex (GameScreen.players s)
                                     (GameScreen.currentPlayerIndex s)
        /\ GameScreen.turnLockedRef s' = false
        /\ GameScreen.grid s' = GameScreen.grid s
        /\ GameScreen.players s' = GameScreen.players s
        /\ GameScreen.slappedPlayer s' = GameScreen.slappedPlayer s
        /\ GameScreen.isGameOver s' = false)
  /\ (~ (GameScreen.picksLeft s < 3 /\ GameScreen.isGameOver s = false) ->
      GameScreen.step GameScreen.EndTurn s = Done s).
Proof.
  intros Hle.
  assert (Hdis : GameScreen.endTurnDisabled s = false
                 <-> GameScreen.picksLeft s < 3 /\ GameScreen.isGameOver s = false).
  { unfold GameScreen.endTurnDisabled.
    destruct (Z.eqb_spec (GameScreen.picksLeft s) 3), (GameScreen.isGameOver s);
      simpl; split; try discriminate; try (intros [? ?]; (discriminate || lia));
      intros _; split; auto; lia. }
  split; [exact Hdis|]. split.
  - intros Hlt Hgo.
    assert (Hpress : GameScreen.pressEndTurn s
                     = GameScreen.nextTurn (GameScreen.setTurnLockedRef true s)).
    { unfold GameScreen.pressEndTurn, GameScreen.handleEndTurn.
      rewrite (proj2 Hdis (conj Hlt Hgo)).
      destruct (Z.eqb_spec (GameScreen.picksLeft s) 3); [lia|reflexivity]. }
    eexists. split; [reflexivity|]. split; [exact Hpress|].
    simpl. rewrite Hpress. unfold GameScreen.syncPicksLeftRef. simpl.
    destruct (Z.eqb_spec (GameScreen.picksLeft s) 3); [lia|].
    repeat split; auto.
  - intros Hnot. unfold GameScreen.step. simpl. unfold GameScreen.pressEndTurn.
    destruct (GameScreen.endTurnDisabled s) eqn:E.
    + rewrite syncPicksLeftRef_same. reflexivity.
    + exfalso. apply Hnot, Hdis. reflexivity.
Qed.

Lemma pressEndTurn_gate_example :
  exists s', GameScreen.step GameScreen.EndTurn
               (GameScreen.stateAfter ["A"; "B"] [7%nat] [GameScreen.TilePress 0])
             = Done s'
             /\ GameScreen.picksLeft s' = 3
             /\ GameScreen.currentPlayerIndex s' = 1%nat.
Proof.
  destruct (pressEndTurn_gate
              (GameScreen.stateAfter ["A"; "B"] [7%nat] [GameScreen.TilePress 0]))
    as (_ & H & _).
  - vm_compute. discriminate.
  - destruct H as (s' & Hs & _ & _ & Hp & Hi & _).
    + vm_compute. reflexivity.
    + vm_compute. reflexivity.
    + exists s'. split; [exact Hs|]. split; [exact Hp|]. rewrite Hi.
      vm_compute. reflexivity.
Defined.

(** The timer of a won round can fire after "End Turn" was pressed in the
    same half second: the button is enabled with [picksLeft] at 0, and
    the two calls of [nextTurn] move the turn by two players. *)
Example end_turn_then_timer :
  let s := GameScreen.stateAfter ["A"; "B"; "C"] [7%nat]
             [GameScreen.TilePress 0; GameScreen.TilePress 1; GameScreen.TilePress 2] in
  GameScreen.phase s = RoundWon
  /\ GameScreen.currentPlayerIndex s = 0%nat
  /\ exists s1 s2,
       GameScreen.step GameScreen.EndTurn s = Done s1
       /\ GameScreen.step GameScreen.TimerFires s1 = Done s2
       /\ GameScreen.currentPlayerIndex s1 = 1%nat
       /\ GameScreen.currentPlayerIndex s2 = 2%nat.
Proof.
  split; [vm_compute; reflexivity|]. split; [vm_compute; reflexivity|].
  do 2 eexists. split; [vm_compute; reflexivity|].
  split; [vm_compute; reflexivity|]. split; vm_compute; reflexivity.
Qed.

(** C2 (as amended).  With a non-empty roster, in any state of the game
    screen:
    - when the slap modal is up, "Next Round" (given draws that hold
      enough different tile indices) replaces the grid by a new one of 25
      hidden tiles with [mineCount] mines at drawn positions, sets
      [picksLeft] to 3, moves the index to [(index + 1) mod playerCount]
      and leaves the machine in [AwaitingPick];
    - in [RoundWon], when the timer runs [nextTurn], [picksLeft] is set to
      3, the index moves to [(index + 1) mod playerCount] and the machine
      is in [AwaitingPick], and the grid is the one of before: revealed
      tiles stay revealed and the mines stay where they are. *)
Theorem C2_round_end_advance (ps : list string) (s : GameScreen.State)
    (draws : list nat) :
  GameScreen.reachable ps s ->
  ps <> [] ->
  (truthy (GameScreen.slappedPlayer s) = true ->
   GameScreen.enoughDraws (GameScreen.mineCount s) draws ->
   exists s',
     GameScreen.step (GameScreen.NextRound draws) s = Done s'
     /\ GameScreen.freshGrid (GameScreen.grid s')
     /\ Z.of_nat (GameScreen.minesIn (GameScreen.grid s')) = GameScreen.mineCount s
     /\ (forall p, GameScreen.mineAt (GameScreen.grid s') p = true -> p ∈ draws)
     /\ GameScreen.picksLeft s' = 3
     /\ GameScreen.currentPlayerIndex s'
        = ((GameScreen.currentPlayerIndex s + 1) mod length ps)%nat
     /\ GameScreen.phase s' = AwaitingPick)
  /\ (GameScreen.phase s = RoundWon ->
      (0 < GameScreen.pendingTimers s)%nat ->
      exists s',
        GameScreen.step GameScreen.TimerFires s = Done s'
        /\ GameScreen.grid s' = GameScreen.grid s
        /\ GameScreen.picksLeft s' = 3
        /\ GameScreen.currentPlayerIndex s'
           = ((GameScreen.currentPlayerIndex s + 1) mod length ps)%nat
        /\ GameScreen.phase s' = AwaitingPick).
Proof.
  intros Hreach Hne.
  destruct (reachable_Inv ps s Hreach) as [HI Hps].
  split.
  - intros Hmodal Hd.
    unfold GameScreen.step. simpl. unfold GameScreen.pressNextRound.
    rewrite Hmodal. unfold GameScreen.handleSlapDismiss.
    destruct (initializeGame_step s (GameScreen.setSlappedPlayer None s) draws
                (GameScreen.advanceIndex (GameScreen.players s)
                                         (GameScreen.currentPlayerIndex s)) HI)
      as (g & -> & Hfresh & Hm & Hp & HI'); auto; try apply HI.
    { apply advanceIndex_valid. }
    eexists. split; [reflexivity|].
    pose proof (GameScreen.inv_ref _ HI') as Href.
    assert (Hph : GameScreen.phase
                    (GameScreen.syncPicksLeftRef s
                       (GameScreen.setCurrentPlayerIndex
                          (GameScreen.advanceIndex (GameScreen.players s)
                             (GameScreen.currentPlayerIndex s))
                          (GameScreen.startRound g (GameScreen.setSlappedPlayer None s))))
                  = AwaitingPick).
    { apply phase_AwaitingPick_intro; auto; sync_simpl; simpl; auto. lia. }
    revert Hph. sync_simpl. simpl.
    rewrite Hps, advanceIndex_nonempty by exact Hne. intros Hph.
    split; [exact Hfresh|]. split; [exact Hm|]. split; [exact Hp|].
    split; [reflexivity|]. split; [reflexivity|]. exact Hph.
  - intros Hph Hpend.
    apply phase_RoundWon in Hph as (_ & Hgo & Hsl & _).
    unfold GameScreen.step. simpl. unfold GameScreen.timerFires.
    destruct (GameScreen.pendingTimers s) as [|n] eqn:En; [lia|].
    eexists. split; [reflexivity|].
    assert (HI' : GameScreen.Inv
                    (GameScreen.syncPicksLeftRef s
                       (GameScreen.nextTurn (GameScreen.setPendingTimers n s))))
      by (apply nextTurn_Inv; auto).
    assert (Hph : GameScreen.phase
                    (GameScreen.syncPicksLeftRef s
                       (GameScreen.nextTurn (GameScreen.setPendingTimers n s)))
                  = AwaitingPick).
    { apply phase_AwaitingPick_intro; auto; sync_simpl; simpl; auto. lia. }
    revert Hph. sync_simpl. simpl.
    rewrite Hps, advanceIndex_nonempty by exact Hne. intros Hph.
    repeat split; auto.
Qed.

Lemma run_reachable ps es : forall s s',
  GameScreen.reachable ps s -> GameScreen.run es s = Done s' ->
  GameScreen.reachable ps s'.
Proof.
  induction es as [|e es IH]; intros s s' Hr; simpl.
  - intros H. injection H as <-. exact Hr.
  - destruct (GameScreen.step e s) as [s1| |] eqn:Hs; try discriminate.
    apply IH. apply (GameScreen.reach_step ps e s s1); assumption.
Qed.

Lemma stateAfter_reachable ps draws es :
  isDone (GameScreen.mount ps draws) = true ->
  isDone (GameScreen.run es (GameScreen.afterMount ps draws)) = true ->
  GameScreen.reachable ps (GameScreen.stateAfter ps draws es).
Proof.
  unfold GameScreen.stateAfter, GameScreen.afterMount.
  destruct (GameScreen.mount ps draws) as [s0| |] eqn:Hm; try discriminate.
  intros _.
  destruct (GameScreen.run es s0) as [s| |] eqn:Hr; try discriminate.
  intros _. apply (run_reachable ps es s0); [|exact Hr].
  apply (GameScreen.reach_mount ps draws). exact Hm.
Qed.

Lemma C2_round_end_advance_witness :
  (exists s',
     GameScreen.step (GameScreen.NextRound [3%nat])
       (GameScreen.stateAfter ["A"; "B"] [7%nat] [GameScreen.TilePress 7]) = Done s'
     /\ GameScreen.currentPlayerIndex s' = 1%nat
     /\ GameScreen.phase s' = AwaitingPick)
  /\ (exists s',
        GameScreen.step GameScreen.TimerFires
          (GameScreen.stateAfter ["A"; "B"] [7%nat]
             [GameScreen.TilePress 0; GameScreen.TilePress 1; GameScreen.TilePress 2])
        = Done s'
        /\ GameScreen.currentPlayerIndex s' = 1%nat
        /\ GameScreen.phase s' = AwaitingPick).
Proof.
  split.
  - destruct (C2_round_end_advance ["A"; "B"]
                (GameScreen.stateAfter ["A"; "B"] [7%nat] [GameScreen.TilePress 7])
                [3%nat]) as [H _].
    + apply stateAfter_reachable; vm_compute; reflexivity.
    + discriminate.
    + destruct H as (s' & Hs & _ & _ & _ & _ & Hi & Hph).
      * reflexivity.
      * split; [repeat constructor; unfold GameScreen.TOTAL_TILES; simpl; lia|].
        vm_compute. discriminate.
      * exists s'. split; [exact Hs|]. split; [rewrite Hi; reflexivity|exact Hph].
  - destruct (C2_round_end_advance ["A"; "B"]
                (GameScreen.stateAfter ["A"; "B"] [7%nat]
                   [GameScreen.TilePress 0; GameScreen.TilePress 1;
                    GameScreen.TilePress 2])
                []) as [_ H].
    + apply stateAfter_reachable; vm_compute; reflexivity.
    + discriminate.
    + destruct H as (s' & Hs & _ & _ & Hi & Hph).
      * reflexivity.
      * simpl. lia.
      * exists s'. split; [exact Hs|]. split; [rewrite Hi; reflexivity|exact Hph].
Defined.

(** After three safe picks the round is won; when the timer then runs
    [nextTurn] the machine is back in [AwaitingPick] for the next player
    on the same grid, with the three picked tiles still revealed: the
    grid is not reset and no mine is placed anew. *)
Lemma C2_counterexample :
  let s := GameScreen.stateAfter ["A"; "B"] [7%nat]
             [GameScreen.TilePress 0; GameScreen.TilePress 1; GameScreen.TilePress 2] in
  GameScreen.reachable ["A"; "B"] s
  /\ GameScreen.phase s = RoundWon
  /\ GameScreen.pendingTimers s = 1%nat
  /\ exists s',
       GameScreen.step GameScreen.TimerFires s = Done s'
       /\ GameScreen.phase s' = AwaitingPick
       /\ GameScreen.currentPlayerIndex s' = 1%nat
       /\ GameScreen.picksLeft s' = 3
       /\ GameScreen.grid s' = GameScreen.grid s
       /\ GameScreen.revealedAt (GameScreen.grid s') 0 = true
       /\ ~ GameScreen.freshGrid (GameScreen.grid s').
Proof.
  split; [|split; [|split]].
  - apply stateAfter_reachable; vm_compute; reflexivity.
  - vm_compute. reflexivity.
  - vm_compute. reflexivity.
  - eexists. split; [vm_compute; reflexivity|].
    repeat (split; [vm_compute; reflexivity|]).
    intros [_ H]. vm_compute in H. discriminate H.
Qed.

(* ================================================================== *)
(** * Picks *)
(* ================================================================== *)

Lemma App_run_reachable trim es : forall s,
  App.reachable trim s -> Forall App.drawsInRange es ->
  App.reachable trim (App.run trim es s).
Proof.
  induction es as [|e es IH]; intros s Hr Hd; simpl; [exact Hr|].
  apply Forall_cons in Hd as [He Hd].
  apply IH; [|exact Hd]. apply App.reach_step; assumption.
Qed.

Lemma App_stateAfter_reachable mine0 es :
  (mine0 < App.GRID_SIZE * App.GRID_SIZE)%nat -> Forall App.drawsInRange es ->
  App.reachable asciiTrim (App.stateAfter mine0 es).
Proof.
  intros Hm Hd. apply App_run_reachable; [|exact Hd].
  apply App.reach_init. exact Hm.
Qed.

(** An accepted press of a mine tile on the game screen. *)
Lemma pressTile_mine (g : GameScreen.State) index tile :
  GameScreen.phase g = AwaitingPick ->
  GameScreen.picksLeftRef g = GameScreen.picksLeft g ->
  GameScreen.grid g !! index = Some tile ->
  GameScreen.isRevealed tile = false -> GameScreen.isMine tile = true ->
  GameScreen.step (GameScreen.TilePress index) g =
    Done (GameScreen.mkState (GameScreen.players g)
            (<[index := GameScreen.markRevealed tile]> (GameScreen.grid g))
            (GameScreen.currentPlayerIndex g) (GameScreen.picksLeft g)
            (GameScreen.players g !! GameScreen.currentPlayerIndex g) true
            (GameScreen.mineCount g) (GameScreen.picksLeftRef g) true
            (GameScreen.pendingTimers g)).
Proof.
  intros Hph Href Hl Hrev Hm. unfold GameScreen.step. simpl.
  rewrite (pressTile_handler index g Href).
  rewrite (handleTilePress_accepted index g tile Hph Hl Hrev). cbv zeta. rewrite Hm.
  unfold GameScreen.syncPicksLeftRef. simpl. rewrite Z.eqb_refl. reflexivity.
Qed.

(** An accepted press of a safe tile on the game screen. *)
Lemma pressTile_safe (g : GameScreen.State) index tile :
  GameScreen.phase g = AwaitingPick ->
  GameScreen.picksLeftRef g = GameScreen.picksLeft g ->
  GameScreen.grid g !! index = Some tile ->
  GameScreen.isRevealed tile = false -> GameScreen.isMine tile = false ->
  GameScreen.step (GameScreen.TilePress index) g =
    Done (GameScreen.mkState (GameScreen.players g)
            (<[index := GameScreen.markRevealed tile]> (GameScreen.grid g))
            (GameScreen.currentPlayerIndex g) (GameScreen.picksLeft g - 1)
            (GameScreen.slappedPlayer g) (GameScreen.isGameOver g)
            (GameScreen.mineCount g) (GameScreen.picksLeft g - 1)
            (GameScreen.picksLeft g =? 1)
            (if GameScreen.picksLeft g =? 1 then S (GameScreen.pendingTimers g)
             else GameScreen.pendingTimers g)).
Proof.
  intros Hph Href Hl Hrev Hm. unfold GameScreen.step. simpl.
  rewrite (pressTile_handler index g Href).
  rewrite (handleTilePress_accepted index g tile Hph Hl Hrev). cbv zeta. rewrite Hm.
  apply phase_AwaitingPick in Hph as (_ & _ & _ & Hlock & Hpos).
  rewrite Href in *.
  unfold GameScreen.syncPicksLeftRef.
  destruct (Z.eqb_spec (GameScreen.picksLeft g - 1) 0) as [H0|H0];
    destruct (Z.eqb_spec (GameScreen.picksLeft g) 1) as [H1|H1]; try lia; simpl.
  - destruct (Z.eqb_spec (GameScreen.picksLeft g) 0); [lia|].
    unfold GameScreen.setPicksLeftRef. simpl. rewrite H0. reflexivity.
  - destruct (Z.eqb_spec (GameScreen.picksLeft g) (GameScreen.picksLeft g - 1)); [lia|].
    unfold GameScreen.setPicksLeftRef. simpl. rewrite Hlock. reflexivity.
Qed.

(** C1 (as amended).
    Game screen: in [AwaitingPick], whatever the number of picks left, a
    press on a hidden mine tile marks that tile revealed, records the
    current player's name as the slapped player, raises the game-over flag
    and locks the turn, which is the state [Slapped]; [picksLeft], the
    index and the roster are unchanged, and the screen keeps no slap
    count.
    App.tsx: with a current player and [picksLeft] not 0, a pick of a
    hidden mine tile adds 1 to the slap count of the player at the current
    index and leaves every other player, and every name and id, as they
    were; the same update starts the next round (new grid, [picksLeft]
    back to [MAX_PICKS], index moved to the next player, the slap message
    shown), so the component is in [AwaitingPick] for the next player and
    passes through no state of its own for the slap. *)
Theorem C1_mine_reveal (g : GameScreen.State) (index : nat) (tile : GameScreen.Tile)
    (who : string) (a : App.State) (nextMine tileId : nat) (cp : App.Player)
    (t : App.Tile) :
  GameScreen.phase g = AwaitingPick ->
  GameScreen.picksLeftRef g = GameScreen.picksLeft g ->
  GameScreen.grid g !! index = Some tile ->
  GameScreen.isRevealed tile = false -> GameScreen.isMine tile = true ->
  GameScreen.players g !! GameScreen.currentPlayerIndex g = Some who ->
  App.currentPlayer a = Some cp -> App.picksLeft a <> 0 ->
  List.find (fun t => (App.tile_id t =? tileId)%nat) (App.grid a) = Some t ->
  App.revealed t = false -> App.isMine t = true ->
  (exists g',
     GameScreen.step (GameScreen.TilePress index) g = Done g'
     /\ GameScreen.phase g' = Slapped
     /\ GameScreen.slappedPlayer g' = Some who
     /\ GameScreen.isGameOver g' = true
     /\ GameScreen.turnLockedRef g' = true
     /\ GameScreen.grid g' = <[index := GameScreen.markRevealed tile]> (GameScreen.grid g)
     /\ GameScreen.picksLeft g' = GameScreen.picksLeft g
     /\ GameScreen.currentPlayerIndex g' = GameScreen.currentPlayerIndex g
     /\ GameScreen.players g' = GameScreen.players g)
  /\ (let a' := App.handlePick nextMine tileId a in
      (forall i,
         App.players a' !! i =
           (fun p => App.mkPlayer (App.player_id p) (App.name p)
                       (App.slaps p + (if (i =? App.currentPlayerIndex a)%nat
                                       then 1 else 0)))
           <$> App.players a !! i)
      /\ length (App.players a') = length (App.players a)
      /\ App.currentPlayerIndex a'
         = ((App.currentPlayerIndex a + 1) mod length (App.players a))%nat
      /\ App.picksLeft a' = App.MAX_PICKS
      /\ App.grid a' = App.createGrid nextMine
      /\ App.roundMessage a' = App.name cp +:+ " hit the mine! Slap!"
      /\ App.phase a' = AwaitingPick).
Proof.
  intros Hph Href Hl Hrev Hm Hwho Hcp Hp Hf Hr Hmine. split.
  - rewrite (pressTile_mine g index tile Hph Href Hl Hrev Hm).
    eexists. split; [reflexivity|]. simpl. rewrite Hwho.
    repeat split. apply phase_Slapped. simpl. split; [|auto].
    intros E. apply (f_equal length) in E. rewrite length_insert in E.
    apply lookup_lt_Some in Hl. simpl in E. lia.
  - cbv zeta. rewrite (handlePick_mine nextMine tileId a cp t Hcp Hp Hf Hr Hmine).
    simpl. split; [intros i; apply slapAt_lookup|].
    split; [apply slapAt_length|]. repeat split.
    apply currentPlayer_Some in Hcp as [_ Hlt].
    unfold App.phase, App.currentPlayer. simpl.
    assert (Hlt' : ((App.currentPlayerIndex a + 1) mod length (App.players a)
                    < length (App.slapAt (App.currentPlayerIndex a) (App.players a)))%nat)
      by (rewrite slapAt_length; apply Nat.mod_upper_bound; lia).
    destruct (App.slapAt (App.currentPlayerIndex a) (App.players a)) eqn:E;
      [simpl in Hlt'; lia|].
    destruct (lookup_lt_is_Some_2 _ _ Hlt') as [p' ->]. reflexivity.
Qed.

Lemma C1_mine_reveal_witness :
  (exists g',
     GameScreen.step (GameScreen.TilePress 7) (GameScreen.afterMount ["A"; "B"] [7%nat])
       = Done g'
     /\ GameScreen.phase g' = Slapped
     /\ GameScreen.slappedPlayer g' = Some "A")
  /\ App.slaps <$> App.players (App.handlePick 3 7 (App.stateAfter 7 App.addAB))
     = [1; 0].
Proof.
  destruct (C1_mine_reveal (GameScreen.afterMount ["A"; "B"] [7%nat]) 7
              (GameScreen.mkTile 7 true false) "A"
              (App.stateAfter 7 App.addAB) 3 7 (App.mkPlayer 1 "A" 0)
              (App.mkTile 7 false true))
    as [(g' & Hs & Hph & Hsl & _) _];
    try (vm_compute; reflexivity).
  - vm_compute. discriminate.
  - split; [|vm_compute; reflexivity].
    exists g'. split; [exact Hs|]. split; [exact Hph|exact Hsl].
Defined.

(** In App.tsx a pick of the mine leaves the component awaiting the next
    player's pick: the slap is counted, the round is already reset, and
    there is no state [Slapped] to acknowledge. *)
Lemma C1_counterexample :
  let a := App.stateAfter 7 App.addAB in
  let a' := App.handlePick 3 7 a in
  App.reachable asciiTrim a
  /\ App.phase a = AwaitingPick
  /\ List.find (fun t => (App.tile_id t =? 7)%nat) (App.grid a)
     = Some (App.mkTile 7 false true)
  /\ App.slaps <$> App.players a' = [1; 0]
  /\ App.phase a' = AwaitingPick
  /\ App.phase a' <> Slapped
  /\ App.currentPlayerIndex a' = 1%nat
  /\ App.picksLeft a' = 3
  /\ App.grid a' = App.createGrid 3.
Proof.
  split.
  - apply App_stateAfter_reachable; [simpl; lia|].
    repeat constructor.
  - repeat (split; [vm_compute; reflexivity|]).
    split; [vm_compute; discriminate|].
    repeat (split; [vm_compute; reflexivity|]). vm_compute. reflexivity.
Qed.

(** C5 (as amended).
    Game screen: in [AwaitingPick], a press on a hidden safe tile lowers
    [picksLeft] by exactly 1 and marks that tile, and no other, revealed;
    if [picksLeft] is then 0 the turn is locked and the [nextTurn] timer
    scheduled, which is [RoundWon], and otherwise the machine stays in
    [AwaitingPick].
    App.tsx: with a current player, [picksLeft] not 0 and tiles numbered by
    position, a pick of a hidden safe tile does the same while more than
    one pick is left; on the last pick the same update advances the turn,
    so the resulting state is the next player's [AwaitingPick] on a new
    grid with [picksLeft] back to [MAX_PICKS]. *)
Theorem C5_safe_reveal (g : GameScreen.State) (index : nat) (tile : GameScreen.Tile)
    (a : App.State) (nextMine tileId : nat) (cp : App.Player) (t : App.Tile) :
  GameScreen.phase g = AwaitingPick ->
  GameScreen.picksLeftRef g = GameScreen.picksLeft g ->
  GameScreen.grid g !! index = Some tile ->
  GameScreen.isRevealed tile = false -> GameScreen.isMine tile = false ->
  App.currentPlayer a = Some cp -> App.picksLeft a <> 0 ->
  App.tile_id <$> App.grid a = seq 0 (length (App.grid a)) ->
  List.find (fun t => (App.tile_id t =? tileId)%nat) (App.grid a) = Some t ->
  App.revealed t = false -> App.isMine t = false ->
  (exists g',
     GameScreen.step (GameScreen.TilePress index) g = Done g'
     /\ GameScreen.picksLeft g' = GameScreen.picksLeft g - 1
     /\ GameScreen.grid g' !! index
        = Some (GameScreen.mkTile (GameScreen.tile_id tile) false true)
     /\ (forall j, j <> index -> GameScreen.grid g' !! j = GameScreen.grid g !! j)
     /\ GameScreen.currentPlayerIndex g' = GameScreen.currentPlayerIndex g
     /\ GameScreen.players g' = GameScreen.players g
     /\ (GameScreen.picksLeft g' = 0 ->
         GameScreen.phase g' = RoundWon
         /\ GameScreen.turnLockedRef g' = true
         /\ GameScreen.pendingTimers g' = S (GameScreen.pendingTimers g))
     /\ (GameScreen.picksLeft g' <> 0 ->
         GameScreen.phase g' = AwaitingPick
         /\ GameScreen.pendingTimers g' = GameScreen.pendingTimers g))
  /\ (let a' := App.handlePick nextMine tileId a in
      App.players a' = App.players a
      /\ (App.picksLeft a <> 1 ->
          App.picksLeft a' = App.picksLeft a - 1
          /\ (forall j,
                App.grid a' !! j =
                  (fun x => if (j =? tileId)%nat then App.markRevealed x else x)
                  <$> App.grid a !! j)
          /\ App.currentPlayerIndex a' = App.currentPlayerIndex a
          /\ App.phase a' = AwaitingPick)
      /\ (App.picksLeft a = 1 ->
          App.picksLeft a' = App.MAX_PICKS
          /\ App.grid a' = App.createGrid nextMine
          /\ App.currentPlayerIndex a'
             = ((App.currentPlayerIndex a + 1) mod length (App.players a))%nat
          /\ App.roundMessage a' = App.name cp +:+ " is safe. Next player."
          /\ App.phase a' = AwaitingPick)).
Proof.
  intros Hph Href Hl Hrev Hm Hcp Hp Hids Hf Hr Hsafe. split.
  - rewrite (pressTile_safe g index tile Hph Href Hl Hrev Hm).
    pose proof (lookup_lt_Some _ _ _ Hl) as Hlt.
    apply phase_AwaitingPick in Hph as (Hne & Hgo & Hsl & Hlock & Hpos).
    rewrite Href in Hpos.
    eexists. split; [reflexivity|]. simpl.
    split; [reflexivity|]. split.
    { rewrite list_lookup_insert_eq by exact Hlt. unfold GameScreen.markRevealed.
      rewrite Hm. reflexivity. }
    split; [intros j Hj; apply list_lookup_insert_ne; congruence|].
    assert (Hne' : <[index := GameScreen.markRevealed tile]> (GameScreen.grid g) <> []).
    { intros E. apply (f_equal length) in E. rewrite length_insert in E.
      simpl in E. lia. }
    split; [reflexivity|]. split; [reflexivity|]. split.
    + intros H0. destruct (Z.eqb_spec (GameScreen.picksLeft g) 1); [|lia].
      split; [|auto]. apply phase_RoundWon. simpl. auto.
    + intros H0. destruct (Z.eqb_spec (GameScreen.picksLeft g) 1); [lia|].
      split; [|reflexivity]. apply phase_AwaitingPick. simpl.
      repeat split; auto. lia.
  - cbv zeta. rewrite (handlePick_safe nextMine tileId a cp t Hcp Hp Hf Hr Hsafe).
    pose proof (currentPlayer_Some a cp Hcp) as [Hcur Hlt].
    destruct (Z.eqb_spec (App.picksLeft a) 1) as [H1|H1]; simpl.
    + split; [reflexivity|]. split; [intros; contradiction|]. intros _.
      repeat split.
      unfold App.phase, App.currentPlayer. simpl.
      assert (Hlt' : ((App.currentPlayerIndex a + 1) mod length (App.players a)
                      < length (App.players a))%nat)
        by (apply Nat.mod_upper_bound; lia).
      destruct (App.players a) eqn:E; [simpl in Hlt'; lia|].
      destruct (lookup_lt_is_Some_2 _ _ Hlt') as [p' ->]. reflexivity.
    + split; [reflexivity|]. split; [|intros; contradiction]. intros _.
      split; [reflexivity|]. split.
      { intros j. rewrite (revealTile_lookup _ tileId 0 j Hids). reflexivity. }
      split; [reflexivity|].
      unfold App.phase, App.currentPlayer in *. simpl.
      destruct (App.players a); [discriminate|]. rewrite Hcp.
      destruct (Z.eqb_spec (App.picksLeft a - 1) 0); [lia|reflexivity].
Qed.

Lemma C5_safe_reveal_witness :
  (exists g',
     GameScreen.step (GameScreen.TilePress 0) (GameScreen.afterMount ["A"; "B"] [7%nat])
       = Done g'
     /\ GameScreen.picksLeft g' = 2)
  /\ App.picksLeft (App.handlePick 3 0 (App.stateAfter 7 App.addAB)) = 2.
Proof.
  destruct (C5_safe_reveal (GameScreen.afterMount ["A"; "B"] [7%nat]) 0
              (GameScreen.mkTile 0 false false)
              (App.stateAfter 7 App.addAB) 3 0 (App.mkPlayer 1 "A" 0)
              (App.mkTile 0 false false))
    as [(g' & Hs & Hp & _) (_ & Hmore & _)];
    try (vm_compute; reflexivity).
  - vm_compute. discriminate.
  - split.
    + exists g'. split; [exact Hs|]. rewrite Hp. reflexivity.
    + destruct Hmore as (Hpa & _).
      * vm_compute. discriminate.
      * rewrite Hpa. reflexivity.
Defined.

(** In App.tsx the third safe pick of a turn does not leave [picksLeft]
    one lower with the picked tile revealed: the update that takes
    [picksLeft] to 0 also resets the round, so [picksLeft] is 3 and the
    tile with the picked id is hidden on a new grid. *)
Lemma C5_counterexample :
  let a := App.stateAfter 7 (App.addAB ++ [App.Pick 0 0; App.Pick 0 1]) in
  let a' := App.handlePick 3 2 a in
  App.reachable asciiTrim a
  /\ App.phase a = AwaitingPick
  /\ App.picksLeft a = 1
  /\ List.find (fun t => (App.tile_id t =? 2)%nat) (App.grid a)
     = Some (App.mkTile 2 false false)
  /\ App.picksLeft a' = 3
  /\ App.picksLeft a' <> App.picksLeft a - 1
  /\ App.grid a' !! 2%nat = Some (App.mkTile 2 false false)
  /\ App.phase a' <> RoundWon.
Proof.
  split.
  - apply App_stateAfter_reachable; [simpl; lia|].
    repeat constructor; simpl; lia.
  - repeat (split; [vm_compute; reflexivity|]).
    split; [vm_compute; discriminate|].
    split; [vm_compute; reflexivity|]. vm_compute. discriminate.
Qed.

(* ================================================================== *)
(** * Presses that change nothing *)
(* ================================================================== *)

(** C3 (as amended).  A press on a tile that is already revealed, or with
    [picksLeft] at 0, leaves the whole state of the game screen as it is
    (the tile is rendered disabled, and with the ref in step the handler's
    own guard returns at once); in App.tsx a pick of a revealed tile, a
    pick with [picksLeft] at 0 and a pick with no player registered leave
    the whole state as it is.  The game screen has no such guard on its
    roster. *)
Theorem C3_noop_taps (g : GameScreen.State) (index : nat) (a : App.State)
    (nextMine tileId : nat) :
  GameScreen.revealedAt (GameScreen.grid g) index = true
    \/ GameScreen.picksLeft g = 0 ->
  (exists t, List.find (fun t => (App.tile_id t =? tileId)%nat) (App.grid a) = Some t
             /\ App.revealed t = true)
    \/ App.picksLeft a = 0 \/ App.players a = [] ->
  GameScreen.step (GameScreen.TilePress index) g = Done g
  /\ (GameScreen.picksLeftRef g = GameScreen.picksLeft g ->
      GameScreen.handleTilePress index g = g)
  /\ App.handlePick nextMine tileId a = a.
Proof.
  intros Hg Ha. split; [|split].
  - unfold GameScreen.step. simpl.
    assert (Hpress : GameScreen.pressTile index g = g).
    { unfold GameScreen.pressTile, GameScreen.tileDisabled, GameScreen.revealedAt in *.
      destruct (GameScreen.grid g !! index) as [t|]; [|reflexivity].
      destruct Hg as [->| ->].
      - rewrite orb_true_r. reflexivity.
      - rewrite orb_true_r. reflexivity. }
    rewrite Hpress, syncPicksLeftRef_same. reflexivity.
  - intros Href. apply handleTilePress_blocked.
    destruct Hg as [H|H]; [auto|]. do 3 right. left. lia.
  - apply handlePick_blocked.
    destruct Ha as [H|[H|H]]; auto.
    left. apply currentPlayer_empty. exact H.
Qed.

Lemma C3_noop_taps_witness :
  GameScreen.step (GameScreen.TilePress 0)
    (GameScreen.stateAfter ["A"; "B"] [7%nat] [GameScreen.TilePress 0])
  = Done (GameScreen.stateAfter ["A"; "B"] [7%nat] [GameScreen.TilePress 0])
  /\ App.handlePick 3 5 (App.initialState 7) = App.initialState 7.
Proof.
  destruct (C3_noop_taps
              (GameScreen.stateAfter ["A"; "B"] [7%nat] [GameScreen.TilePress 0]) 0
              (App.initialState 7) 3 5) as (H1 & _ & H3).
  - left. vm_compute. reflexivity.
  - right; right. reflexivity.
  - split; assumption.
Defined.

(** With an empty roster, which is what the game screen gets from a
    missing or malformed hand-off, a press on a hidden tile is accepted
    like any other: the tile is revealed and a pick is used. *)
Lemma C3_counterexample :
  let s := GameScreen.afterMount [] [7%nat] in
  GameScreen.reachable [] s
  /\ GameScreen.players s = []
  /\ exists s',
       GameScreen.step (GameScreen.TilePress 0) s = Done s'
       /\ s' <> s
       /\ GameScreen.revealedAt (GameScreen.grid s') 0 = true
       /\ GameScreen.picksLeft s' = 2.
Proof.
  split; [|split].
  - apply (GameScreen.reach_mount _ [7%nat]). vm_compute. reflexivity.
  - reflexivity.
  - eexists. split; [vm_compute; reflexivity|]. split; [|split; reflexivity].
    intros E. apply (f_equal GameScreen.picksLeft) in E. vm_compute in E.
    discriminate E.
Qed.

(* ================================================================== *)
(** * The picks counter *)
(* ================================================================== *)

(** C9.  In every state of the game screen and of App.tsx [picksLeft] is
    at least 0 (and at most the budget of 3).  On the game screen a tile
    press never raises it, and every event either does not raise it or
    sets it to 3; in App.tsx every event either does not raise it or is a
    pick that resets the round, with [picksLeft] back to [MAX_PICKS] on a
    new grid. *)
Theorem C9_picksLeft (ps : list string) (g : GameScreen.State)
    (trim : string -> string) (a : App.State) :
  GameScreen.reachable ps g ->
  App.reachable trim a ->
  (0 <= GameScreen.picksLeft g <= 3
   /\ forall e g',
        GameScreen.step e g = Done g' ->
        0 <= GameScreen.picksLeft g'
        /\ (GameScreen.isReset e = false ->
            GameScreen.picksLeft g' <= GameScreen.picksLeft g)
        /\ (GameScreen.picksLeft g' <= GameScreen.picksLeft g
            \/ GameScreen.isReset e = true /\ GameScreen.picksLeft g' = 3))
  /\ (0 <= App.picksLeft a <= App.MAX_PICKS
      /\ forall e,
           App.drawsInRange e ->
           0 <= App.picksLeft (App.step trim e a)
           /\ (App.picksLeft (App.step trim e a) <= App.picksLeft a
               \/ exists nextMine tileId,
                    e = App.Pick nextMine tileId
                    /\ App.picksLeft (App.step trim e a) = App.MAX_PICKS
                    /\ App.grid (App.step trim e a) = App.createGrid nextMine)).
Proof.
  intros Hg Ha. split.
  - destruct (reachable_Inv ps g Hg) as [HI _].
    split; [apply HI|]. intros e g' Hs.
    destruct (step_Inv e g g' HI Hs) as [HI' _].
    pose proof (GameScreen.inv_picks g HI) as Hp.
    pose proof (GameScreen.inv_picks g' HI') as Hp'.
    split; [lia|].
    assert (Hpress : forall index,
              GameScreen.picksLeft (GameScreen.pressTile index g)
              <= GameScreen.picksLeft g).
    { intros index. rewrite pressTile_handler by apply HI.
      unfold GameScreen.handleTilePress.
      destruct (_ || _) eqn:Hguard; [lia|].
      destruct (GameScreen.grid g !! index) as [tile|]; [|lia].
      apply orb_false_elim in Hguard as [Hguard _].
      apply orb_false_elim in Hguard as [_ Hguard].
      apply Z.leb_gt in Hguard. rewrite (GameScreen.inv_ref g HI) in *.
      destruct (GameScreen.isMine tile); simpl; [lia|].
      destruct (Z.eqb_spec (GameScreen.picksLeft g - 1) 0); simpl; lia. }
    unfold GameScreen.step in Hs.
    destruct e as [index| | |d|d|d|d]; simpl in *.
    + injection Hs as <-. pose proof (Hpress index) as H.
      revert H. sync_simpl. intros H. split; auto.
    + split; [discriminate|].
      destruct (Z_le_gt_dec (GameScreen.picksLeft g') (GameScreen.picksLeft g))
        as [Hle|Hgt]; auto.
      right. split; [reflexivity|]. injection Hs as <-. revert Hgt. sync_simpl.
      unfold GameScreen.timerFires. destruct (GameScreen.pendingTimers g); simpl; lia.
    + split; [discriminate|].
      destruct (Z_le_gt_dec (GameScreen.picksLeft g') (GameScreen.picksLeft g))
        as [Hle|Hgt]; auto.
      right. split; [reflexivity|]. injection Hs as <-. revert Hgt. sync_simpl.
      unfold GameScreen.pressEndTurn, GameScreen.handleEndTurn.
      destruct (GameScreen.endTurnDisabled g); [lia|].
      destruct (_ =? _); simpl; lia.
    + split; [discriminate|].
      destruct (Z_le_gt_dec (GameScreen.picksLeft g') (GameScreen.picksLeft g))
        as [Hle|Hgt]; auto.
      right. split; [reflexivity|].
      unfold GameScreen.pressNextRound, GameScreen.handleSlapDismiss in Hs.
      destruct (truthy _).
      * destruct (GameScreen.initializeGame d _) as [s0| |] eqn:Hi; try discriminate.
        apply initializeGame_Done in Hi as (gr & -> & _);
          [|simpl; pose proof (GameScreen.inv_count g HI); lia].
        injection Hs as <-. sync_simpl. reflexivity.
      * injection Hs as <-. revert Hgt. sync_simpl. lia.
    + split; [discriminate|]. right. split; [reflexivity|].
      destruct (GameScreen.initializeGame d g) as [s0| |] eqn:Hi; try discriminate.
      apply initializeGame_Done in Hi as (gr & -> & _);
        [|pose proof (GameScreen.inv_count g HI); lia].
      injection Hs as <-. sync_simpl. reflexivity.
    + split; [discriminate|].
      destruct (Z_le_gt_dec (GameScreen.picksLeft g') (GameScreen.picksLeft g))
        as [Hle|Hgt]; auto.
      right. split; [reflexivity|].
      unfold GameScreen.pressMinus, GameScreen.changeMineCount in Hs.
      destruct (_ =? _).
      * injection Hs as <-. revert Hgt. sync_simpl. lia.
      * destruct (GameScreen.initializeGame d _) as [s0| |] eqn:Hi; try discriminate.
        apply initializeGame_Done in Hi as (gr & -> & _); [|simpl; lia].
        injection Hs as <-. sync_simpl. reflexivity.
    + split; [discriminate|].
      destruct (Z_le_gt_dec (GameScreen.picksLeft g') (GameScreen.picksLeft g))
        as [Hle|Hgt]; auto.
      right. split; [reflexivity|].
      unfold GameScreen.pressPlus, GameScreen.changeMineCount in Hs.
      destruct (_ =? _).
      * injection Hs as <-. revert Hgt. sync_simpl. lia.
      * destruct (GameScreen.initializeGame d _) as [s0| |] eqn:Hi; try discriminate.
        apply initializeGame_Done in Hi as (gr & -> & _);
          [|simpl; pose proof (GameScreen.inv_count g HI); lia].
        injection Hs as <-. sync_simpl. reflexivity.
  - pose proof (App_reachable_Inv trim a Ha) as HI.
    pose proof (App.inv_picks a HI) as Hp.
    split; [lia|]. intros e Hd.
    pose proof (App.inv_picks _ (App_step_Inv trim e a HI Hd)) as Hp'.
    split; [lia|].
    destruct e as [text|now|nextMine tileId]; simpl.
    + left. lia.
    + left. unfold App.addPlayer. destruct (String.eqb _ _); [lia|].
      destruct (App.players a); simpl; lia.
    + destruct (handlePick_cases nextMine tileId a)
        as [->|[(msg & ps' & -> & _ & _)|(-> & _ & _)]]; simpl.
      * left. lia.
      * right. exists nextMine, tileId. repeat split.
      * left. lia.
Qed.

Lemma C9_picksLeft_witness :
  0 <= GameScreen.picksLeft
         (GameScreen.stateAfter ["A"; "B"] [7%nat] [GameScreen.TilePress 0]) <= 3
  /\ 0 <= App.picksLeft (App.stateAfter 7 (App.addAB ++ [App.Pick 0 0])) <= App.MAX_PICKS.
Proof.
  destruct (C9_picksLeft ["A"; "B"]
              (GameScreen.stateAfter ["A"; "B"] [7%nat] [GameScreen.TilePress 0])
              asciiTrim
              (App.stateAfter 7 (App.addAB ++ [App.Pick 0 0])))
    as [[H1 _] [H2 _]].
  - apply stateAfter_reachable; vm_compute; reflexivity.
  - apply App_stateAfter_reachable; [simpl; lia|]. repeat constructor; simpl; lia.
  - split; assumption.
Defined.

(* ================================================================== *)
(** * The roster *)
(* ================================================================== *)

(** C7 (as amended).  On the roster-entry screen, in every state the
    roster holds no name twice; submitting a name whose trimmed form is
    already in the roster changes nothing and raises the alert
    "Duplicate Name" / "Player already exists!"; and the roster that
    [startGame] hands to the game screen has at least two names, all
    different.  In App.tsx [addPlayer] makes no such check: every
    submitted name that is not blank is appended, with a slap count of 0. *)
Theorem C7_duplicate_names (trim : string -> string)
    (JSON_stringify : list string -> string) (s : SetupScreen.State) :
  SetupScreen.reachable trim JSON_stringify s ->
  NoDup (SetupScreen.players s)
  /\ (trim (SetupScreen.playerName s) ∈ SetupScreen.players s ->
      SetupScreen.addPlayer trim s
      = (s, [SetupScreen.Alert "Duplicate Name" "Player already exists!"]))
  /\ (forall pathname param,
        SetupScreen.RouterPush pathname param
          ∈ snd (SetupScreen.startGame JSON_stringify s) ->
        pathname = "/game"
        /\ param = JSON_stringify (SetupScreen.players s)
        /\ (2 <= length (SetupScreen.players s))%nat)
  /\ (forall now a,
        trim (App.playerName a) <> "" ->
        App.players (App.addPlayer trim now a)
        = (App.players a ++ [App.mkPlayer now (trim (App.playerName a)) 0])%list).
Proof.
  intros Hreach.
  destruct (reachable_rosterOk trim JSON_stringify s Hreach) as [Hnd Hne].
  split; [exact Hnd|]. split; [|split].
  - intros Hin. unfold SetupScreen.addPlayer.
    destruct (String.eqb_spec (trim (SetupScreen.playerName s)) "") as [E|_].
    + rewrite E in Hin. contradiction.
    + rewrite (proj2 (includes_spec _ _) Hin). reflexivity.
  - intros pathname param. unfold SetupScreen.startGame.
    destruct (Nat.ltb_spec (length (SetupScreen.players s)) 2); simpl; intros Hin.
    + apply list_elem_of_singleton in Hin. discriminate Hin.
    + apply elem_of_cons in Hin as [Hin|Hin]; [discriminate Hin|].
      apply list_elem_of_singleton in Hin. injection Hin as -> ->. auto.
  - intros now a Hnb. unfold App.addPlayer.
    destruct (String.eqb_spec (trim (App.playerName a)) ""); [contradiction|].
    destruct (App.players a); reflexivity.
Qed.

Lemma C7_duplicate_names_witness :
  SetupScreen.addPlayer asciiTrim (SetupScreen.mkState " A " ["A"])
  = (SetupScreen.mkState " A " ["A"],
     [SetupScreen.Alert "Duplicate Name" "Player already exists!"]).
Proof.
  destruct (C7_duplicate_names asciiTrim (fun _ => "")
              (SetupScreen.mkState " A " ["A"])) as (_ & H & _).
  - apply (SetupScreen.reach_step asciiTrim (fun _ => "")
             (SetupScreen.ChangeText " A ") (SetupScreen.mkState "" ["A"])).
    apply (SetupScreen.reach_step asciiTrim (fun _ => "")
             SetupScreen.AddPlayer (SetupScreen.mkState "A" [])).
    apply (SetupScreen.reach_step asciiTrim (fun _ => "")
             (SetupScreen.ChangeText "A") SetupScreen.initialState).
    apply SetupScreen.reach_init.
  - apply H. vm_compute. apply list_elem_of_here.
Defined.

(** In App.tsx a name that is already in the roster is added again. *)
Lemma C7_counterexample :
  let a := App.stateAfter 7 [App.ChangeText "A"; App.AddPlayer 1;
                             App.ChangeText " A"] in
  App.reachable asciiTrim a
  /\ App.name <$> App.players a = ["A"]
  /\ asciiTrim (App.playerName a) = "A"
  /\ App.addPlayer asciiTrim 2 a <> a
  /\ App.name <$> App.players (App.addPlayer asciiTrim 2 a) = ["A"; "A"]
  /\ ~ NoDup (App.name <$> App.players (App.addPlayer asciiTrim 2 a)).
Proof.
  split.
  - apply App_stateAfter_reachable; [simpl; lia|]. repeat constructor.
  - repeat (split; [vm_compute; reflexivity|]).
    split; [|split; [vm_compute; reflexivity|]].
    + intros E. apply (f_equal (fun x => length (App.players x))) in E.
      vm_compute in E. discriminate E.
    + intros H. vm_compute in H. apply NoDup_cons in H as [H _].
      apply H. apply list_elem_of_here.
Qed.

(** C8.  When [params.players] is missing, or is text that [JSON.parse]
    rejects, the function that computes the roster returns the empty
    array; and whatever the parameter is, no exception leaves it. *)
Theorem C8_malformed_handoff (JSON_parse : string -> option Handoff.JSValue)
    (param : option string) :
  param = None \/ (exists text, param = Some text /\ JSON_parse text = None) ->
  Handoff.parsePlayers JSON_parse param = Some (Handoff.JArray [])
  /\ forall other, exists v, Handoff.parsePlayers JSON_parse other = Some v.
Proof.
  intros H. split.
  - destruct H as [->|(text & -> & Hbad)]; [reflexivity|].
    unfold Handoff.parsePlayers. destruct (String.eqb text ""); [reflexivity|].
    rewrite Hbad. reflexivity.
  - intros [text|]; simpl; [|eauto].
    destruct (String.eqb text ""); [eauto|].
    destruct (JSON_parse text); eauto.
Qed.

Lemma C8_malformed_handoff_witness :
  Handoff.parsePlayers Handoff.parseEmptyArrayOnly (Some "[A,")
  = Some (Handoff.JArray []).
Proof.
  destruct (C8_malformed_handoff Handoff.parseEmptyArrayOnly (Some "[A,"))
    as [H _].
  - right. exists "[A,". split; reflexivity.
  - exact H.
Defined.

(* ================================================================== *)
(** * The two scenarios of the specification, run on both components *)
(* ================================================================== *)

(** Roster A, B; one mine, at tile 7; A reveals three safe tiles: the turn
    passes to B with [picksLeft] back to 3. *)
Example scenario_three_safe_picks_GameScreen :
  let s := GameScreen.stateAfter ["A"; "B"] [7%nat]
             [GameScreen.TilePress 0; GameScreen.TilePress 1; GameScreen.TilePress 2;
              GameScreen.TimerFires] in
  GameScreen.players s !! GameScreen.currentPlayerIndex s = Some "B"
  /\ GameScreen.picksLeft s = 3
  /\ GameScreen.slappedPlayer s = None
  /\ GameScreen.phase s = AwaitingPick.
Proof. repeat split; vm_compute; reflexivity. Qed.

Example scenario_three_safe_picks_App :
  let a := App.stateAfter 7 (App.addAB ++ [App.Pick 0 0; App.Pick 0 1; App.Pick 3 2]) in
  App.name <$> App.currentPlayer a = Some "B"
  /\ App.picksLeft a = 3
  /\ App.slaps <$> App.players a = [0; 0]
  /\ App.phase a = AwaitingPick.
Proof. repeat split; vm_compute; reflexivity. Qed.

(** Roster A, B; one mine, at tile 7; A reveals the mine on the first
    pick: A is slapped, the turn passes to B and a new round begins with a
    mine placed anew (here at tile 3). *)
Example scenario_mine_on_first_pick_GameScreen :
  let s1 := GameScreen.stateAfter ["A"; "B"] [7%nat] [GameScreen.TilePress 7] in
  let s2 := GameScreen.stateAfter ["A"; "B"] [7%nat]
              [GameScreen.TilePress 7; GameScreen.NextRound [3%nat]] in
  GameScreen.slappedPlayer s1 = Some "A"
  /\ GameScreen.phase s1 = Slapped
  /\ GameScreen.players s2 !! GameScreen.currentPlayerIndex s2 = Some "B"
  /\ GameScreen.picksLeft s2 = 3
  /\ GameScreen.mineAt (GameScreen.grid s2) 3 = true
  /\ GameScreen.minesIn (GameScreen.grid s2) = 1%nat
  /\ GameScreen.phase s2 = AwaitingPick.
Proof. repeat split; vm_compute; reflexivity. Qed.

Example scenario_mine_on_first_pick_App :
  let a := App.stateAfter 7 (App.addAB ++ [App.Pick 3 7]) in
  App.slaps <$> App.players a = [1; 0]
  /\ App.name <$> App.currentPlayer a = Some "B"
  /\ App.picksLeft a = 3
  /\ App.grid a = App.createGrid 3
  /\ App.roundMessage a = "A hit the mine! Slap!".
Proof. repeat split; vm_compute; reflexivity. Qed.

(* ================================================================== *)
(** * Further properties of the game screen *)
(* ================================================================== *)
Section GameScreenSteps.
Import GameScreen.

Lemma not_awaiting_blocked index s :
  phase s <> AwaitingPick -> handleTilePress index s = s.
Proof.
  intros Hph. unfold handleTilePress.
  destruct (isGameOver s) eqn:Hgo; [reflexivity|].
  destruct (revealedAt (grid s) index) eqn:Hrev; [reflexivity|].
  destruct (truthy (slappedPlayer s)) eqn:Hsl; [reflexivity|].
  destruct (Z.leb_spec (picksLeftRef s) 0) as [Hle|Hpos]; [reflexivity|].
  destruct (turnLockedRef s) eqn:Hlock; [reflexivity|]. simpl.
  destruct (grid s !! index) as [tile|] eqn:Hl; [|reflexivity].
  exfalso. apply Hph. apply phase_AwaitingPick. repeat split; auto.
  intros E. rewrite E in Hl. discriminate Hl.
Qed.

(** After [startRound] and the render's effect. *)
Lemma sync_startRound s s0 g i :
  picksLeftRef s = picksLeft s -> picksLeftRef s0 = picksLeftRef s ->
  syncPicksLeftRef s (setCurrentPlayerIndex i (startRound g s0))
  = mkState (players s0) g i 3 None false (mineCount s0) 3 false (pendingTimers s0).
Proof.
  intros Href Href0. unfold syncPicksLeftRef. simpl.
  destruct (Z.eqb_spec (picksLeft s) 3) as [E|E]; [|reflexivity].
  unfold setCurrentPlayerIndex, startRound. simpl. rewrite Href0, Href, E. reflexivity.
Qed.

Lemma sync_startRound_same_index s s0 g :
  picksLeftRef s = picksLeft s -> picksLeftRef s0 = picksLeftRef s ->
  syncPicksLeftRef s (startRound g s0)
  = mkState (players s0) g (currentPlayerIndex s0) 3 None false (mineCount s0) 3
            false (pendingTimers s0).
Proof.
  intros Href Href0.
  exact (sync_startRound s s0 g (currentPlayerIndex s0) Href Href0).
Qed.

Lemma sync_nextTurn s s0 :
  picksLeftRef s = picksLeft s -> picksLeftRef s0 = picksLeftRef s ->
  syncPicksLeftRef s (nextTurn s0)
  = mkState (players s0) (grid s0)
            (advanceIndex (players s0) (currentPlayerIndex s0)) 3
            (slappedPlayer s0) (isGameOver s0) (mineCount s0) 3 false
            (pendingTimers s0).
Proof.
  intros Href Href0. unfold syncPicksLeftRef. simpl.
  destruct (Z.eqb_spec (picksLeft s) 3) as [E|E]; [|reflexivity].
  unfold nextTurn, setCurrentPlayerIndex, setTurnLockedRef, setPicksLeft. simpl.
  rewrite Href0, Href, E. reflexivity.
Qed.

(** Every event either leaves the state as it is, is an accepted pick of
    a mine or of a safe tile, advances the turn, or starts a round. *)
Lemma step_cases e s s' :
  Inv s -> step e s = Done s' ->
  s' = s
  \/ (exists index tile,
        e = TilePress index /\ phase s = AwaitingPick
        /\ grid s !! index = Some tile /\ isRevealed tile = false
        /\ isMine tile = true
        /\ s' = mkState (players s) (<[index := markRevealed tile]> (grid s))
                  (currentPlayerIndex s) (picksLeft s)
                  (players s !! currentPlayerIndex s) true (mineCount s)
                  (picksLeftRef s) true (pendingTimers s))
  \/ (exists index tile,
        e = TilePress index /\ phase s = AwaitingPick
        /\ grid s !! index = Some tile /\ isRevealed tile = false
        /\ isMine tile = false
        /\ s' = mkState (players s) (<[index := markRevealed tile]> (grid s))
                  (currentPlayerIndex s) (picksLeft s - 1)
                  (slappedPlayer s) (isGameOver s) (mineCount s)
                  (picksLeft s - 1) (picksLeft s =? 1)
                  (if picksLeft s =? 1 then S (pendingTimers s)
                   else pendingTimers s))
  \/ (exists n,
        (e = TimerFires /\ pendingTimers s = S n
         \/ e = EndTurn /\ pendingTimers s = n /\ picksLeft s <> 3
            /\ isGameOver s = false)
        /\ s' = mkState (players s) (grid s)
                  (advanceIndex (players s) (currentPlayerIndex s)) 3
                  (slappedPlayer s) (isGameOver s) (mineCount s) 3 false n)
  \/ (exists g i m,
        startsRound e = true /\ freshGrid g /\ Z.of_nat (minesIn g) = m
        /\ 1 <= m <= 24
        /\ (i = currentPlayerIndex s
            \/ i = advanceIndex (players s) (currentPlayerIndex s)
               /\ truthy (slappedPlayer s) = true)
        /\ s' = mkState (players s) g i 3 None false m 3 false (pendingTimers s)).
Proof.
  intros HI Hs.
  pose proof (inv_ref s HI) as Href. pose proof (inv_count s HI) as Hc.
  unfold step in Hs.
  destruct e as [index| | |d|d|d|d]; simpl in Hs.
  - destruct (phase s) eqn:Hph;
      try (left; injection Hs as <-; rewrite pressTile_handler by exact Href;
           rewrite not_awaiting_blocked by (rewrite Hph; discriminate);
           apply syncPicksLeftRef_same).
    destruct (grid s !! index) as [tile|] eqn:Hl.
    2:{ left. injection Hs as <-. rewrite pressTile_handler by exact Href.
        rewrite handleTilePress_blocked by auto 10. apply syncPicksLeftRef_same. }
    destruct (isRevealed tile) eqn:Hrev.
    { left. injection Hs as <-. rewrite pressTile_handler by exact Href.
      rewrite handleTilePress_blocked; [apply syncPicksLeftRef_same|].
      right; left. unfold revealedAt. rewrite Hl. exact Hrev. }
    destruct (isMine tile) eqn:Hm.
    + right; left. exists index, tile.
      pose proof (pressTile_mine s index tile Hph Href Hl Hrev Hm) as E.
      unfold step in E. simpl in E. rewrite E in Hs. injection Hs as <-.
      repeat split; auto.
    + right; right; left. exists index, tile.
      pose proof (pressTile_safe s index tile Hph Href Hl Hrev Hm) as E.
      unfold step in E. simpl in E. rewrite E in Hs. injection Hs as <-.
      repeat split; auto.
  - injection Hs as <-. unfold timerFires.
    destruct (pendingTimers s) as [|n] eqn:En.
    + left. apply syncPicksLeftRef_same.
    + do 3 right; left. exists n. split; [auto|].
      rewrite sync_nextTurn by auto. reflexivity.
  - injection Hs as <-. unfold pressEndTurn, handleEndTurn, endTurnDisabled.
    destruct (Z.eqb_spec (picksLeft s) 3) as [E3|E3];
      [left; apply syncPicksLeftRef_same|].
    destruct (isGameOver s) eqn:Hgo; simpl;
      [left; apply syncPicksLeftRef_same|].
    do 3 right; left. exists (pendingTimers s). split; [right; auto|].
    rewrite sync_nextTurn by auto. simpl. rewrite Hgo. reflexivity.
  - unfold pressNextRound in Hs. destruct (truthy (slappedPlayer s)) eqn:Hmodal.
    2:{ left. injection Hs as <-. apply syncPicksLeftRef_same. }
    unfold handleSlapDismiss in Hs.
    destruct (initializeGame d (setSlappedPlayer None s)) as [s0| |] eqn:Hi;
      try discriminate.
    apply initializeGame_Done in Hi as (g & -> & Hg & Hm & _); [|simpl; lia].
    injection Hs as <-. do 4 right.
    exists g, (advanceIndex (players s) (currentPlayerIndex s)), (mineCount s).
    split; [reflexivity|]. split; [exact Hg|]. split; [exact Hm|].
    split; [exact Hc|]. split; [auto|].
    rewrite sync_startRound by auto. reflexivity.
  - destruct (initializeGame d s) as [s0| |] eqn:Hi; try discriminate.
    apply initializeGame_Done in Hi as (g & -> & Hg & Hm & _); [|lia].
    injection Hs as <-. do 4 right.
    exists g, (currentPlayerIndex s), (mineCount s).
    split; [reflexivity|]. split; [exact Hg|]. split; [exact Hm|].
    split; [exact Hc|]. split; [auto|].
    rewrite sync_startRound_same_index by auto. reflexivity.
  - unfold pressMinus, changeMineCount in Hs.
    destruct (Z.eqb_spec (Z.max 1 (mineCount s - 1)) (mineCount s)).
    { left. injection Hs as <-. apply syncPicksLeftRef_same. }
    destruct (initializeGame d _) as [s0| |] eqn:Hi; try discriminate.
    apply initializeGame_Done in Hi as (g & -> & Hg & Hm & _); [|simpl; lia].
    injection Hs as <-. do 4 right.
    exists g, (currentPlayerIndex s), (Z.max 1 (mineCount s - 1)).
    split; [reflexivity|]. split; [exact Hg|]. split; [exact Hm|].
    split; [lia|]. split; [auto|].
    rewrite sync_startRound_same_index by auto. reflexivity.
  - unfold pressPlus, changeMineCount in Hs.
    destruct (Z.eqb_spec (Z.min 24 (mineCount s + 1)) (mineCount s)).
    { left. injection Hs as <-. apply syncPicksLeftRef_same. }
    destruct (initializeGame d _) as [s0| |] eqn:Hi; try discriminate.
    apply initializeGame_Done in Hi as (g & -> & Hg & Hm & _); [|simpl; lia].
    injection Hs as <-. do 4 right.
    exists g, (currentPlayerIndex s), (Z.min 24 (mineCount s + 1)).
    split; [reflexivity|]. split; [exact Hg|]. split; [exact Hm|].
    split; [lia|]. split; [auto|].
    rewrite sync_startRound_same_index by auto. reflexivity.
Qed.

End GameScreenSteps.

Section GameScreenLock.
Import GameScreen.

Lemma revealedMines_cons (t : Tile) (g : list Tile) :
  revealedMines (t :: g)
  = ((if isRevealed t && isMine t then 1 else 0) + revealedMines g)%nat.
Proof. unfold revealedMines. simpl. destruct (_ && _); reflexivity. Qed.

Lemma revealedMines_reveal (g : list Tile) : forall (i : nat) (tile : Tile),
  g !! i = Some tile -> isRevealed tile = false ->
  revealedMines (<[i := markRevealed tile]> g)
  = (revealedMines g + (if isMine tile then 1 else 0))%nat.
Proof.
  induction g as [|a g IH]; intros [|i] tile Hl Hrev; simpl in *; try discriminate.
  - injection Hl as ->. rewrite !revealedMines_cons. simpl. rewrite Hrev. simpl.
    destruct (isMine tile); lia.
  - rewrite !revealedMines_cons, (IH i tile Hl Hrev). lia.
Qed.

Lemma revealedMines_hidden (g : list Tile) :
  (forall t, t ∈ g -> isRevealed t = false) -> revealedMines g = 0%nat.
Proof.
  induction g as [|a g IH]; intros H; [reflexivity|].
  rewrite revealedMines_cons, (H a) by apply list_elem_of_here. simpl.
  apply IH. intros t Ht. apply H. apply list_elem_of_further. exact Ht.
Qed.

Lemma freshGrid_hidden (g : list Tile) (t : Tile) :
  freshGrid g -> t ∈ g -> isRevealed t = false.
Proof.
  intros [_ Hrev] Ht.
  assert (Hin : isRevealed t ∈ isRevealed <$> g) by (apply list_elem_of_fmap; eauto).
  rewrite Hrev in Hin. apply elem_of_replicate in Hin as [-> _]. reflexivity.
Qed.

Lemma revealedMines_fresh (g : list Tile) : freshGrid g -> revealedMines g = 0%nat.
Proof.
  intros Hf. apply revealedMines_hidden. intros t Ht.
  apply (freshGrid_hidden g t Hf Ht).
Qed.

Lemma step_LockInv e s s' :
  Inv s -> LockInv s -> step e s = Done s' -> LockInv s'.
Proof.
  intros HI HL Hs.
  pose proof (inv_ref s HI) as Href. pose proof (inv_picks s HI) as Hp.
  destruct HL as [Hmodal Hhid Hone Hex Hlock].
  destruct (step_cases e s s' HI Hs)
    as [->|[(index & tile & _ & Hph & Hl & Hrev & Hm & ->)
       |[(index & tile & _ & Hph & Hl & Hrev & Hm & ->)
       |[(n & Hev & ->)|(g & i & m & _ & Hg & _ & _ & _ & ->)]]]].
  - constructor; assumption.
  - apply phase_AwaitingPick in Hph as (_ & Hgo & _ & Hlk & Hpos).
    rewrite Href in Hpos.
    constructor; simpl; auto; try discriminate.
    + rewrite (revealedMines_reveal _ _ _ Hl Hrev), Hm, (Hhid Hgo). simpl. lia.
    + intros E. lia.
  - apply phase_AwaitingPick in Hph as (_ & Hgo & Hsl & Hlk & Hpos).
    rewrite Href in Hpos.
    constructor; simpl; auto.
    + intros _. rewrite (revealedMines_reveal _ _ _ Hl Hrev), Hm, (Hhid Hgo).
      reflexivity.
    + rewrite (revealedMines_reveal _ _ _ Hl Hrev), Hm. lia.
    + intros E. destruct (Z.eqb_spec (picksLeft s) 1); [|lia].
      repeat split; auto. lia.
    + destruct (Z.eqb_spec (picksLeft s) 1); [|discriminate]. intros _. left. lia.
  - constructor; simpl; auto; discriminate.
  - constructor; simpl; rewrite ?(revealedMines_fresh g Hg);
      auto; try discriminate; try contradiction.
Qed.

Lemma mount_LockInv ps draws s : mount ps draws = Done s -> LockInv s.
Proof.
  unfold mount.
  destruct (initializeGame draws (initialState ps)) as [s0| |] eqn:Hinit;
    intros H; try discriminate.
  injection H as <-.
  apply initializeGame_Done in Hinit as (g & -> & Hg & _); [|simpl; lia].
  constructor; simpl; rewrite ?(revealedMines_fresh g Hg);
    auto; try discriminate; try contradiction.
Qed.

Lemma reachable_LockInv ps s : reachable ps s -> LockInv s.
Proof.
  induction 1 as [draws s Hm | e s s' Hr IH Hs].
  - apply (mount_LockInv ps draws). exact Hm.
  - apply (step_LockInv e s s'); auto. apply (reachable_Inv ps s Hr).
Qed.

End GameScreenLock.

Lemma revealedMines_zero (g : list GameScreen.Tile) : forall p t,
  GameScreen.revealedMines g = 0%nat -> g !! p = Some t ->
  GameScreen.isRevealed t = true -> GameScreen.isMine t = false.
Proof.
  induction g as [|a g IH]; intros [|p] t Hz Hl Hrev; simpl in Hl;
    try discriminate Hl; rewrite revealedMines_cons in Hz.
  - injection Hl as ->. rewrite Hrev in Hz. simpl in Hz.
    destruct (GameScreen.isMine t); [simpl in Hz; lia|reflexivity].
  - apply (IH p t); auto. lia.
Qed.

(** X1.  No event other than one that starts a round hides a revealed
    tile, renumbers a tile or changes the size of the grid: a tile that is
    revealed stays revealed until the grid is rebuilt. *)
Theorem GameScreen_revealed_stays_revealed (e : GameScreen.Event)
    (s s' : GameScreen.State) :
  GameScreen.startsRound e = false ->
  GameScreen.step e s = Done s' ->
  length (GameScreen.grid s') = length (GameScreen.grid s)
  /\ GameScreen.tile_id <$> GameScreen.grid s' = GameScreen.tile_id <$> GameScreen.grid s
  /\ forall p, GameScreen.revealedAt (GameScreen.grid s) p = true ->
               GameScreen.revealedAt (GameScreen.grid s') p = true.
Proof.
  intros He Hs. unfold GameScreen.step in Hs.
  assert (Hgrid : GameScreen.grid s' = GameScreen.grid s
                  \/ exists index tile,
                       GameScreen.grid s !! index = Some tile
                       /\ GameScreen.grid s'
                          = <[index := GameScreen.markRevealed tile]> (GameScreen.grid s)).
  { destruct e as [index| | |d|d|d|d]; try discriminate He; simpl in Hs;
      injection Hs as <-; sync_simpl.
    - unfold GameScreen.pressTile.
      destruct (GameScreen.grid s !! index) as [t|]; [|auto].
      destruct (GameScreen.tileDisabled s t); [auto|].
      destruct (handleTilePress_grid index s) as [_ [Hg|(tile & Hl & Hg)]]; eauto.
    - unfold GameScreen.timerFires. destruct (GameScreen.pendingTimers s); auto.
    - unfold GameScreen.pressEndTurn, GameScreen.handleEndTurn.
      destruct (GameScreen.endTurnDisabled s); [auto|]. destruct (_ =? _); auto. }
  destruct Hgrid as [->|(index & tile & Hl & ->)]; [auto|].
  split; [apply length_insert|]. split.
  - apply (fmap_insert_same GameScreen.tile_id _ _ tile); auto.
  - intros p Hp. unfold GameScreen.revealedAt in *.
    destruct (decide (index = p)) as [->|Hne].
    + rewrite list_lookup_insert_eq by (apply lookup_lt_Some in Hl; exact Hl).
      reflexivity.
    + rewrite list_lookup_insert_ne by exact Hne. exact Hp.
Qed.

Lemma GameScreen_revealed_stays_revealed_witness :
  GameScreen.revealedAt
    (GameScreen.grid
       (GameScreen.stateAfter ["A"; "B"] [7%nat]
          [GameScreen.TilePress 0; GameScreen.EndTurn])) 0 = true.
Proof.
  destruct (GameScreen_revealed_stays_revealed GameScreen.EndTurn
              (GameScreen.stateAfter ["A"; "B"] [7%nat] [GameScreen.TilePress 0])
              (GameScreen.stateAfter ["A"; "B"] [7%nat]
                 [GameScreen.TilePress 0; GameScreen.EndTurn]))
    as (_ & _ & H).
  - reflexivity.
  - vm_compute. reflexivity.
  - apply H. vm_compute. reflexivity.
Defined.

(** X2.  With a non-empty roster, in every state of the game screen the
    roster is the one handed over and the current-player index is a valid
    index into it, so the name shown in the header is the name of a
    player. *)
Theorem GameScreen_current_player_valid (ps : list string) (s : GameScreen.State) :
  GameScreen.reachable ps s ->
  ps <> [] ->
  GameScreen.players s = ps
  /\ (GameScreen.currentPlayerIndex s < length ps)%nat
  /\ ps !! GameScreen.currentPlayerIndex s = Some (GameScreen.currentPlayerLabel s)
  /\ GameScreen.currentPlayerLabel s ∈ ps.
Proof.
  intros Hr Hne. destruct (reachable_Inv ps s Hr) as [HI Hps].
  assert (Hlt : (GameScreen.currentPlayerIndex s < length ps)%nat).
  { destruct (GameScreen.inv_index s HI) as [H|H].
    - rewrite Hps in H. exact H.
    - rewrite H. destruct ps; [contradiction|simpl; lia]. }
  split; [exact Hps|]. split; [exact Hlt|].
  destruct (lookup_lt_is_Some_2 ps _ Hlt) as [x Hx].
  unfold GameScreen.currentPlayerLabel. rewrite Hps, Hx. simpl.
  split; [reflexivity|]. apply list_elem_of_lookup. eauto.
Qed.

Lemma GameScreen_current_player_valid_witness :
  GameScreen.currentPlayerLabel
    (GameScreen.stateAfter ["A"; "B"] [7%nat]
       [GameScreen.TilePress 0; GameScreen.EndTurn]) ∈ ["A"; "B"].
Proof.
  destruct (GameScreen_current_player_valid ["A"; "B"]
              (GameScreen.stateAfter ["A"; "B"] [7%nat]
                 [GameScreen.TilePress 0; GameScreen.EndTurn]))
    as (_ & _ & _ & H).
  - apply stateAfter_reachable; vm_compute; reflexivity.
  - discriminate.
  - exact H.
Defined.

(** X3.  In every state of the game screen the ref [picksLeftRef] holds
    the value of [picksLeft], and the [disabled] expression of a tile lets
    a press through exactly when the guard of [handleTilePress] does: for
    every tile of the grid the two expressions have the same value, so
    what the button does and what the handler does are the same. *)
Theorem GameScreen_ref_in_step (ps : list string) (s : GameScreen.State) :
  GameScreen.reachable ps s ->
  GameScreen.picksLeftRef s = GameScreen.picksLeft s
  /\ (forall index,
        GameScreen.pressTile index s = GameScreen.handleTilePress index s)
  /\ (forall index t,
        GameScreen.grid s !! index = Some t ->
        GameScreen.tileDisabled s t
        = (GameScreen.isGameOver s
           || GameScreen.revealedAt (GameScreen.grid s) index
           || truthy (GameScreen.slappedPlayer s)
           || (GameScreen.picksLeftRef s <=? 0)
           || GameScreen.turnLockedRef s)).
Proof.
  intros Hr. destruct (reachable_Inv ps s Hr) as [HI _].
  pose proof (reachable_LockInv ps s Hr) as HL.
  pose proof (GameScreen.inv_ref s HI) as Href.
  pose proof (GameScreen.inv_picks s HI) as Hp.
  split; [exact Href|]. split; [intros index; apply pressTile_handler; exact Href|].
  intros index t Hl. unfold GameScreen.tileDisabled, GameScreen.revealedAt.
  rewrite Hl, Href.
  destruct (GameScreen.isGameOver s) eqn:Hgo; [reflexivity|].
  destruct (GameScreen.isRevealed t); [reflexivity|]. simpl.
  assert (Hsl : truthy (GameScreen.slappedPlayer s) = false).
  { destruct (GameScreen.slappedPlayer s) as [x|] eqn:E; [|reflexivity].
    assert (GameScreen.isGameOver s = true)
      by (apply (GameScreen.lock_modal s HL); rewrite E; discriminate).
    congruence. }
  rewrite Hsl. simpl.
  destruct (Z.eqb_spec (GameScreen.picksLeft s) 0) as [H0|H0].
  - destruct (Z.leb_spec (GameScreen.picksLeft s) 0); [reflexivity|lia].
  - destruct (Z.leb_spec (GameScreen.picksLeft s) 0); [lia|]. simpl.
    destruct (GameScreen.turnLockedRef s) eqn:Hlk; [|reflexivity].
    destruct (GameScreen.lock_locked s HL Hlk) as [Hc|Hc]; [contradiction|congruence].
Qed.

Lemma GameScreen_ref_in_step_witness :
  GameScreen.picksLeftRef
    (GameScreen.stateAfter ["A"; "B"] [7%nat]
       [GameScreen.TilePress 0; GameScreen.EndTurn]) = 3.
Proof.
  destruct (GameScreen_ref_in_step ["A"; "B"]
              (GameScreen.stateAfter ["A"; "B"] [7%nat]
                 [GameScreen.TilePress 0; GameScreen.EndTurn])) as [H _].
  - apply stateAfter_reachable; vm_compute; reflexivity.
  - rewrite H. vm_compute. reflexivity.
Defined.

(** X4.  In every state of the game screen, [picksLeft] is 0 exactly when
    the turn is locked without the game being over, and then a [nextTurn]
    timer is pending: the counter never rests at 0 without the advance
    being on its way. *)
Theorem GameScreen_exhausted_iff_locked (ps : list string) (s : GameScreen.State) :
  GameScreen.reachable ps s ->
  (GameScreen.picksLeft s = 0
     <-> GameScreen.turnLockedRef s = true /\ GameScreen.isGameOver s = false)
  /\ (GameScreen.picksLeft s = 0 -> (1 <= GameScreen.pendingTimers s)%nat).
Proof.
  intros Hr. pose proof (reachable_LockInv ps s Hr) as HL.
  split; [split|].
  - intros H0. destruct (GameScreen.lock_exhausted s HL H0) as (? & ? & _). auto.
  - intros [Hlk Hgo]. destruct (GameScreen.lock_locked s HL Hlk) as [H|H]; [exact H|].
    congruence.
  - intros H0. apply (GameScreen.lock_exhausted s HL H0).
Qed.

Lemma GameScreen_exhausted_iff_locked_witness :
  (1 <= GameScreen.pendingTimers
          (GameScreen.stateAfter ["A"; "B"] [7%nat]
             [GameScreen.TilePress 0; GameScreen.TilePress 1; GameScreen.TilePress 2]))%nat.
Proof.
  destruct (GameScreen_exhausted_iff_locked ["A"; "B"]
              (GameScreen.stateAfter ["A"; "B"] [7%nat]
                 [GameScreen.TilePress 0; GameScreen.TilePress 1;
                  GameScreen.TilePress 2])) as [_ H].
  - apply stateAfter_reachable; vm_compute; reflexivity.
  - apply H. vm_compute. reflexivity.
Defined.

(** X5.  In every state of the game screen the slap modal has a player
    only when the game-over flag is up; while the flag is down no revealed
    tile is a mine; and at no time is more than one mine revealed. *)
Theorem GameScreen_mine_shown_only_when_over (ps : list string)
    (s : GameScreen.State) :
  GameScreen.reachable ps s ->
  (GameScreen.slappedPlayer s <> None -> GameScreen.isGameOver s = true)
  /\ (GameScreen.isGameOver s = false ->
      forall p, GameScreen.revealedAt (GameScreen.grid s) p = true ->
                GameScreen.mineAt (GameScreen.grid s) p = false)
  /\ (GameScreen.revealedMines (GameScreen.grid s) <= 1)%nat.
Proof.
  intros Hr. pose proof (reachable_LockInv ps s Hr) as HL.
  split; [apply HL|]. split; [|apply HL].
  intros Hgo p Hp. unfold GameScreen.revealedAt, GameScreen.mineAt in *.
  destruct (GameScreen.grid s !! p) as [t|] eqn:Hl; [|reflexivity].
  apply (revealedMines_zero (GameScreen.grid s) p t); auto.
  apply (GameScreen.lock_hidden_mines s HL Hgo).
Qed.

Lemma GameScreen_mine_shown_only_when_over_witness :
  (GameScreen.revealedMines
     (GameScreen.grid
        (GameScreen.stateAfter ["A"; "B"] [7%nat] [GameScreen.TilePress 7])) <= 1)%nat.
Proof.
  destruct (GameScreen_mine_shown_only_when_over ["A"; "B"]
              (GameScreen.stateAfter ["A"; "B"] [7%nat] [GameScreen.TilePress 7]))
    as (_ & _ & H).
  - apply stateAfter_reachable; vm_compute; reflexivity.
  - exact H.
Defined.

Lemma reachable_grid_nonempty ps s : GameScreen.reachable ps s -> GameScreen.grid s <> [].
Proof.
  intros Hr E. destruct (reachable_Inv ps s Hr) as [HI _].
  pose proof (GameScreen.inv_ids s HI) as Hid. rewrite E in Hid. discriminate Hid.
Qed.

(** X6.  With a non-empty roster, a state of the game screen in
    [RoundWon] has [picksLeft] at 0 and a [nextTurn] timer pending, and
    when that timer fires the machine is in [AwaitingPick] for the next
    player with [picksLeft] at 3: a won round always hands the turn on. *)
Theorem GameScreen_round_won_advances (ps : list string) (s : GameScreen.State) :
  GameScreen.reachable ps s ->
  ps <> [] ->
  GameScreen.phase s = RoundWon ->
  GameScreen.picksLeft s = 0
  /\ exists s',
       GameScreen.step GameScreen.TimerFires s = Done s'
       /\ GameScreen.pendingTimers s = S (GameScreen.pendingTimers s')
       /\ GameScreen.phase s' = AwaitingPick
       /\ GameScreen.picksLeft s' = 3
       /\ GameScreen.currentPlayerIndex s'
          = ((GameScreen.currentPlayerIndex s + 1) mod length ps)%nat
       /\ GameScreen.grid s' = GameScreen.grid s.
Proof.
  intros Hr Hne Hph.
  destruct (reachable_Inv ps s Hr) as [HI Hps].
  pose proof (reachable_LockInv ps s Hr) as HL.
  pose proof (GameScreen.inv_ref s HI) as Href.
  pose proof (GameScreen.inv_picks s HI) as Hp.
  apply phase_RoundWon in Hph as (Hg & Hgo & Hsl & Hlk).
  assert (H0 : GameScreen.picksLeft s = 0).
  { destruct Hlk as [Hlk|Hle]; [|lia].
    destruct (GameScreen.lock_locked s HL Hlk) as [H|H]; [exact H|congruence]. }
  split; [exact H0|].
  destruct (GameScreen.lock_exhausted s HL H0) as (_ & _ & Hpend).
  destruct (GameScreen.pendingTimers s) as [|n] eqn:En; [lia|].
  unfold GameScreen.step. simpl. unfold GameScreen.timerFires. rewrite En.
  rewrite sync_nextTurn by auto. simpl.
  eexists. split; [reflexivity|]. simpl.
  split; [reflexivity|]. split.
  - apply phase_AwaitingPick. simpl. repeat split; auto; lia.
  - rewrite Hps, advanceIndex_nonempty by exact Hne. auto.
Qed.

Lemma GameScreen_round_won_advances_witness :
  exists s',
    GameScreen.step GameScreen.TimerFires
      (GameScreen.stateAfter ["A"; "B"] [7%nat]
         [GameScreen.TilePress 0; GameScreen.TilePress 1; GameScreen.TilePress 2])
    = Done s'
    /\ GameScreen.phase s' = AwaitingPick.
Proof.
  destruct (GameScreen_round_won_advances ["A"; "B"]
              (GameScreen.stateAfter ["A"; "B"] [7%nat]
                 [GameScreen.TilePress 0; GameScreen.TilePress 1;
                  GameScreen.TilePress 2]))
    as (_ & s' & Hs & _ & Hph & _).
  - apply stateAfter_reachable; vm_compute; reflexivity.
  - discriminate.
  - vm_compute. reflexivity.
  - exists s'. split; assumption.
Defined.

(** X7.  While [picksLeft] is 0 the "End Turn" button is enabled; pressed
    then, it hands the turn to the next player, and the timer that is
    still pending hands it on once more when it fires: the index moves by
    two places round the roster. *)
Theorem GameScreen_end_turn_in_lock_window (ps : list string)
    (s : GameScreen.State) :
  GameScreen.reachable ps s ->
  ps <> [] ->
  GameScreen.picksLeft s = 0 ->
  exists s1 s2,
    GameScreen.step GameScreen.EndTurn s = Done s1
    /\ GameScreen.step GameScreen.TimerFires s1 = Done s2
    /\ GameScreen.currentPlayerIndex s1
       = ((GameScreen.currentPlayerIndex s + 1) mod length ps)%nat
    /\ GameScreen.phase s1 = AwaitingPick
    /\ GameScreen.currentPlayerIndex s2
       = ((GameScreen.currentPlayerIndex s + 2) mod length ps)%nat
    /\ GameScreen.pendingTimers s = S (GameScreen.pendingTimers s2).
Proof.
  intros Hr Hne H0.
  destruct (reachable_Inv ps s Hr) as [HI Hps].
  pose proof (reachable_LockInv ps s Hr) as HL.
  pose proof (GameScreen.inv_ref s HI) as Href.
  pose proof (reachable_grid_nonempty ps s Hr) as Hg.
  destruct (GameScreen.lock_exhausted s HL H0) as (Hlk & Hgo & Hpend).
  assert (Hsl : GameScreen.slappedPlayer s = None).
  { destruct (GameScreen.slappedPlayer s) eqn:E; [|reflexivity].
    assert (GameScreen.isGameOver s = true)
      by (apply (GameScreen.lock_modal s HL); rewrite E; discriminate).
    congruence. }
  destruct (GameScreen.pendingTimers s) as [|n] eqn:En; [lia|].
  assert (H1 : GameScreen.step GameScreen.EndTurn s =
               Done (GameScreen.mkState ps (GameScreen.grid s)
                       ((GameScreen.currentPlayerIndex s + 1) mod length ps)%nat 3
                       None false (GameScreen.mineCount s) 3 false (S n))).
  { unfold GameScreen.step. simpl.
    unfold GameScreen.pressEndTurn, GameScreen.handleEndTurn,
      GameScreen.endTurnDisabled.
    rewrite H0, Hgo. simpl. rewrite sync_nextTurn by auto. simpl.
    rewrite Hps, advanceIndex_nonempty, Hsl, Hgo, En by exact Hne. reflexivity. }
  rewrite H1. do 2 eexists. split; [reflexivity|].
  unfold GameScreen.step. simpl. unfold GameScreen.timerFires. simpl.
  split; [reflexivity|]. simpl. split; [reflexivity|]. split.
  - apply phase_AwaitingPick. simpl. repeat split; auto; lia.
  - split; [|reflexivity]. rewrite advanceIndex_nonempty by exact Hne.
    rewrite Nat.Div0.add_mod_idemp_l. f_equal. lia.
Qed.

Lemma GameScreen_end_turn_in_lock_window_witness :
  exists s1 s2,
    GameScreen.step GameScreen.EndTurn
      (GameScreen.stateAfter ["A"; "B"; "C"] [7%nat]
         [GameScreen.TilePress 0; GameScreen.TilePress 1; GameScreen.TilePress 2])
    = Done s1
    /\ GameScreen.step GameScreen.TimerFires s1 = Done s2
    /\ GameScreen.currentPlayerIndex s2 = 2%nat.
Proof.
  destruct (GameScreen_end_turn_in_lock_window ["A"; "B"; "C"]
              (GameScreen.stateAfter ["A"; "B"; "C"] [7%nat]
                 [GameScreen.TilePress 0; GameScreen.TilePress 1;
                  GameScreen.TilePress 2]))
    as (s1 & s2 & H1 & H2 & _ & _ & Hi & _).
  - apply stateAfter_reachable; vm_compute; reflexivity.
  - discriminate.
  - vm_compute. reflexivity.
  - exists s1, s2. split; [exact H1|]. split; [exact H2|]. rewrite Hi. reflexivity.
Defined.

(** X8.  The restart button, given draws that hold enough different tile
    indices, puts a new grid of 25 hidden tiles with [mineCount] mines in
    place, sets [picksLeft] to 3 and leaves the machine in [AwaitingPick];
    the player whose turn it is, the mine count and the pending timers
    are the ones of before. *)
Theorem GameScreen_restart (ps : list string) (s : GameScreen.State)
    (draws : list nat) :
  GameScreen.reachable ps s ->
  GameScreen.enoughDraws (GameScreen.mineCount s) draws ->
  exists s',
    GameScreen.step (GameScreen.Restart draws) s = Done s'
    /\ GameScreen.freshGrid (GameScreen.grid s')
    /\ Z.of_nat (GameScreen.minesIn (GameScreen.grid s')) = GameScreen.mineCount s
    /\ GameScreen.mineCount s' = GameScreen.mineCount s
    /\ GameScreen.currentPlayerIndex s' = GameScreen.currentPlayerIndex s
    /\ GameScreen.picksLeft s' = 3
    /\ GameScreen.pendingTimers s' = GameScreen.pendingTimers s
    /\ GameScreen.phase s' = AwaitingPick.
Proof.
  intros Hr Hd. destruct (reachable_Inv ps s Hr) as [HI _].
  pose proof (GameScreen.inv_ref s HI) as Href.
  destruct (initializeGame_returns draws s Hd) as [s0 Hs0].
  destruct (initializeGame_Done draws s s0) as (g & -> & Hg & Hm & _);
    [pose proof (GameScreen.inv_count s HI); lia | exact Hs0 |].
  unfold GameScreen.step. simpl. rewrite Hs0.
  rewrite sync_startRound_same_index by auto.
  eexists. split; [reflexivity|]. simpl.
  split; [exact Hg|]. split; [exact Hm|]. repeat split.
  apply phase_AwaitingPick. simpl. repeat split; auto; try lia.
  intros E. apply freshGrid_length in Hg. rewrite E in Hg. discriminate Hg.
Qed.

Lemma GameScreen_restart_witness :
  exists s',
    GameScreen.step (GameScreen.Restart [4%nat])
      (GameScreen.stateAfter ["A"; "B"] [7%nat] [GameScreen.TilePress 7]) = Done s'
    /\ GameScreen.phase s' = AwaitingPick
    /\ GameScreen.currentPlayerIndex s' = 0%nat.
Proof.
  destruct (GameScreen_restart ["A"; "B"]
              (GameScreen.stateAfter ["A"; "B"] [7%nat] [GameScreen.TilePress 7])
              [4%nat])
    as (s' & Hs & _ & _ & _ & Hi & _ & _ & Hph).
  - apply stateAfter_reachable; vm_compute; reflexivity.
  - split; [repeat constructor; unfold GameScreen.TOTAL_TILES; simpl; lia|].
    vm_compute. discriminate.
  - exists s'. split; [exact Hs|]. split; [exact Hph|]. rewrite Hi. reflexivity.
Defined.

(** X9.  When the entry of the roster at the current index is missing or
    is the empty name (as with the empty roster of a malformed hand-off),
    a pick of a mine raises the game-over flag without a slapped player:
    the modal with "Next Round" does not open, and in the state reached
    "Next Round", every tile press and "End Turn" change nothing. *)
Theorem GameScreen_mine_without_player (ps : list string) (s : GameScreen.State)
    (index : nat) (tile : GameScreen.Tile) :
  GameScreen.reachable ps s ->
  truthy (ps !! GameScreen.currentPlayerIndex s) = false ->
  GameScreen.phase s = AwaitingPick ->
  GameScreen.grid s !! index = Some tile ->
  GameScreen.isRevealed tile = false -> GameScreen.isMine tile = true ->
  exists s',
    GameScreen.step (GameScreen.TilePress index) s = Done s'
    /\ GameScreen.isGameOver s' = true
    /\ truthy (GameScreen.slappedPlayer s') = false
    /\ (forall draws, GameScreen.step (GameScreen.NextRound draws) s' = Done s')
    /\ (forall i, GameScreen.step (GameScreen.TilePress i) s' = Done s')
    /\ GameScreen.step GameScreen.EndTurn s' = Done s'.
Proof.
  intros Hr Hname Hph Hl Hrev Hm.
  destruct (reachable_Inv ps s Hr) as [HI Hps].
  pose proof (GameScreen.inv_ref s HI) as Href.
  rewrite (pressTile_mine s index tile Hph Href Hl Hrev Hm).
  eexists. split; [reflexivity|]. simpl. rewrite Hps.
  split; [reflexivity|]. split; [exact Hname|]. split; [|split].
  - intros draws. unfold GameScreen.step. simpl.
    unfold GameScreen.pressNextRound. simpl. rewrite Hname.
    rewrite syncPicksLeftRef_same. reflexivity.
  - intros i. unfold GameScreen.step. simpl.
    unfold GameScreen.pressTile, GameScreen.tileDisabled. simpl.
    destruct (_ !! i); rewrite syncPicksLeftRef_same; reflexivity.
  - unfold GameScreen.step. simpl.
    unfold GameScreen.pressEndTurn, GameScreen.endTurnDisabled. simpl.
    rewrite orb_true_r, syncPicksLeftRef_same. reflexivity.
Qed.

Lemma GameScreen_mine_without_player_witness :
  exists s',
    GameScreen.step (GameScreen.TilePress 7) (GameScreen.afterMount [] [7%nat]) = Done s'
    /\ GameScreen.isGameOver s' = true
    /\ GameScreen.step (GameScreen.NextRound [3%nat]) s' = Done s'.
Proof.
  destruct (GameScreen_mine_without_player [] (GameScreen.afterMount [] [7%nat]) 7
              (GameScreen.mkTile 7 true false))
    as (s' & Hs & Hgo & _ & Hnext & _);
    try (vm_compute; reflexivity).
  - apply (GameScreen.reach_mount _ [7%nat]). vm_compute. reflexivity.
  - exists s'. split; [exact Hs|]. split; [exact Hgo|]. apply Hnext.
Defined.

(** X10.  [nextTurn] moves the turn round the roster: after [k] calls the
    index is [(index + k) mod playerCount], so after as many calls as
    there are players it is the same player's turn again; each call also
    leaves [picksLeft] at 3 and the turn unlocked. *)
Theorem GameScreen_turns_go_round (s : GameScreen.State) (k : nat) :
  (GameScreen.currentPlayerIndex s < length (GameScreen.players s))%nat ->
  GameScreen.currentPlayerIndex (Nat.iter k GameScreen.nextTurn s)
  = ((GameScreen.currentPlayerIndex s + k) mod length (GameScreen.players s))%nat
  /\ GameScreen.currentPlayerIndex
       (Nat.iter (length (GameScreen.players s)) GameScreen.nextTurn s)
     = GameScreen.currentPlayerIndex s
  /\ GameScreen.players (Nat.iter k GameScreen.nextTurn s) = GameScreen.players s
  /\ GameScreen.grid (Nat.iter k GameScreen.nextTurn s) = GameScreen.grid s.
Proof.
  intros Hlt.
  assert (Hne : GameScreen.players s <> [])
    by (intros E; rewrite E in Hlt; simpl in Hlt; lia).
  assert (Hiter : forall j,
            GameScreen.players (Nat.iter j GameScreen.nextTurn s) = GameScreen.players s
            /\ GameScreen.grid (Nat.iter j GameScreen.nextTurn s) = GameScreen.grid s
            /\ GameScreen.currentPlayerIndex (Nat.iter j GameScreen.nextTurn s)
               = ((GameScreen.currentPlayerIndex s + j)
                    mod length (GameScreen.players s))%nat).
  { induction j as [|j (IHp & IHg & IHi)]; simpl.
    - rewrite Nat.add_0_r, Nat.mod_small by exact Hlt. auto.
    - split; [exact IHp|]. split; [exact IHg|].
      rewrite IHp, IHi, advanceIndex_nonempty by exact Hne.
      rewrite Nat.Div0.add_mod_idemp_l. f_equal. lia. }
  split; [apply Hiter|]. split; [|split; apply Hiter].
  destruct (Hiter (length (GameScreen.players s))) as (_ & _ & ->).
  rewrite <- Nat.Div0.add_mod_idemp_r, Nat.Div0.mod_same, Nat.add_0_r.
  apply Nat.mod_small. exact Hlt.
Qed.

Lemma GameScreen_turns_go_round_witness :
  GameScreen.currentPlayerIndex
    (Nat.iter 3 GameScreen.nextTurn (GameScreen.afterMount ["A"; "B"; "C"] [7%nat]))
  = 0%nat.
Proof.
  destruct (GameScreen_turns_go_round
              (GameScreen.afterMount ["A"; "B"; "C"] [7%nat]) 0) as (_ & H & _).
  - vm_compute. lia.
  - exact H.
Defined.

Lemma minesIn_le_length (g : list GameScreen.Tile) :
  (GameScreen.minesIn g <= length g)%nat.
Proof.
  induction g as [|t g IH]; [unfold GameScreen.minesIn; simpl; lia|].
  rewrite minesIn_cons. simpl. destruct (GameScreen.isMine t); lia.
Qed.

(** X11.  With a mine count above the number of tiles the loop of
    [initializeGame] cannot finish, whatever is drawn: it is the clamp of
    the two controls that keeps it returning. *)
Theorem placeMines_too_many (K : Z) (draws : list nat) (g : list GameScreen.Tile) :
  Z.of_nat GameScreen.TOTAL_TILES < K ->
  GameScreen.placeMines K 0 GameScreen.blankGrid draws <> Done g.
Proof.
  intros HK Hrun.
  destruct (placeMines_Done draws K 0 GameScreen.blankGrid g Hrun)
    as (Hc & Hid & _); [reflexivity | unfold GameScreen.TOTAL_TILES in HK; simpl in HK; lia |].
  pose proof (minesIn_le_length g) as Hle.
  apply (f_equal length) in Hid. rewrite !length_fmap in Hid.
  change (length GameScreen.blankGrid) with GameScreen.TOTAL_TILES in Hid. lia.
Qed.

Lemma placeMines_too_many_witness :
  GameScreen.placeMines 26 0 GameScreen.blankGrid (seq 0 25)
  <> Done GameScreen.blankGrid.
Proof.
  apply (placeMines_too_many 26 (seq 0 25) GameScreen.blankGrid).
  vm_compute. reflexivity.
Defined.

Lemma placeMines_firstDistinct (draws : list nat) :
  forall K placed (g g' : list GameScreen.Tile) (seen : list nat),
  GameScreen.placeMines K placed g draws = Done g' ->
  placed <= K ->
  (forall p, p ∈ seen <-> GameScreen.mineAt g p = true) ->
  forall p, GameScreen.mineAt g' p = true
            <-> p ∈ seen
                \/ p ∈ GameScreen.firstDistinct (Z.to_nat (K - placed)) seen draws.
Proof.
  induction draws as [|r rest IH]; intros K placed g g' seen Hrun Hle Hseen p;
    simpl in Hrun.
  - destruct (Z.ltb_spec placed K); [discriminate|]. injection Hrun as <-.
    simpl. rewrite <- Hseen, elem_of_nil. tauto.
  - destruct (Z.ltb_spec placed K) as [Hlt|Hge].
    + assert (Hn : Z.to_nat (K - placed) = S (Z.to_nat (K - (placed + 1)))) by lia.
      rewrite Hn. simpl.
      destruct (g !! r) as [t|] eqn:Hl; [|discriminate].
      destruct (GameScreen.isMine t) eqn:Hm.
      * assert (Hin : r ∈ seen)
          by (apply Hseen; unfold GameScreen.mineAt; rewrite Hl; exact Hm).
        rewrite bool_decide_eq_true_2 by exact Hin.
        rewrite (IH K placed g g' seen Hrun Hle Hseen p), Hn. reflexivity.
      * assert (Hnotin : r ∉ seen).
        { intros Hin. apply Hseen in Hin. unfold GameScreen.mineAt in Hin.
          rewrite Hl in Hin. congruence. }
        rewrite bool_decide_eq_false_2 by exact Hnotin.
        rewrite (IH K (placed + 1) _ g' (r :: seen) Hrun); [|lia|].
        -- rewrite !elem_of_cons. tauto.
        -- intros q. rewrite elem_of_cons.
           destruct (decide (r = q)) as [<-|Hne].
           ++ rewrite mineAt_insert_eq by (apply lookup_lt_Some in Hl; exact Hl).
              simpl. tauto.
           ++ rewrite mineAt_insert_ne by exact Hne. rewrite <- Hseen.
              split; [intros [E|H]; [congruence|exact H]|auto].
    + injection Hrun as <-.
      replace (Z.to_nat (K - placed)) with 0%nat by lia. simpl.
      rewrite <- Hseen, elem_of_nil. tauto.
Qed.

(** X12.  When the loop of [initializeGame] returns, the mines are at the
    first [K] different positions that were drawn, and nowhere else: a
    draw that repeats an earlier one is skipped and draws after the [K]th
    new position are not used. *)
Theorem placeMines_first_distinct_draws (K : Z) (draws : list nat)
    (g : list GameScreen.Tile) :
  0 <= K ->
  GameScreen.placeMines K 0 GameScreen.blankGrid draws = Done g ->
  forall p, GameScreen.mineAt g p = true
            <-> p ∈ GameScreen.firstDistinct (Z.to_nat K) [] draws.
Proof.
  intros HK Hrun p.
  rewrite (placeMines_firstDistinct draws K 0 GameScreen.blankGrid g [] Hrun HK).
  - rewrite Z.sub_0_r, elem_of_nil. tauto.
  - intros q. rewrite elem_of_nil. split; [tauto|].
    unfold GameScreen.mineAt, GameScreen.blankGrid. rewrite list_lookup_fmap.
    destruct (seq 0 GameScreen.TOTAL_TILES !! q); discriminate.
Qed.

Lemma placeMines_first_distinct_draws_witness :
  exists g,
    GameScreen.placeMines 2 0 GameScreen.blankGrid [3; 3; 9; 4]%nat = Done g
    /\ GameScreen.mineAt g 9 = true.
Proof.
  eexists. split; [vm_compute; reflexivity|].
  apply (placeMines_first_distinct_draws 2 [3; 3; 9; 4]%nat).
  - lia.
  - vm_compute. reflexivity.
  - vm_compute. apply list_elem_of_further, list_elem_of_here.
Defined.

Lemma blankGrid_lookup r :
  (r < GameScreen.TOTAL_TILES)%nat ->
  GameScreen.blankGrid !! r = Some (GameScreen.mkTile r false false).
Proof.
  intros Hr. unfold GameScreen.blankGrid.
  rewrite list_lookup_fmap, lookup_seq_lt by exact Hr. reflexivity.
Qed.

(** X13.  The first render, whatever the roster, sets up one mine, at the
    position of the first draw, on a grid of hidden tiles, with the first
    player to move, [picksLeft] at 3 and the machine in [AwaitingPick];
    later draws are not used. *)
Theorem GameScreen_first_render (ps : list string) (r : nat) (rest : list nat) :
  (r < GameScreen.TOTAL_TILES)%nat ->
  GameScreen.mount ps (r :: rest)
  = Done (GameScreen.mkState ps
            (<[r := GameScreen.mkTile r true false]> GameScreen.blankGrid)
            0 3 None false 1 3 false 0)
  /\ GameScreen.phase (GameScreen.afterMount ps (r :: rest)) = AwaitingPick
  /\ forall p, GameScreen.mineAt (GameScreen.grid (GameScreen.afterMount ps (r :: rest))) p
               = true <-> p = r.
Proof.
  intros Hr.
  assert (Hm : GameScreen.mount ps (r :: rest)
               = Done (GameScreen.mkState ps
                         (<[r := GameScreen.mkTile r true false]> GameScreen.blankGrid)
                         0 3 None false 1 3 false 0)).
  { unfold GameScreen.mount, GameScreen.initializeGame. simpl.
    rewrite (blankGrid_lookup r Hr). simpl. destruct rest; reflexivity. }
  split; [exact Hm|].
  unfold GameScreen.afterMount. rewrite Hm.
  assert (Hlen : (r < length GameScreen.blankGrid)%nat) by exact Hr.
  split.
  - apply phase_AwaitingPick. simpl. repeat split; try lia.
    intros E. apply (f_equal length) in E. rewrite length_insert in E.
    simpl in E. lia.
  - intros p. simpl. destruct (decide (r = p)) as [<-|Hne].
    + rewrite mineAt_insert_eq by exact Hlen. simpl. tauto.
    + rewrite mineAt_insert_ne by exact Hne.
      unfold GameScreen.mineAt, GameScreen.blankGrid. rewrite list_lookup_fmap.
      destruct (seq 0 GameScreen.TOTAL_TILES !! p); simpl;
        split; try discriminate; intros ->; contradiction.
Qed.

Lemma GameScreen_first_render_witness :
  GameScreen.phase (GameScreen.afterMount ["A"; "B"] [7; 2]%nat) = AwaitingPick.
Proof.
  destruct (GameScreen_first_render ["A"; "B"] 7 [2%nat]) as (_ & H & _).
  - vm_compute. lia.
  - exact H.
Defined.

(* ================================================================== *)
(** * Further properties of the roster-entry screen *)
(* ================================================================== *)

Lemma NoDup_delete_absent (l : list string) (i : nat) (x : string) :
  NoDup l -> l !! i = Some x -> x ∉ delete i l.
Proof.
  intros Hnd Hl. rewrite delete_take_drop.
  rewrite <- (take_drop_middle l i x Hl) in Hnd.
  apply NoDup_app in Hnd as (_ & Hdisj & Hnd).
  apply NoDup_cons in Hnd as [Hnot _].
  intros Hin. apply elem_of_app in Hin as [Hin|Hin]; [|contradiction].
  apply (Hdisj x Hin). apply list_elem_of_here.
Qed.

(** X14.  Removing the player at a valid index takes exactly that name out
    of the roster: the name is gone, every other name is still there in
    the same order, and the typed text is untouched; with an index past
    the end the roster is left as it is. *)
Theorem SetupScreen_remove_player (trim : string -> string)
    (JSON_stringify : list string -> string) (s : SetupScreen.State)
    (index : nat) :
  SetupScreen.reachable trim JSON_stringify s ->
  let s' := fst (SetupScreen.removePlayer index s) in
  SetupScreen.playerName s' = SetupScreen.playerName s
  /\ SetupScreen.players s'
     = (take index (SetupScreen.players s)
        ++ drop (S index) (SetupScreen.players s))%list
  /\ (forall x, SetupScreen.players s !! index = Some x ->
        (x ∉ SetupScreen.players s')
        /\ S (length (SetupScreen.players s')) = length (SetupScreen.players s)
        /\ forall y, y <> x ->
             (y ∈ SetupScreen.players s' <-> y ∈ SetupScreen.players s))
  /\ ((length (SetupScreen.players s) <= index)%nat ->
      SetupScreen.players s' = SetupScreen.players s).
Proof.
  intros Hr. destruct (reachable_rosterOk trim JSON_stringify s Hr) as [Hnd _].
  simpl. split; [reflexivity|]. split; [apply delete_take_drop|]. split.
  - intros x Hl. split; [apply NoDup_delete_absent; assumption|]. split.
    + rewrite length_delete by eauto. apply lookup_lt_Some in Hl. lia.
    + intros y Hy. rewrite delete_take_drop.
      rewrite <- (take_drop_middle (SetupScreen.players s) index x Hl) at 3.
      rewrite !elem_of_app, elem_of_cons. split; [tauto|].
      intros [H|[H|H]]; auto. contradiction.
  - intros Hge. rewrite delete_take_drop.
    rewrite take_ge, drop_ge by lia. apply app_nil_r.
Qed.

Lemma SetupScreen_remove_player_witness :
  SetupScreen.players
    (fst (SetupScreen.removePlayer 0 (SetupScreen.mkState "" ["A"]))) = [].
Proof.
  destruct (SetupScreen_remove_player asciiTrim (fun _ => "")
              (SetupScreen.mkState "" ["A"]) 0) as (_ & H & _).
  - apply (SetupScreen.reach_step asciiTrim (fun _ => "")
             SetupScreen.AddPlayer (SetupScreen.mkState "A" [])).
    apply (SetupScreen.reach_step asciiTrim (fun _ => "")
             (SetupScreen.ChangeText "A") SetupScreen.initialState).
    apply SetupScreen.reach_init.
  - rewrite H. reflexivity.
Defined.

(** X15.  A name that has been removed can be entered again: after the
    player at an index is removed, submitting text whose trimmed form is
    that player's name is accepted, without an alert, and puts the name at
    the end of the roster. *)
Theorem SetupScreen_remove_then_add (trim : string -> string)
    (JSON_stringify : list string -> string) (s : SetupScreen.State)
    (index : nat) (x text : string) :
  SetupScreen.reachable trim JSON_stringify s ->
  SetupScreen.players s !! index = Some x ->
  trim text = x ->
  SetupScreen.addPlayer trim
    (SetupScreen.mkState text
       (SetupScreen.players (fst (SetupScreen.removePlayer index s))))
  = (SetupScreen.mkState "" (delete index (SetupScreen.players s) ++ [x]),
     [SetupScreen.HapticImpactLight]).
Proof.
  intros Hr Hl Ht.
  destruct (reachable_rosterOk trim JSON_stringify s Hr) as [Hnd Hne].
  unfold SetupScreen.addPlayer. simpl. rewrite Ht.
  destruct (String.eqb_spec x "") as [E|_].
  - exfalso. apply Hne. rewrite <- E. apply list_elem_of_lookup. eauto.
  - destruct (SetupScreen.includes (delete index (SetupScreen.players s)) x) eqn:Hinc;
      [|reflexivity].
    apply includes_spec in Hinc. exfalso.
    apply (NoDup_delete_absent _ _ _ Hnd Hl Hinc).
Qed.

Lemma SetupScreen_remove_then_add_witness :
  SetupScreen.addPlayer asciiTrim
    (SetupScreen.mkState " A "
       (SetupScreen.players
          (fst (SetupScreen.removePlayer 0 (SetupScreen.mkState "" ["A"])))))
  = (SetupScreen.mkState "" ["A"], [SetupScreen.HapticImpactLight]).
Proof.
  apply (SetupScreen_remove_then_add asciiTrim (fun _ => "")
           (SetupScreen.mkState "" ["A"]) 0 "A" " A ").
  - apply (SetupScreen.reach_step asciiTrim (fun _ => "")
             SetupScreen.AddPlayer (SetupScreen.mkState "A" [])).
    apply (SetupScreen.reach_step asciiTrim (fun _ => "")
             (SetupScreen.ChangeText "A") SetupScreen.initialState).
    apply SetupScreen.reach_init.
  - reflexivity.
  - vm_compute. reflexivity.
Defined.

(** X16.  The roster never holds a blank name: submitting text whose
    trimmed form is empty changes nothing and raises no alert, and in
    every state every name of the roster is non-empty and is the trimmed
    form of some text. *)
Theorem SetupScreen_no_blank_names (trim : string -> string)
    (JSON_stringify : list string -> string) (s : SetupScreen.State) :
  SetupScreen.reachable trim JSON_stringify s ->
  (trim (SetupScreen.playerName s) = "" -> SetupScreen.addPlayer trim s = (s, []))
  /\ forall x, x ∈ SetupScreen.players s -> x <> "" /\ exists text, x = trim text.
Proof.
  intros Hr. split.
  - intros E. unfold SetupScreen.addPlayer. rewrite E. reflexivity.
  - induction Hr as [|e s Hr IH]; [intros x Hx; apply elem_of_nil in Hx; contradiction|].
    destruct e as [text| |index|]; simpl.
    + exact IH.
    + unfold SetupScreen.addPlayer.
      destruct (String.eqb_spec (trim (SetupScreen.playerName s)) "") as [|Hnb];
        [exact IH|].
      destruct (SetupScreen.includes _ _); [exact IH|]. simpl.
      intros x Hx. apply elem_of_app in Hx as [Hx|Hx]; [apply IH; exact Hx|].
      apply list_elem_of_singleton in Hx. subst x. split; [exact Hnb|eauto].
    + intros x Hx. apply IH. eapply list_elem_of_delete_inv; eauto.
    + unfold SetupScreen.startGame. destruct (_ <? _)%nat; exact IH.
Qed.

Lemma SetupScreen_no_blank_names_witness :
  SetupScreen.addPlayer asciiTrim (SetupScreen.mkState "   " ["A"])
  = (SetupScreen.mkState "   " ["A"], []).
Proof.
  destruct (SetupScreen_no_blank_names asciiTrim (fun _ => "")
              (SetupScreen.mkState "   " ["A"])) as [H _].
  - apply (SetupScreen.reach_step asciiTrim (fun _ => "")
             (SetupScreen.ChangeText "   ") (SetupScreen.mkState "" ["A"])).
    apply (SetupScreen.reach_step asciiTrim (fun _ => "")
             SetupScreen.AddPlayer (SetupScreen.mkState "A" [])).
    apply (SetupScreen.reach_step asciiTrim (fun _ => "")
             (SetupScreen.ChangeText "A") SetupScreen.initialState).
    apply SetupScreen.reach_init.
  - apply H. vm_compute. reflexivity.
Defined.

(* ================================================================== *)
(** * Further properties of App.tsx *)
(* ================================================================== *)
Section AppRound.
Import App.

(** The four ways a pick can go. *)
Lemma handlePick_outcome nextMine tileId s :
  handlePick nextMine tileId s = s
  \/ (exists cp t,
        currentPlayer s = Some cp
        /\ List.find (fun t => (tile_id t =? tileId)%nat) (grid s) = Some t
        /\ revealed t = false /\ isMine t = true
        /\ handlePick nextMine tileId s
           = mkState (slapAt (currentPlayerIndex s) (players s)) (playerName s)
               ((currentPlayerIndex s + 1) mod length (players s))%nat
               nextMine (createGrid nextMine) MAX_PICKS
               (name cp +:+ " hit the mine! Slap!"))
  \/ (exists cp t,
        currentPlayer s = Some cp
        /\ List.find (fun t => (tile_id t =? tileId)%nat) (grid s) = Some t
        /\ revealed t = false /\ isMine t = false /\ picksLeft s = 1
        /\ handlePick nextMine tileId s
           = mkState (players s) (playerName s)
               ((currentPlayerIndex s + 1) mod length (players s))%nat
               nextMine (createGrid nextMine) MAX_PICKS
               (name cp +:+ " is safe. Next player."))
  \/ (exists cp t,
        currentPlayer s = Some cp
        /\ List.find (fun t => (tile_id t =? tileId)%nat) (grid s) = Some t
        /\ revealed t = false /\ isMine t = false
        /\ picksLeft s <> 0 /\ picksLeft s <> 1
        /\ handlePick nextMine tileId s
           = mkState (players s) (playerName s) (currentPlayerIndex s) (mineIndex s)
               (revealTile tileId (grid s)) (picksLeft s - 1) (roundMessage s)).
Proof.
  destruct (currentPlayer s) as [cp|] eqn:Hcp.
  2:{ left. apply handlePick_blocked. auto. }
  destruct (Z.eq_dec (picksLeft s) 0) as [H0|H0].
  { left. apply handlePick_blocked. auto. }
  destruct (List.find (fun t => (tile_id t =? tileId)%nat) (grid s)) as [t|] eqn:Hf.
  2:{ left. apply handlePick_blocked. auto. }
  destruct (revealed t) eqn:Hr.
  { left. apply handlePick_blocked. do 3 right. eauto. }
  destruct (isMine t) eqn:Hm.
  - right; left. exists cp, t. repeat split; auto.
    apply (handlePick_mine _ _ _ _ _ Hcp H0 Hf Hr Hm).
  - pose proof (handlePick_safe nextMine tileId s cp t Hcp H0 Hf Hr Hm) as E.
    destruct (Z.eqb_spec (picksLeft s) 1) as [H1|H1].
    + right; right; left. exists cp, t. repeat split; auto.
    + right; right; right. exists cp, t. repeat split; auto.
Qed.

Lemma revealTile_insert (g : list Tile) (tileId : nat) (t : Tile) :
  tile_id <$> g = seq 0 (length g) -> g !! tileId = Some t ->
  revealTile tileId g = <[tileId := markRevealed t]> g.
Proof.
  intros Hid Hl. apply list_eq. intros j.
  rewrite (revealTile_lookup g tileId 0 j Hid). simpl.
  destruct (Nat.eqb_spec j tileId) as [->|Hne].
  - rewrite list_lookup_insert_eq by (apply lookup_lt_Some in Hl; exact Hl).
    rewrite Hl. reflexivity.
  - rewrite list_lookup_insert_ne by congruence.
    destruct (g !! j); reflexivity.
Qed.

Lemma revealedCount_cons (t : Tile) (g : list Tile) :
  revealedCount (t :: g) = ((if revealed t then 1 else 0) + revealedCount g)%nat.
Proof. unfold revealedCount. simpl. destruct (revealed t); reflexivity. Qed.

Lemma revealedCount_insert (g : list Tile) : forall (i : nat) (t : Tile),
  g !! i = Some t -> revealed t = false ->
  revealedCount (<[i := markRevealed t]> g) = S (revealedCount g).
Proof.
  induction g as [|a g IH]; intros [|i] t Hl Hr; simpl in Hl; try discriminate Hl.
  - injection Hl as ->. simpl. rewrite !revealedCount_cons. simpl. rewrite Hr.
    reflexivity.
  - simpl. rewrite !revealedCount_cons, (IH i t Hl Hr). lia.
Qed.

Lemma createGrid_hidden m t : t ∈ createGrid m -> revealed t = false.
Proof.
  unfold createGrid. intros Ht. apply list_elem_of_fmap in Ht as (i & -> & _).
  reflexivity.
Qed.

Lemma revealedCount_hidden (g : list Tile) :
  (forall t, t ∈ g -> revealed t = false) -> revealedCount g = 0%nat.
Proof.
  induction g as [|a g IH]; intros H; [reflexivity|].
  rewrite revealedCount_cons, (H a) by apply list_elem_of_here. simpl.
  apply IH. intros t Ht. apply H. apply list_elem_of_further. exact Ht.
Qed.

Lemma find_in_grid s tileId t :
  Inv s -> List.find (fun t => (tile_id t =? tileId)%nat) (grid s) = Some t ->
  grid s !! tileId = Some t
  /\ tile_id <$> grid s = seq 0 (length (grid s)).
Proof.
  intros HI Hf. pose proof (inv_ids s HI) as Hid.
  assert (Hlen : length (grid s) = (GRID_SIZE * GRID_SIZE)%nat).
  { apply (f_equal length) in Hid. rewrite length_fmap, length_seq in Hid. exact Hid. }
  rewrite <- Hlen in Hid. split; [|exact Hid].
  rewrite <- (find_by_id (grid s) 0 tileId Hid). exact Hf.
Qed.

Lemma App_step_RoundInv trim e s :
  Inv s -> RoundInv s -> drawsInRange e -> RoundInv (step trim e s).
Proof.
  intros HI HR Hd. destruct e as [text|now|nextMine tileId]; simpl.
  - destruct HR. constructor; auto.
  - unfold addPlayer. destruct (String.eqb _ _); [exact HR|].
    destruct HR. destruct (players s); constructor; auto.
  - simpl in Hd.
    assert (Hreset : forall ps pn i msg,
              RoundInv (mkState ps pn i nextMine (createGrid nextMine) MAX_PICKS msg)).
    { intros. constructor; cbn [grid picksLeft mineIndex]; auto.
      intros t Ht. unfold tileText. rewrite (createGrid_hidden _ _ Ht).
      discriminate. }
    destruct (handlePick_outcome nextMine tileId s)
      as [->|[(cp & t & _ & _ & _ & _ & ->)|[(cp & t & _ & _ & _ & _ & _ & ->)
         |(cp & t & _ & Hf & Hr & Hm & H0 & H1 & ->)]]]; auto.
    destruct (find_in_grid s tileId t HI Hf) as [Hl Hid].
    destruct HR as [Hmi Hmines Hrev Hboom].
    constructor; simpl; auto.
    + rewrite revealTile_mines. exact Hmines.
    + rewrite (revealTile_insert _ _ t Hid Hl), (revealedCount_insert _ _ _ Hl Hr).
      lia.
    + rewrite (revealTile_insert _ _ t Hid Hl). intros t' Ht'.
      apply list_elem_of_lookup in Ht' as [j Hj].
      destruct (decide (tileId = j)) as [<-|Hne].
      * rewrite list_lookup_insert_eq in Hj
          by (apply lookup_lt_Some in Hl; exact Hl).
        injection Hj as <-. unfold tileText, markRevealed. simpl. rewrite Hm.
        discriminate.
      * rewrite list_lookup_insert_ne in Hj by exact Hne.
        apply Hboom. apply list_elem_of_lookup. eauto.
Qed.

Lemma App_reachable_RoundInv trim s : reachable trim s -> RoundInv s.
Proof.
  induction 1 as [mine0 Hm | e s Hr IH Hd].
  - constructor; cbn [grid picksLeft mineIndex initialState]; auto.
    intros t Ht. unfold tileText. rewrite (createGrid_hidden _ _ Ht). discriminate.
  - apply App_step_RoundInv; auto. apply (App_reachable_Inv trim s Hr).
Qed.

End AppRound.

(** X17.  In every state of App.tsx the number of revealed tiles is the
    number of picks used in the running turn, [MAX_PICKS - picksLeft], and
    no tile shows the explosion: a mine that is picked is never displayed,
    because the same update replaces the grid. *)
Theorem App_revealed_are_picks_used (trim : string -> string) (s : App.State) :
  App.reachable trim s ->
  Z.of_nat (App.revealedCount (App.grid s)) = App.MAX_PICKS - App.picksLeft s
  /\ forall t, t ∈ App.grid s -> App.tileText t <> App.Boom.
Proof.
  intros Hr. pose proof (App_reachable_RoundInv trim s Hr) as HR.
  split; apply HR.
Qed.

Lemma App_revealed_are_picks_used_witness :
  Z.of_nat (App.revealedCount
              (App.grid (App.stateAfter 7 (App.addAB ++ [App.Pick 0 0; App.Pick 0 1]))))
  = 2.
Proof.
  destruct (App_revealed_are_picks_used asciiTrim
              (App.stateAfter 7 (App.addAB ++ [App.Pick 0 0; App.Pick 0 1])))
    as [H _].
  - apply App_stateAfter_reachable; [simpl; lia|]. repeat constructor; simpl; lia.
  - rewrite H. vm_compute. reflexivity.
Defined.

(** X18.  In every state of App.tsx the state variable [mineIndex] is a
    tile position and the only mine of the grid is the tile at that
    position. *)
Theorem App_mine_index_agrees (trim : string -> string) (s : App.State)
    (p : nat) (t : App.Tile) :
  App.reachable trim s ->
  App.grid s !! p = Some t ->
  (App.mineIndex s < App.GRID_SIZE * App.GRID_SIZE)%nat
  /\ App.tile_id t = p
  /\ App.isMine t = (p =? App.mineIndex s)%nat.
Proof.
  intros Hr Hl.
  pose proof (App_reachable_RoundInv trim s Hr) as HR.
  pose proof (App_reachable_Inv trim s Hr) as HI.
  split; [apply HR|].
  pose proof (lookup_lt_Some _ _ _ Hl) as Hlt.
  pose proof (App.inv_ids s HI) as Hid.
  assert (Hlen : length (App.grid s) = (App.GRID_SIZE * App.GRID_SIZE)%nat).
  { apply (f_equal length) in Hid. rewrite length_fmap, length_seq in Hid. exact Hid. }
  rewrite Hlen in Hlt. split.
  - apply (f_equal (fun l => l !! p)) in Hid.
    rewrite list_lookup_fmap, Hl, lookup_seq_lt in Hid by exact Hlt.
    simpl in Hid. congruence.
  - pose proof (App.round_mines s HR) as Hm.
    apply (f_equal (fun l => l !! p)) in Hm.
    rewrite !list_lookup_fmap, Hl, createGrid_lookup in Hm by exact Hlt.
    simpl in Hm. congruence.
Qed.

Lemma App_mine_index_agrees_witness :
  App.isMine (App.mkTile 3 false true)
  = (3 =? App.mineIndex (App.stateAfter 7 (App.addAB ++ [App.Pick 3 7])))%nat.
Proof.
  destruct (App_mine_index_agrees asciiTrim
              (App.stateAfter 7 (App.addAB ++ [App.Pick 3 7])) 3
              (App.mkTile 3 false true)) as (_ & _ & H).
  - apply App_stateAfter_reachable; [simpl; lia|]. repeat constructor; simpl; lia.
  - vm_compute. reflexivity.
  - exact H.
Defined.

(** X19.  In every state of App.tsx there is a current player exactly when
    the roster is not empty, and the current-player index is then a valid
    index into the roster. *)
Theorem App_current_player_defined (trim : string -> string) (s : App.State) :
  App.reachable trim s ->
  (App.currentPlayer s = None <-> App.players s = [])
  /\ (App.players s <> [] ->
      (App.currentPlayerIndex s < length (App.players s))%nat).
Proof.
  intros Hr. pose proof (App_reachable_Inv trim s Hr) as HI.
  assert (Hlt : App.players s <> [] ->
                (App.currentPlayerIndex s < length (App.players s))%nat).
  { intros Hne. destruct (App.inv_index s HI) as [H|H]; [exact H|].
    rewrite H. destruct (App.players s); [contradiction|simpl; lia]. }
  split; [|exact Hlt]. split.
  - intros Hnone. destruct (App.players s) as [|q l] eqn:E; [reflexivity|].
    exfalso. assert (Hne : q :: l <> []) by discriminate.
    specialize (Hlt Hne). unfold App.currentPlayer in Hnone. rewrite E in Hnone.
    apply lookup_ge_None in Hnone. lia.
  - apply currentPlayer_empty.
Qed.

Lemma App_current_player_defined_witness :
  (App.currentPlayerIndex (App.stateAfter 7 (App.addAB ++ [App.Pick 3 7]))
   < length (App.players (App.stateAfter 7 (App.addAB ++ [App.Pick 3 7]))))%nat.
Proof.
  destruct (App_current_player_defined asciiTrim
              (App.stateAfter 7 (App.addAB ++ [App.Pick 3 7]))) as [_ H].
  - apply App_stateAfter_reachable; [simpl; lia|]. repeat constructor; simpl; lia.
  - apply H. vm_compute. discriminate.
Defined.

Lemma handlePick_players nextMine tileId s :
  App.players (App.handlePick nextMine tileId s) = App.players s
  \/ App.players (App.handlePick nextMine tileId s)
     = App.slapAt (App.currentPlayerIndex s) (App.players s).
Proof.
  destruct (handlePick_outcome nextMine tileId s)
    as [->|[(cp & t & _ & _ & _ & _ & ->)|[(cp & t & _ & _ & _ & _ & _ & ->)
       |(cp & t & _ & _ & _ & _ & _ & _ & ->)]]]; simpl; auto.
Qed.

Lemma addPlayer_players trim now s :
  trim (App.playerName s) <> "" ->
  App.players (App.addPlayer trim now s)
  = (App.players s ++ [App.mkPlayer now (trim (App.playerName s)) 0])%list.
Proof.
  intros Hnb. unfold App.addPlayer.
  destruct (String.eqb_spec (trim (App.playerName s)) ""); [contradiction|].
  destruct (App.players s); reflexivity.
Qed.

(** X20.  No event of App.tsx removes or renames a player or lowers a
    slap count: the player at each index keeps id and name, and the slap
    count stays or goes up by one; it goes up only for the player at the
    current index. *)
Theorem App_players_persist (trim : string -> string) (e : App.Event)
    (s : App.State) (i : nat) (p : App.Player) :
  App.players s !! i = Some p ->
  exists p',
    App.players (App.step trim e s) !! i = Some p'
    /\ App.player_id p' = App.player_id p
    /\ App.name p' = App.name p
    /\ (App.slaps p' = App.slaps p
        \/ App.slaps p' = App.slaps p + 1 /\ i = App.currentPlayerIndex s).
Proof.
  intros Hl. destruct e as [text|now|nextMine tileId]; simpl.
  - exists p. auto.
  - destruct (String.eqb_spec (trim (App.playerName s)) "") as [E|Hnb].
    + unfold App.addPlayer. rewrite E. simpl. exists p. auto.
    + rewrite addPlayer_players by exact Hnb. exists p. split; [|auto].
      apply lookup_app_l_Some. exact Hl.
  - destruct (handlePick_players nextMine tileId s) as [->| ->]; [exists p; auto|].
    rewrite slapAt_lookup, Hl. simpl. eexists. split; [reflexivity|]. simpl.
    split; [reflexivity|]. split; [reflexivity|].
    destruct (Nat.eqb_spec i (App.currentPlayerIndex s)); [right; auto|left; lia].
Qed.

Lemma App_players_persist_witness :
  exists p',
    App.players (App.step asciiTrim (App.Pick 3 7) (App.stateAfter 7 App.addAB))
      !! 1%nat = Some p'
    /\ App.name p' = "B".
Proof.
  destruct (App_players_persist asciiTrim (App.Pick 3 7)
              (App.stateAfter 7 App.addAB) 1 (App.mkPlayer 2 "B" 0))
    as (p' & H & _ & Hn & _).
  - vm_compute. reflexivity.
  - exists p'. split; [exact H|exact Hn].
Defined.

(** X21.  Adding a player never takes the turn away: when there is a
    current player, [addPlayer] leaves the same player current; and the
    first player added to an empty roster becomes the current player,
    whatever the index was. *)
Theorem App_add_player_keeps_turn (trim : string -> string) (now : Z)
    (s : App.State) :
  trim (App.playerName s) <> "" ->
  (forall cp, App.currentPlayer s = Some cp ->
     App.currentPlayer (App.addPlayer trim now s) = Some cp)
  /\ (App.players s = [] ->
      App.currentPlayer (App.addPlayer trim now s)
      = Some (App.mkPlayer now (trim (App.playerName s)) 0)).
Proof.
  intros Hnb. unfold App.addPlayer.
  destruct (String.eqb_spec (trim (App.playerName s)) ""); [contradiction|].
  split.
  - intros cp Hcp. unfold App.currentPlayer in *.
    destruct (App.players s) as [|q ps] eqn:E; [discriminate|]. simpl.
    apply lookup_app_l_Some with (l2 := [App.mkPlayer now (trim (App.playerName s)) 0])
      in Hcp. exact Hcp.
  - intros ->. reflexivity.
Qed.

Lemma App_add_player_keeps_turn_witness :
  App.currentPlayer
    (App.addPlayer asciiTrim 3
       (App.setPlayerName "C" (App.stateAfter 7 (App.addAB ++ [App.Pick 3 7]))))
  = Some (App.mkPlayer 2 "B" 0).
Proof.
  destruct (App_add_player_keeps_turn asciiTrim 3
              (App.setPlayerName "C" (App.stateAfter 7 (App.addAB ++ [App.Pick 3 7]))))
    as [H _].
  - vm_compute. discriminate.
  - apply H. vm_compute. reflexivity.
Defined.

(** X22.  In every state of App.tsx a pick with an id that no tile has
    (25 or more) changes nothing. *)
Theorem App_pick_unknown_tile (trim : string -> string) (s : App.State)
    (nextMine tileId : nat) :
  App.reachable trim s ->
  (App.GRID_SIZE * App.GRID_SIZE <= tileId)%nat ->
  App.handlePick nextMine tileId s = s.
Proof.
  intros Hr Hge. pose proof (App_reachable_Inv trim s Hr) as HI.
  apply handlePick_blocked. right; right; left.
  pose proof (App.inv_ids s HI) as Hid.
  assert (Hlen : length (App.grid s) = (App.GRID_SIZE * App.GRID_SIZE)%nat).
  { apply (f_equal length) in Hid. rewrite length_fmap, length_seq in Hid. exact Hid. }
  rewrite <- Hlen in Hid.
  pose proof (find_by_id (App.grid s) 0 tileId Hid) as Hf. simpl in Hf.
  rewrite Hf. apply lookup_ge_None. lia.
Qed.

Lemma App_pick_unknown_tile_witness :
  App.handlePick 3 25 (App.stateAfter 7 App.addAB) = App.stateAfter 7 App.addAB.
Proof.
  apply (App_pick_unknown_tile asciiTrim).
  - apply App_stateAfter_reachable; [simpl; lia|]. repeat constructor.
  - simpl. lia.
Defined.

(* ================================================================== *)
(** * "End Turn" on a round that is already won *)
(* ================================================================== *)

(** C6.  The manual end of turn is to succeed only when a pick has been
    used and the round is not already over.  On the game screen it also
    succeeds when the round is over because the picks are exhausted: in
    every state in [RoundWon] (with a non-empty roster) [picksLeft] is 0,
    the turn is locked and the [nextTurn] timer is pending, yet the "End
    Turn" button is enabled (its [disabled] expression tests
    [picksLeft === 3] and [isGameOver] only, and [handleEndTurn] sets the
    turn lock without testing it, as [handleTilePress] does).  The press
    advances the turn to the next player, and the timer, still pending,
    advances it again when it fires, so that one turn is passed over. *)
Theorem C6_end_turn_after_round_won (ps : list string) (s : GameScreen.State) :
  GameScreen.reachable ps s ->
  ps <> [] ->
  GameScreen.phase s = RoundWon ->
  GameScreen.picksLeft s = 0
  /\ GameScreen.turnLockedRef s = true
  /\ GameScreen.isGameOver s = false
  /\ (1 <= GameScreen.pendingTimers s)%nat
  /\ GameScreen.endTurnDisabled s = false
  /\ exists s1,
       GameScreen.step GameScreen.EndTurn s = Done s1
       /\ s1 <> s
       /\ GameScreen.currentPlayerIndex s1
          = ((GameScreen.currentPlayerIndex s + 1) mod length ps)%nat
       /\ GameScreen.picksLeft s1 = 3
       /\ GameScreen.phase s1 = AwaitingPick
       /\ GameScreen.pendingTimers s1 = GameScreen.pendingTimers s
       /\ exists s2,
            GameScreen.step GameScreen.TimerFires s1 = Done s2
            /\ GameScreen.currentPlayerIndex s2
               = ((GameScreen.currentPlayerIndex s + 2) mod length ps)%nat.
Proof.
  intros Hr Hne Hph.
  destruct (reachable_Inv ps s Hr) as [HI Hps].
  pose proof (reachable_LockInv ps s Hr) as HL.
  pose proof (GameScreen.inv_ref s HI) as Href.
  pose proof (GameScreen.inv_picks s HI) as Hp.
  apply phase_RoundWon in Hph as (Hg & Hgo & Hsl & Hlk).
  assert (H0 : GameScreen.picksLeft s = 0).
  { destruct Hlk as [Hlk|Hle]; [|lia].
    destruct (GameScreen.lock_locked s HL Hlk) as [Hc|Hc]; [exact Hc|congruence]. }
  destruct (GameScreen.lock_exhausted s HL H0) as (Hlocked & _ & Hpend).
  assert (Hnone : GameScreen.slappedPlayer s = None).
  { destruct (GameScreen.slappedPlayer s) eqn:E; [|reflexivity].
    assert (GameScreen.isGameOver s = true)
      by (apply (GameScreen.lock_modal s HL); rewrite E; discriminate).
    congruence. }
  assert (Hdis : GameScreen.endTurnDisabled s = false)
    by (unfold GameScreen.endTurnDisabled; rewrite H0, Hgo; reflexivity).
  split; [exact H0|]. split; [exact Hlocked|]. split; [exact Hgo|].
  split; [exact Hpend|]. split; [exact Hdis|].
  destruct (GameScreen.pendingTimers s) as [|n] eqn:En; [lia|].
  assert (H1 : GameScreen.step GameScreen.EndTurn s =
               Done (GameScreen.mkState ps (GameScreen.grid s)
                       ((GameScreen.currentPlayerIndex s + 1) mod length ps)%nat 3
                       None false (GameScreen.mineCount s) 3 false (S n))).
  { unfold GameScreen.step. simpl.
    unfold GameScreen.pressEndTurn, GameScreen.handleEndTurn. rewrite Hdis, H0.
    simpl. rewrite sync_nextTurn by auto. simpl.
    rewrite Hps, advanceIndex_nonempty, Hnone, Hgo, En by exact Hne. reflexivity. }
  rewrite H1. eexists. split; [reflexivity|]. split.
  { intros E. apply (f_equal GameScreen.picksLeft) in E. simpl in E. lia. }
  simpl. split; [reflexivity|]. split; [reflexivity|]. split.
  { apply phase_AwaitingPick. simpl. repeat split; auto; lia. }
  split; [reflexivity|].
  unfold GameScreen.step. simpl. unfold GameScreen.timerFires. simpl.
  eexists. split; [reflexivity|]. simpl.
  rewrite advanceIndex_nonempty by exact Hne.
  rewrite Nat.Div0.add_mod_idemp_l. f_equal. lia.
Qed.

Lemma C6_end_turn_after_round_won_witness :
  let s := GameScreen.stateAfter ["A"; "B"; "C"] [7%nat]
             [GameScreen.TilePress 0; GameScreen.TilePress 1; GameScreen.TilePress 2] in
  GameScreen.endTurnDisabled s = false
  /\ exists s1 s2,
       GameScreen.step GameScreen.EndTurn s = Done s1
       /\ s1 <> s
       /\ GameScreen.step GameScreen.TimerFires s1 = Done s2
       /\ GameScreen.currentPlayerIndex s2 = 2%nat.
Proof.
  destruct (C6_end_turn_after_round_won ["A"; "B"; "C"]
              (GameScreen.stateAfter ["A"; "B"; "C"] [7%nat]
                 [GameScreen.TilePress 0; GameScreen.TilePress 1;
                  GameScreen.TilePress 2]))
    as (_ & _ & _ & _ & Hdis & s1 & H1 & Hne & _ & _ & _ & _ & s2 & H2 & Hi).
  - apply stateAfter_reachable; vm_compute; reflexivity.
  - discriminate.
  - vm_compute. reflexivity.
  - split; [exact Hdis|]. exists s1, s2.
    split; [exact H1|]. split; [exact Hne|]. split; [exact H2|].
    rewrite Hi. vm_compute. reflexivity.
Defined.
